(** * go-astiencoder: frame dispatcher, forwarder, muxer, demuxer and
    workflow pool

  A shallow embedding of [workflow_pool.go] and of the [astilibav] nodes
  (frame dispatcher and frame pool, forwarder, muxer, demuxer).

  Go maps are [gmap]s, Go integers are [Z], pointers to pooled native
  frames are frame identifiers into an explicit store, goroutines are
  pending tasks run by an explicit scheduler, and the native media library
  is a set of return codes supplied by the environment. *)

From Stdlib Require Import ZArith List Bool SpecFloat.
From stdpp Require Import base decidable option list gmap strings fin_maps.

Open Scope Z_scope.

(** ** Native media library: constants and rational rescaling *)

Module Native.

(** A rational number as the native library has it: numerator, denominator. *)
Record Rational := { num : Z; den : Z }.

Definition NewRational (n d : Z) : Rational := {| num := n; den := d |}.

Definition INT64_MIN : Z := - 2 ^ 63.
Definition INT64_MAX : Z := 2 ^ 63 - 1.

(** The native "no timestamp" marker. *)
Definition AV_NOPTS_VALUE : Z := INT64_MIN.

(** End of input, as the native library encodes it:
    [-MKTAG('E','O','F',' ')]. *)
Definition AVERROR_EOF : Z := - 541478725.

(** Out of memory, [-ENOMEM]. *)
Definition AVERROR_ENOMEM : Z := - 12.

Definition AVSEEK_FLAG_BACKWARD : Z := 1.

(** Modelled from the spec: the native rational-time rescale (section 6,
    "rational-time rescale"), whose source is the native library's and not
    this repository's.  [av_rescale_q a bq cq] is [a * bq / cq] rounded to
    the nearest integer, halves away from zero; a non-positive divisor or a
    negative multiplier gives [INT64_MIN]. *)
Definition av_rescale_q (a : Z) (bq cq : Rational) : Z :=
  let b := num bq * den cq in
  let c := num cq * den bq in
  if (c <=? 0) || (b <? 0) then INT64_MIN
  else if a <? 0 then - ((- a * b + c / 2) / c)
  else (a * b + c / 2) / c.

(** [avformat.Stream], as far as the nodes read it. *)
Record Stream := { Index : Z; StreamTimeBase : Rational }.

(** [avcodec.Packet]: the fields the nodes read and write.  [SkipSamples] is
    the packet's AV_PKT_DATA_SKIP_SAMPLES side data, a byte buffer, [None]
    when [AvPacketGetSideData] returns nil. *)
Record Packet := {
  Pts : Z;
  Dts : Z;
  Duration : Z;
  StreamIndex : Z;
  SkipSamples : option (list Z)
}.

Definition SetStreamIndex (pkt : Packet) (i : Z) : Packet :=
  {| Pts := Pts pkt; Dts := Dts pkt; Duration := Duration pkt;
     StreamIndex := i; SkipSamples := SkipSamples pkt |}.

(** Modelled from the spec: the native rescale of a packet's timestamps from
    one time base to another, whose source is the native library's: pts, dts
    and duration go through [av_rescale_q]; as in the native library a
    timestamp that is not set ([AV_NOPTS_VALUE]) and a duration that is not
    positive are left as they are. *)
Definition AvPacketRescaleTs (pkt : Packet) (src dst : Rational) : Packet :=
  {| Pts := if Pts pkt =? AV_NOPTS_VALUE then Pts pkt
            else av_rescale_q (Pts pkt) src dst;
     Dts := if Dts pkt =? AV_NOPTS_VALUE then Dts pkt
            else av_rescale_q (Dts pkt) src dst;
     Duration := if 0 <? Duration pkt then av_rescale_q (Duration pkt) src dst
                 else Duration pkt;
     StreamIndex := StreamIndex pkt;
     SkipSamples := SkipSamples pkt |}.

(** A restamper object: its state and its [Restamp] method, which rewrites the
    packet in place. *)
Record PktRestamper := {
  rs_state : Z;
  Restamp : Z → Packet → Z * Packet
}.

Definition do_restamp (r : PktRestamper) (pkt : Packet) : PktRestamper * Packet :=
  let '(st, pkt') := Restamp r (rs_state r) pkt in
  ({| rs_state := st; Restamp := Restamp r |}, pkt').

End Native.

(** ** [workflow_pool.go] *)

Module WorkflowPool.

(** A workflow, as far as the pool looks at it: its name.  [wf_id] stands for
    the identity of the pointed-to object. *)
Record Workflow := { name : string; wf_id : nat }.

Inductive error := ErrWorkflowNotFound.

Record WorkflowPool := { ws : gmap string Workflow }.

Definition NewWorkflowPool : WorkflowPool := {| ws := ∅ |}.

(** [wp.ws[w.name] = w] *)
Definition AddWorkflow (wp : WorkflowPool) (w : Workflow) : WorkflowPool :=
  {| ws := <[name w := w]> (ws wp) |}.

(** The method [Workflow], named [Workflow_] next to the record: its two
    results, the workflow (nil when absent) and the error (nil when found). *)
Definition Workflow_ (wp : WorkflowPool) (n : string)
  : option Workflow * option error :=
  match ws wp !! n with
  | Some w => (Some w, None)
  | None => (None, Some ErrWorkflowNotFound)
  end.

(** The values of the map, in the order the map enumerates them. *)
Definition Workflows (wp : WorkflowPool) : list Workflow :=
  (map_to_list (ws wp)).*2.

End WorkflowPool.

(** ** IEEE-754 binary64, for the one floating-point expression of the
    demuxer *)

Module Float64.

Definition prec : Z := 53.
Definition emax : Z := 1024.

(** [float64(n)] for an integer [n]: the nearest binary64, ties to even. *)
Definition of_int (n : Z) : spec_float := binary_normalize prec emax n 0 false.

Definition div (x y : spec_float) : spec_float := SFdiv prec emax x y.
Definition mul (x y : spec_float) : spec_float := SFmul prec emax x y.

(** [int64(x)]: truncation toward zero.  Go leaves the conversion of a NaN,
    of an infinity and of a value outside the range of int64
    implementation-dependent: [None]. *)
Definition to_int64 (x : spec_float) : option Z :=
  match x with
  | S754_zero _ => Some 0
  | S754_finite sg m e =>
      let v := match e with
               | Z0 => Z.pos m
               | Z.pos p => Z.pos m * 2 ^ Z.pos p
               | Z.neg p => Z.pos m / 2 ^ Z.pos p
               end in
      let r := if sg then - v else v in
      if (Native.INT64_MIN <=? r) && (r <=? Native.INT64_MAX) then Some r
      else None
  | S754_infinity _ | S754_nan => None
  end.

End Float64.

(** ** The demuxer *)

Module Demuxer.
Import Native.

(** Two's complement wrap-around of int64 arithmetic. *)
Definition wrap64 (x : Z) : Z := (x + 2 ^ 63) mod 2 ^ 64 - 2 ^ 63.

Inductive MediaType :=
| AVMEDIA_TYPE_UNKNOWN
| AVMEDIA_TYPE_VIDEO
| AVMEDIA_TYPE_AUDIO
| AVMEDIA_TYPE_DATA
| AVMEDIA_TYPE_SUBTITLE.

(** [Context], as far as the demuxer reads it. *)
Record Context := { CodecType : MediaType; SampleRate : Z; TimeBase : Rational }.

(** [AV_RL32(sd, off)]: the 32-bit little-endian value at byte offset [off]. *)
Definition AV_RL32 (sd : list Z) (off : nat) : Z :=
  nth off sd 0 + 2 ^ 8 * nth (off + 1) sd 0
  + 2 ^ 16 * nth (off + 2) sd 0 + 2 ^ 24 * nth (off + 3) sd 0.

Record demuxerPkt := { dts : Z; duration : Z; s : Stream }.

Definition newDemuxerPkt (pkt : Packet) (st : Stream) : demuxerPkt :=
  {| dts := Dts pkt; duration := Duration pkt; s := st |}.

(** [emulateRateNextAt] is a [time.Time], here in nanoseconds since the zero
    time; [IsZero] is [=? 0]. *)
Record demuxerStream := {
  ctx : Context;
  emulateRateNextAt : Z;
  ds_s : Stream
}.

Record Demuxer := {
  emulateRate : bool;
  loop : bool;
  loopFirstPkt : option demuxerPkt;
  restamper : option PktRestamper;
  ss : gmap Z demuxerStream
}.

Definition nanosecondRational : Rational := NewRational 1 1000000000.

(** What a call does to the world outside the demuxer's own fields, in the
    order it happens. *)
Inductive effect :=
| EvGet                                  (* d.d.p.get() *)
| EvPut                                  (* d.d.p.put(pkt), deferred *)
| EvError (ret : Z)                      (* emitAvError *)
| EvSeek (idx ts flags : Z)              (* ctxFormat.AvSeekFrame *)
| EvSleep (delta : Z)                    (* astitime.Sleep(ctx, delta) *)
| EvDispatch (pkt : Packet) (st : Stream) (* d.d.dispatch(pkt, s.s) *)
| EvHandlePause                          (* d.HandlePause() *)
| EvWait.                                (* d.d.wait(), deferred *)

(** The number of nanoseconds of [skip] samples at [rate] samples per second,
    as the source computes it:
    [int64(float64(skip) / float64(rate) * 1e9)]. *)
Definition skip_ns (skip rate : Z) : option Z :=
  Float64.to_int64
    (Float64.mul (Float64.div (Float64.of_int skip) (Float64.of_int rate))
                 (Float64.of_int 1000000000)).

(** [None] where the float-to-integer conversion is implementation-dependent. *)
Definition emulateRatePktDuration (pkt : Packet) (c : Context) : option Z :=
  match CodecType c with
  | AVMEDIA_TYPE_AUDIO =>
      match SkipSamples pkt with
      | None => Some (Duration pkt)
      | Some sd =>
          let skipStart := AV_RL32 sd 0 in
          let skipEnd := AV_RL32 sd 4 in
          match skip_ns (skipStart + skipEnd) (SampleRate c) with
          | Some ns =>
              Some (wrap64 (Duration pkt
                            - av_rescale_q ns nanosecondRational (TimeBase c)))
          | None => None
          end
      end
  | _ => Some (Duration pkt)
  end.

(** What the native library and the clock answer during one [readFrame]. *)
Record ReadEnv := {
  read_ret : Z;        (* return of AvReadFrame *)
  read_pkt : Packet;   (* the packet it filled in, when [read_ret >= 0] *)
  seek_ret : Z;        (* return of AvSeekFrame, when called *)
  now : Z              (* time.Now() *)
}.

(** The rate emulation block of [readFrame]: the sleep, if any, and the
    stream's next emission time. *)
Definition emulate (e : ReadEnv) (pkt : Packet) (st : demuxerStream)
  : option (list effect * demuxerStream) :=
  let '(evs, nextAt) :=
    if negb (emulateRateNextAt st =? 0) then
      let delta := emulateRateNextAt st - now e in
      (if delta >? 0 then [EvSleep delta] else [], emulateRateNextAt st)
    else ([], now e) in
  match emulateRatePktDuration pkt (ctx st) with
  | Some dur =>
      Some (evs,
            {| ctx := ctx st;
               emulateRateNextAt :=
                 nextAt + av_rescale_q dur (StreamTimeBase (ds_s st))
                                       nanosecondRational;
               ds_s := ds_s st |})
  | None => None
  end.

(** [readFrame]: the demuxer afterwards, the effects in order and [stop].
    The statistics calls are left out.  [None] only where the pacing duration
    hangs on a conversion the language leaves to the implementation; the
    program goes on there too, with the platform's integer, and
    [DemuxerPlatform.readFrame] below is the function on every path. *)
Definition readFrame (e : ReadEnv) (d : Demuxer)
  : option (Demuxer * list effect * bool) :=
  let ret := read_ret e in
  if ret <? 0 then
    if negb (ret =? AVERROR_EOF) || negb (loop d) then
      Some (d,
            [EvGet] ++ (if negb (ret =? AVERROR_EOF) then [EvError ret] else [])
            ++ [EvPut],
            true)
    else
      match loopFirstPkt d with
      | Some fp =>
          let sk := EvSeek (Index (s fp)) (dts fp) AVSEEK_FLAG_BACKWARD in
          if seek_ret e <? 0
          then Some (d, [EvGet; sk; EvError (seek_ret e); EvPut], true)
          else Some (d, [EvGet; sk; EvPut], false)
      | None => Some (d, [EvGet; EvPut], false)
      end
  else
    match ss d !! StreamIndex (read_pkt e) with
    | None => Some (d, [EvGet; EvPut], false)
    | Some st =>
        let '(rs, pkt) :=
          match restamper d with
          | Some r => let '(r', p) := do_restamp r (read_pkt e) in (Some r', p)
          | None => (None, read_pkt e)
          end in
        let first :=
          if loop d && negb (bool_decide (is_Some (loopFirstPkt d)))
          then Some (newDemuxerPkt pkt (ds_s st))
          else loopFirstPkt d in
        let mk sm := {| emulateRate := emulateRate d; loop := loop d;
                        loopFirstPkt := first; restamper := rs; ss := sm |} in
        if emulateRate d then
          match emulate e pkt st with
          | Some (evs, st') =>
              Some (mk (<[StreamIndex (read_pkt e) := st']> (ss d)),
                    [EvGet] ++ evs ++ [EvDispatch pkt (ds_s st); EvPut],
                    false)
          | None => None
          end
        else Some (mk (ss d), [EvGet; EvDispatch pkt (ds_s st); EvPut], false)
    end.

(** One turn of the read loop of [Start]: what the environment answers to
    [readFrame], and whether the node's context is cancelled when the loop
    checks it after [HandlePause]. *)
Record IterEnv := { ienv : ReadEnv; cancelled : bool }.

Inductive loop_status := Returned | Reading.

(** The [for] loop of [Start] over the answers of the environment, one per
    turn.  [Reading]: the answers ran out with the loop still going.  The
    deferred [d.d.wait()] runs when the body returns. *)
Fixpoint Start_loop (envs : list IterEnv) (d : Demuxer)
  : option (Demuxer * list effect * loop_status) :=
  match envs with
  | [] => Some (d, [], Reading)
  | ie :: rest =>
      match readFrame (ienv ie) d with
      | None => None
      | Some (d', evs, true) => Some (d', evs ++ [EvWait], Returned)
      | Some (d', evs, false) =>
          if cancelled ie
          then Some (d', evs ++ [EvHandlePause; EvWait], Returned)
          else
            match Start_loop rest d' with
            | Some (d'', evs', st) => Some (d'', evs ++ [EvHandlePause] ++ evs', st)
            | None => None
            end
      end
  end.

(** Turns of the read loop at which the read ends the input and the context
    is not cancelled, and what such turns do. *)
Definition eof_turns (envs : list IterEnv) : Prop :=
  Forall (λ ie, read_ret (ienv ie) = AVERROR_EOF ∧ cancelled ie = false) envs.

Definition spin (envs : list IterEnv) : list effect :=
  concat (map (λ _, [EvGet; EvPut; EvHandlePause]) envs).

End Demuxer.

(** ** The demuxer on a given platform

    Where Go leaves [int64(x)] to the implementation, the program does not
    stop: it goes on with the integer the conversion of the platform yields.
    [conv] is that conversion on the values [Float64.to_int64] leaves out, a
    NaN, an infinity and what is outside the range of int64.  With it
    [emulateRatePktDuration], [readFrame] and the loop of [Start] are total,
    on every path of the source. *)

Module DemuxerPlatform.
Import Native Demuxer.

(** [float64(skip) / float64(rate) * 1e9] *)
Definition skip_float (skip rate : Z) : spec_float :=
  Float64.mul (Float64.div (Float64.of_int skip) (Float64.of_int rate))
              (Float64.of_int 1000000000).

Section Platform.
Variable conv : spec_float → Z.

(** [int64(x)] *)
Definition int64 (x : spec_float) : Z :=
  match Float64.to_int64 x with
  | Some n => n
  | None => conv x
  end.

Definition emulateRatePktDuration (pkt : Packet) (c : Context) : Z :=
  match CodecType c with
  | AVMEDIA_TYPE_AUDIO =>
      match SkipSamples pkt with
      | None => Duration pkt
      | Some sd =>
          let skipStart := AV_RL32 sd 0 in
          let skipEnd := AV_RL32 sd 4 in
          wrap64 (Duration pkt
                  - av_rescale_q
                      (int64 (skip_float (skipStart + skipEnd) (SampleRate c)))
                      nanosecondRational (TimeBase c))
      end
  | _ => Duration pkt
  end.

(** The rate emulation block of [readFrame]. *)
Definition emulate (e : ReadEnv) (pkt : Packet) (st : demuxerStream)
  : list effect * demuxerStream :=
  let '(evs, nextAt) :=
    if negb (emulateRateNextAt st =? 0) then
      let delta := emulateRateNextAt st - now e in
      (if delta >? 0 then [EvSleep delta] else [], emulateRateNextAt st)
    else ([], now e) in
  (evs,
   {| ctx := ctx st;
      emulateRateNextAt :=
        nextAt + av_rescale_q (emulateRatePktDuration pkt (ctx st))
                              (StreamTimeBase (ds_s st)) nanosecondRational;
      ds_s := ds_s st |}).

(** [readFrame]: the demuxer afterwards, the effects in order and [stop]. *)
Definition readFrame (e : ReadEnv) (d : Demuxer)
  : Demuxer * list effect * bool :=
  let ret := read_ret e in
  if ret <? 0 then
    if negb (ret =? AVERROR_EOF) || negb (loop d) then
      (d,
       [EvGet] ++ (if negb (ret =? AVERROR_EOF) then [EvError ret] else [])
       ++ [EvPut],
       true)
    else
      match loopFirstPkt d with
      | Some fp =>
          let sk := EvSeek (Index (s fp)) (dts fp) AVSEEK_FLAG_BACKWARD in
          if seek_ret e <? 0
          then (d, [EvGet; sk; EvError (seek_ret e); EvPut], true)
          else (d, [EvGet; sk; EvPut], false)
      | None => (d, [EvGet; EvPut], false)
      end
  else
    match ss d !! StreamIndex (read_pkt e) with
    | None => (d, [EvGet; EvPut], false)
    | Some st =>
        let '(rs, pkt) :=
          match restamper d with
          | Some r => let '(r', p) := do_restamp r (read_pkt e) in (Some r', p)
          | None => (None, read_pkt e)
          end in
        let first :=
          if loop d && negb (bool_decide (is_Some (loopFirstPkt d)))
          then Some (newDemuxerPkt pkt (ds_s st))
          else loopFirstPkt d in
        let mk sm := {| emulateRate := emulateRate d; loop := loop d;
                        loopFirstPkt := first; restamper := rs; ss := sm |} in
        if emulateRate d then
          let '(evs, st') := emulate e pkt st in
          (mk (<[StreamIndex (read_pkt e) := st']> (ss d)),
           [EvGet] ++ evs ++ [EvDispatch pkt (ds_s st); EvPut],
           false)
        else (mk (ss d), [EvGet; EvDispatch pkt (ds_s st); EvPut], false)
    end.

(** The [for] loop of [Start] over the answers of the environment, one per
    turn.  [Reading]: the answers ran out with the loop still going.  The
    deferred [d.d.wait()] runs when the body returns. *)
Fixpoint Start_loop (envs : list IterEnv) (d : Demuxer)
  : Demuxer * list effect * loop_status :=
  match envs with
  | [] => (d, [], Reading)
  | ie :: rest =>
      let '(d', evs, stop) := readFrame (ienv ie) d in
      if stop then (d', evs ++ [EvWait], Returned)
      else if cancelled ie
      then (d', evs ++ [EvHandlePause; EvWait], Returned)
      else
        let '(d'', evs', st) := Start_loop rest d' in
        (d'', evs ++ [EvHandlePause] ++ evs', st)
  end.

End Platform.

End DemuxerPlatform.

(** ** The frame pool and the frame dispatcher ([frame.go]) *)

Module FrameDispatcher.

(** The native data a frame references, by identity. *)
Definition Buf : Type := nat.

(** A [*avutil.Frame]: the identity of a frame object. *)
Definition FrameId : Type := nat.

(** A [Descriptor], as far as the dispatcher looks at it: it is passed on. *)
Definition Descriptor : Type := Native.Rational.

(** A handler node: its name ([Metadata().Name]) and its identity. *)
Record FrameHandler := { Name : string; node : nat }.

#[global] Instance FrameHandler_eq_dec : EqDecision FrameHandler.
Proof. solve_decision. Defined.

(** [framePool]: the free list [p]; [allocs] counts the frames allocated so
    far, each with its free callback registered on the closer, and is the
    identity of the next one. *)
Record framePool := { p : list FrameId; allocs : nat }.

Definition newFramePool : framePool := {| p := []; allocs := 0 |}.

Definition get (fp : framePool) : FrameId * framePool :=
  match p fp with
  | [] => (allocs fp, {| p := []; allocs := S (allocs fp) |})
  | f :: rest => (f, {| p := rest; allocs := allocs fp |})
  end.

(** [put] unreferences the frame in the native store and appends it to the
    free list. *)
Definition put (f : FrameId) (fp : framePool) (refs : gmap FrameId Buf)
  : framePool * gmap FrameId Buf :=
  ({| p := p fp ++ [f]; allocs := allocs fp |}, delete f refs).

(** A goroutine spawned by [dispatch]: not yet in [HandleFrame], in it, or
    past the deferred [put] with the deferred [wg.Done] still to come. *)
Inductive phase := Spawned | Handling | Released.

#[global] Instance phase_eq_dec : EqDecision phase.
Proof. solve_decision. Defined.

(** The goroutine's captured handler, frame and descriptor.  [t_b] is
    bookkeeping: the data of the dispatch that spawned it. *)
Record task := {
  t_h : FrameHandler;
  t_f : FrameId;
  t_desc : Descriptor;
  t_phase : phase;
  t_b : Buf
}.

(** Where the producer is in [dispatch]: outside of it, blocked in
    [d.wait()] with its snapshot of the handlers, or in the loop with the
    handlers still to serve.  A dispatcher has one producer, the loop of the
    node that owns it. *)
Inductive pc :=
| Idle
| Waiting (l : list FrameHandler) (b : Buf) (desc : Descriptor)
| Looping (l : list FrameHandler) (b : Buf) (desc : Descriptor).

Record frameDispatcher := {
  hs : gmap string FrameHandler;
  pool : framePool;
  refs : gmap FrameId Buf;        (* native: the data each frame references *)
  wg : Z;                         (* the counter of the WaitGroup *)
  tasks : list task;              (* goroutines that have not finished *)
  errors : list Z;                (* emitAvError *)
  prod : pc;
  (* the calls of HandleFrame so far: handler, frame, the data it references *)
  handled : list (FrameHandler * FrameId * option Buf);
  (* bookkeeping, not in the source *)
  calls : list Buf;               (* the data of the calls of dispatch *)
  spawned : list (FrameHandler * Buf); (* the goroutines spawned *)
  lost : list FrameId             (* frames got and handed to nobody *)
}.

Definition newFrameDispatcher : frameDispatcher :=
  {| hs := ∅; pool := newFramePool; refs := ∅; wg := 0; tasks := [];
     errors := []; prod := Idle; handled := []; calls := []; spawned := [];
     lost := [] |}.

Definition addHandler (h : FrameHandler) (d : frameDispatcher) : frameDispatcher :=
  {| hs := <[Name h := h]> (hs d); pool := pool d; refs := refs d; wg := wg d;
     tasks := tasks d; errors := errors d; prod := prod d;
     handled := handled d; calls := calls d; spawned := spawned d;
     lost := lost d |}.

Definition delHandler (h : FrameHandler) (d : frameDispatcher) : frameDispatcher :=
  {| hs := delete (Name h) (hs d); pool := pool d; refs := refs d; wg := wg d;
     tasks := tasks d; errors := errors d; prod := prod d;
     handled := handled d; calls := calls d; spawned := spawned d;
     lost := lost d |}.

(** The producer enters [dispatch]: the handlers are copied under the lock,
    in the order [order] in which the map happens to enumerate them; without
    handlers the call returns. *)
Definition dispatch_call (b : Buf) (desc : Descriptor) (order : list FrameHandler)
    (d : frameDispatcher) : option frameDispatcher :=
  match prod d with
  | Idle =>
      if decide (order ≡ₚ (map_to_list (hs d)).*2) then
        Some {| hs := hs d; pool := pool d; refs := refs d; wg := wg d;
                tasks := tasks d; errors := errors d;
                prod := match order with
                        | [] => Idle
                        | _ => Waiting order b desc
                        end;
                handled := handled d; calls := calls d ++ [b];
                spawned := spawned d; lost := lost d |}
      else None
  | _ => None
  end.

(** [d.wait()] returns, which it does when the counter is zero, and
    [d.wg.Add(len(hs))]. *)
Definition dispatch_wait (d : frameDispatcher) : option frameDispatcher :=
  match prod d with
  | Waiting l b desc =>
      if wg d =? 0 then
        Some {| hs := hs d; pool := pool d; refs := refs d;
                wg := Z.of_nat (length l); tasks := tasks d;
                errors := errors d; prod := Looping l b desc;
                handled := handled d; calls := calls d; spawned := spawned d;
                lost := lost d |}
      else None
  | _ => None
  end.

(** One turn of the loop over the handlers; [ret] is the return of
    [AvFrameRef]. *)
Definition dispatch_iter (ret : Z) (d : frameDispatcher) : option frameDispatcher :=
  match prod d with
  | Looping (h :: rest) b desc =>
      let '(hF, pool') := get (pool d) in
      if ret <? 0 then
        Some {| hs := hs d; pool := pool'; refs := refs d; wg := wg d - 1;
                tasks := tasks d; errors := errors d ++ [ret];
                prod := Looping rest b desc; handled := handled d;
                calls := calls d; spawned := spawned d; lost := hF :: lost d |}
      else
        Some {| hs := hs d; pool := pool'; refs := <[hF := b]> (refs d);
                wg := wg d;
                tasks := tasks d ++ [{| t_h := h; t_f := hF; t_desc := desc;
                                        t_phase := Spawned; t_b := b |}];
                errors := errors d; prod := Looping rest b desc;
                handled := handled d; calls := calls d;
                spawned := spawned d ++ [(h, b)]; lost := lost d |}
  | _ => None
  end.

(** The loop is over: [dispatch] returns. *)
Definition dispatch_return (d : frameDispatcher) : option frameDispatcher :=
  match prod d with
  | Looping [] _ _ =>
      Some {| hs := hs d; pool := pool d; refs := refs d; wg := wg d;
              tasks := tasks d; errors := errors d; prod := Idle;
              handled := handled d; calls := calls d; spawned := spawned d;
              lost := lost d |}
  | _ => None
  end.

Definition set_phase (t : task) (ph : phase) : task :=
  {| t_h := t_h t; t_f := t_f t; t_desc := t_desc t; t_phase := ph;
     t_b := t_b t |}.

(** The [i]-th goroutine calls [h.HandleFrame] with its frame. *)
Definition task_start (i : nat) (d : frameDispatcher) : option frameDispatcher :=
  match tasks d !! i with
  | Some t =>
      match t_phase t with
      | Spawned =>
          Some {| hs := hs d; pool := pool d; refs := refs d; wg := wg d;
                  tasks := <[i := set_phase t Handling]> (tasks d);
                  errors := errors d; prod := prod d;
                  handled := handled d ++ [(t_h t, t_f t, refs d !! t_f t)];
                  calls := calls d; spawned := spawned d; lost := lost d |}
      | _ => None
      end
  | None => None
  end.

(** [HandleFrame] returns and the deferred [d.p.put(hF)] runs. *)
Definition task_end (i : nat) (d : frameDispatcher) : option frameDispatcher :=
  match tasks d !! i with
  | Some t =>
      match t_phase t with
      | Handling =>
          let '(pool', refs') := put (t_f t) (pool d) (refs d) in
          Some {| hs := hs d; pool := pool'; refs := refs'; wg := wg d;
                  tasks := <[i := set_phase t Released]> (tasks d);
                  errors := errors d; prod := prod d; handled := handled d;
                  calls := calls d; spawned := spawned d; lost := lost d |}
      | _ => None
      end
  | None => None
  end.

(** The deferred [d.wg.Done()] runs and the goroutine is over. *)
Definition task_done (i : nat) (d : frameDispatcher) : option frameDispatcher :=
  match tasks d !! i with
  | Some t =>
      match t_phase t with
      | Released =>
          Some {| hs := hs d; pool := pool d; refs := refs d; wg := wg d - 1;
                  tasks := delete i (tasks d);
                  errors := errors d; prod := prod d; handled := handled d;
                  calls := calls d; spawned := spawned d; lost := lost d |}
      | _ => None
      end
  | None => None
  end.

(** What can happen next, the scheduler choosing. *)
Inductive action :=
| ACall (b : Buf) (desc : Descriptor) (order : list FrameHandler)
| AWait
| AIter (ret : Z)
| AReturn
| ATaskStart (i : nat)
| ATaskEnd (i : nat)
| ATaskDone (i : nat)
| AAdd (h : FrameHandler)
| ADel (h : FrameHandler).

(** [None]: the action cannot happen in this state. *)
Definition step (a : action) (d : frameDispatcher) : option frameDispatcher :=
  match a with
  | ACall b desc order => dispatch_call b desc order d
  | AWait => dispatch_wait d
  | AIter ret => dispatch_iter ret d
  | AReturn => dispatch_return d
  | ATaskStart i => task_start i d
  | ATaskEnd i => task_end i d
  | ATaskDone i => task_done i d
  | AAdd h => Some (addHandler h d)
  | ADel h => Some (delHandler h d)
  end.

Fixpoint run (tr : list action) (d : frameDispatcher) : option frameDispatcher :=
  match tr with
  | [] => Some d
  | a :: rest =>
      match step a d with
      | Some d' => run rest d'
      | None => None
      end
  end.

Definition reachable (d : frameDispatcher) : Prop :=
  ∃ tr, run tr newFrameDispatcher = Some d.

(** The loop over the [n] handlers still to serve, with the returns [rets]
    of [AvFrameRef] (0 when they run out). *)
Fixpoint dispatch_loop (n : nat) (rets : list Z) (d : frameDispatcher)
  : option frameDispatcher :=
  match n with
  | O => Some d
  | S n' =>
      match dispatch_iter (hd 0 rets) d with
      | Some d' => dispatch_loop n' (tl rets) d'
      | None => None
      end
  end.

(** [dispatch] as the producer runs it when nothing else is scheduled in
    between: the call, the wait, one turn per handler, the return.  [None]:
    the producer is blocked in the wait. *)
Definition dispatch (b : Buf) (desc : Descriptor) (order : list FrameHandler)
    (rets : list Z) (d : frameDispatcher) : option frameDispatcher :=
  match dispatch_call b desc order d with
  | Some d1 =>
      match order with
      | [] => Some d1
      | _ =>
          match dispatch_wait d1 with
          | Some d2 =>
              match dispatch_loop (length order) rets d2 with
              | Some d3 => dispatch_return d3
              | None => None
              end
          | None => None
          end
      end
  | None => None
  end.

(** The handlers of a snapshot whose copy succeeds, and the returns of the
    copies that fail. *)
Fixpoint served (l : list FrameHandler) (rets : list Z) : list FrameHandler :=
  match l with
  | [] => []
  | h :: l' => (if hd 0 rets <? 0 then [] else [h]) ++ served l' (tl rets)
  end.

Fixpoint failed (l : list FrameHandler) (rets : list Z) : list Z :=
  match l with
  | [] => []
  | h :: l' => (if hd 0 rets <? 0 then [hd 0 rets] else []) ++ failed l' (tl rets)
  end.

(** The part of the state the invariants talk about. *)
Definition remaining (c : pc) : list FrameHandler :=
  match c with Looping l _ _ => l | _ => [] end.

Definition snapshot (c : pc) : list FrameHandler :=
  match c with Looping l _ _ | Waiting l _ _ => l | Idle => [] end.

(** The frames the goroutines hold. *)
Definition held (ts : list task) : list FrameId :=
  map t_f (filter (λ t, t_phase t ≠ Released) ts).

(** The data [h] has been handed, in the order of the calls of
    [HandleFrame]. *)
Definition received (h : FrameHandler)
    (l : list (FrameHandler * FrameId * option Buf)) : list Buf :=
  omap (λ e, if decide (e.1.1 = h) then e.2 else None) l.

(** The data of the goroutines spawned for [h] that have not called it yet. *)
Definition pend (h : FrameHandler) (ts : list task) : list Buf :=
  map t_b (filter (λ t, t_h t = h ∧ t_phase t = Spawned) ts).

(** The calls of [dispatch] whose fan-out has got to [h]: all of them but,
    while [h] is still to be served in the current one, the last. *)
Definition visible (h : FrameHandler) (d : frameDispatcher) : list Buf :=
  if decide (h ∈ snapshot (prod d)) then removelast (calls d) else calls d.

(** What [h] has been handed or is about to be. *)
Definition seen (h : FrameHandler) (d : frameDispatcher) : list Buf :=
  received h (handled d) ++ pend h (tasks d).

(** What the action [a], taken in the state [d], has to be for [h] not to
    miss a frame: a call has [h] in its snapshot, and the copy made for [h],
    the handler the loop is at, does not fail.  The copies made for the other
    handlers may fail. *)
Definition served_at (h : FrameHandler) (a : action) (d : frameDispatcher)
  : Prop :=
  match a with
  | ACall _ _ order => h ∈ order
  | AIter ret => head (remaining (prod d)) = Some h → 0 ≤ ret
  | _ => True
  end.

(** [h] is in the snapshot of every call of the schedule [tr], run from [d],
    and no copy for [h] fails. *)
Fixpoint always_served (h : FrameHandler) (tr : list action)
    (d : frameDispatcher) : Prop :=
  match tr with
  | [] => True
  | a :: rest =>
      served_at h a d
      ∧ match step a d with
        | Some d' => always_served h rest d'
        | None => True
        end
  end.

(** The returns of the copies ([AvFrameRef]) made in a schedule, in order. *)
Definition copies (tr : list action) : list Z :=
  omap (λ a, match a with AIter ret => Some ret | _ => None end) tr.

(** The producer entering [dispatch]. *)
Definition is_call (a : action) : bool :=
  match a with ACall _ _ _ => true | _ => false end.

(** Nothing is going on: the producer is outside [dispatch] and no goroutine
    is left. *)
Definition quiet (d : frameDispatcher) : Prop := prod d = Idle ∧ tasks d = [].

Definition handled_hb (l : list (FrameHandler * FrameId * option Buf))
  : list (FrameHandler * Buf) :=
  omap (λ e, (λ b, (e.1.1, b)) <$> e.2) l.

Definition pend_hb (ts : list task) : list (FrameHandler * Buf) :=
  map (λ t, (t_h t, t_b t)) (filter (λ t, t_phase t = Spawned) ts).

(** The goroutines that have not finished: their handler and the data of the
    call that spawned them. *)
Definition alive_hb (ts : list task) : list (FrameHandler * Buf) :=
  (λ t, (t_h t, t_b t)) <$> ts.

(** The invariant of the dispatcher: what holds of every state it can get to. *)

Definition cur (c : pc) : option Buf :=
  match c with Idle => None | Waiting _ b _ | Looping _ b _ => Some b end.

Record Inv (d : frameDispatcher) : Prop := {
  inv_wg : wg d = Z.of_nat (length (tasks d) + length (remaining (prod d)));
  inv_frames :
    p (pool d) ++ held (tasks d) ++ lost d ≡ₚ seq 0 (allocs (pool d));
  inv_refs :
    ∀ t, t ∈ tasks d → t_phase t ≠ Released → refs d !! t_f t = Some (t_b t);
  inv_nodup : NoDup (map t_h (tasks d) ++ remaining (prod d));
  inv_snap : NoDup (snapshot (prod d));
  inv_hs : ∀ k h, hs d !! k = Some h → Name h = k;
  inv_spawn : handled_hb (handled d) ++ pend_hb (tasks d) ≡ₚ spawned d;
  inv_order :
    ∀ h, received h (handled d) ++ pend h (tasks d) `sublist_of` visible h d;
  inv_calls : ∀ b, cur (prod d) = Some b → last (calls d) = Some b;
  inv_cur :
    ∀ l b desc, prod d = Looping l b desc → ∀ t, t ∈ tasks d → t_b t = b
}.

End FrameDispatcher.

(** ** The forwarder *)

Module Forwarder.
Import FrameDispatcher.

(** The forwarder, as far as [HandleFrame] and the consumer of its chan touch
    it: its pool, the native store, the functions added to the chan (each
    with the frame and the descriptor it captured) and the errors emitted. *)
Record Forwarder := {
  fp : framePool;
  frefs : gmap FrameId Buf;
  fc : list (FrameId * Descriptor);
  ferrors : list Z;
  dispatched : list (option Buf * Descriptor)  (* f.d.dispatch(fm, descriptor) *)
}.

Definition NewForwarder : Forwarder :=
  {| fp := newFramePool; frefs := ∅; fc := []; ferrors := []; dispatched := [] |}.

(** [HandleFrame] on a payload whose frame references [b]; [ret] is the return
    of [AvFrameRef].  The statistics calls are left out.  The chan is the
    library's and not in the repository: [f.c.Add] is taken as it is while
    the context of the chan is not cancelled, when the function is queued. *)
Definition HandleFrame (ret : Z) (b : Buf) (desc : Descriptor) (f : Forwarder)
  : Forwarder :=
  let '(fm, pool') := get (fp f) in
  if ret <? 0 then
    {| fp := pool'; frefs := frefs f; fc := fc f; ferrors := ferrors f ++ [ret];
       dispatched := dispatched f |}
  else
    {| fp := pool'; frefs := <[fm := b]> (frefs f); fc := fc f ++ [(fm, desc)];
       ferrors := ferrors f; dispatched := dispatched f |}.

(** The consumer of the chan runs the oldest function added: the frame is
    dispatched, then put back by the deferred [f.p.put(fm)].  The restamper is
    left out. *)
Definition consume_one (f : Forwarder) : Forwarder :=
  match fc f with
  | [] => f
  | (fm, desc) :: rest =>
      let '(pool', refs') := put fm (fp f) (frefs f) in
      {| fp := pool'; frefs := refs'; fc := rest; ferrors := ferrors f;
         dispatched := dispatched f ++ [(frefs f !! fm, desc)] |}
  end.

End Forwarder.

(** Concrete dispatchers and schedules used to run the model. *)

Module DispatcherExamples.
Import FrameDispatcher.

Definition h1 : FrameHandler := {| Name := "h1"; node := 1 |}.
Definition h2 : FrameHandler := {| Name := "h2"; node := 2 |}.

Definition desc : Descriptor := Native.NewRational 1 25.

(** A dispatcher with the single handler [h1]. *)
Definition d1 : frameDispatcher := addHandler h1 newFrameDispatcher.

(** A dispatcher with the handlers [h1] and [h2]. *)
Definition d2 : frameDispatcher := addHandler h2 d1.

(** [h1] is connected; the copy of the first frame fails, the copy of the
    second succeeds and its goroutine runs to the end. *)
Definition lossy_trace : list action :=
  [AAdd h1;
   ACall 1%nat desc [h1]; AWait; AIter Native.AVERROR_ENOMEM; AReturn;
   ACall 2%nat desc [h1]; AWait; AIter 0; AReturn;
   ATaskStart 0%nat; ATaskEnd 0%nat; ATaskDone 0%nat].

(** [h1] and [h2] are connected; in the first call the copy for [h2] fails
    and the copy for [h1] succeeds. *)
Definition partial_trace : list action :=
  [AAdd h1; AAdd h2;
   ACall 1%nat desc [h1; h2]; AWait; AIter 0; AIter Native.AVERROR_ENOMEM;
   AReturn;
   ATaskStart 0%nat; ATaskEnd 0%nat; ATaskDone 0%nat;
   ACall 2%nat desc [h1; h2]; AWait; AIter 0; AIter 0; AReturn;
   ATaskStart 0%nat].

(** One call with [h1] and [h2] connected; the goroutine of [h1] runs to its
    end before the loop gets to [h2]. *)
Definition eager_call : list action :=
  [AWait; AIter 0; ATaskStart 0%nat; ATaskEnd 0%nat; ATaskDone 0%nat; AIter 0].

(** [h1] is connected and every copy succeeds. *)
Definition clean_trace : list action :=
  [AAdd h1;
   ACall 1%nat desc [h1]; AWait; AIter 0; AReturn;
   ATaskStart 0%nat; ATaskEnd 0%nat; ATaskDone 0%nat;
   ACall 2%nat desc [h1]; AWait; AIter 0; AReturn;
   ATaskStart 0%nat].

End DispatcherExamples.

(** ** The muxer *)

Module Muxer.
Import Native.

(** The [Descriptor] interface, as far as the muxer calls it: [TimeBase()]. *)
Record descriptor := { TimeBase : Rational }.

Record PktHandlerPayload := {
  Descriptor : descriptor;
  Pkt : Packet;
  Node : string
}.

(** The streams of the output format context.  A [*avformat.Stream] is a
    reference into them; the native library may rewrite a stream's time base
    when it writes the header. *)
Definition StreamStore : Type := nat → Stream.

(** [func() *PktHandlerPayload]: a closure that reads the target stream
    through its pointer when it is called. *)
Definition pktHandlerPayloadRetriever : Type := StreamStore → PktHandlerPayload.

(** The callbacks the muxer registers on its closer. *)
Inductive hook := HookFreeContext | HookCloseAvIO | HookWriteTrailer.

Record Muxer := {
  c : list hook;                    (* callbacks, in registration order *)
  o : bool;                         (* whether the [sync.Once] has fired *)
  q : list pktHandlerPayloadRetriever; (* items sent and not yet dequeued *)
  restamper : option PktRestamper;
  streams : StreamStore
}.

Record MuxerPktHandler := { h_o : nat }.

Definition NewPktHandler (st : nat) : MuxerPktHandler := {| h_o := st |}.

(** The closure rescales the packet of the payload in place and returns the
    payload; here it returns the payload it leaves behind.  This is the
    closure run once, which is what the queue does with an item. *)
Definition MuxerPktHandler_pktHandlerPayloadRetriever
    (h : MuxerPktHandler) (p : PktHandlerPayload) : pktHandlerPayloadRetriever :=
  λ σ,
    let st := σ (h_o h) in
    {| Descriptor := Descriptor p;
       Pkt := SetStreamIndex
                (AvPacketRescaleTs (Pkt p) (TimeBase (Descriptor p))
                                   (StreamTimeBase st))
                (Index st);
       Node := Node p |}.

Definition set_q (m : Muxer) (items : list pktHandlerPayloadRetriever) : Muxer :=
  {| c := c m; o := o m; q := items; restamper := restamper m;
     streams := streams m |}.

(** [h.q.Send(h.pktHandlerPayloadRetriever(p))] *)
Definition HandlePkt (h : MuxerPktHandler) (p : PktHandlerPayload) (m : Muxer)
  : Muxer :=
  set_q m (q m ++ [MuxerPktHandler_pktHandlerPayloadRetriever h p]).

Inductive effect :=
| MxWriteHeader              (* ctxFormat.AvformatWriteHeader *)
| MxError (ret : Z)          (* emitAvError *)
| MxWrite (pkt : Packet)     (* ctxFormat.AvInterleavedWriteFrame *)
| MxHandlePause              (* m.HandlePause(), deferred *)
| MxQueueStop                (* m.q.Stop(), deferred *)
| MxWriteTrailer             (* ctxFormat.AvWriteTrailer *)
| MxFreeContext
| MxCloseAvIO.

(** The callback given to [m.q.Start], run on one dequeued item; [wret] is
    the return of the native interleaved write.  The statistics calls are left
    out. *)
Definition handle (m : Muxer) (dp : pktHandlerPayloadRetriever) (wret : Z)
  : Muxer * list effect :=
  let p := dp (streams m) in
  let '(rs, pkt) :=
    match restamper m with
    | Some r => let '(r', pk) := do_restamp r (Pkt p) in (Some r', pk)
    | None => (None, Pkt p)
    end in
  ({| c := c m; o := o m; q := q m; restamper := rs; streams := streams m |},
   [MxWrite pkt] ++ (if wret <? 0 then [MxError wret] else [])
   ++ [MxHandlePause]).

(** Modelled from the spec: the consumer of the ingress queue (section 4.3),
    whose source is not in the repository: every item is handed to the
    callback, in the order it was sent.  [wrets] are the returns of the
    native write, one per item (0 when they run out). *)
Fixpoint consume (m : Muxer) (items : list pktHandlerPayloadRetriever)
    (wrets : list Z) : Muxer * list effect :=
  match items with
  | [] => (m, [])
  | dp :: rest =>
      let '(m1, evs1) := handle m dp (hd 0 wrets) in
      let '(m2, evs2) := consume m1 rest (tl wrets) in
      (m2, evs1 ++ evs2)
  end.

(** What the environment answers during one run of the body of [Start]. *)
Record RunEnv := {
  header_ret : Z;                       (* return of AvformatWriteHeader *)
  after_header : StreamStore → StreamStore; (* the streams as it leaves them *)
  sent : list pktHandlerPayloadRetriever;   (* items sent during the run *)
  write_rets : list Z                   (* returns of AvInterleavedWriteFrame *)
}.

(** The function [Start] hands to [BaseNode.Start]: one run of the node. *)
Definition Start_body (e : RunEnv) (m : Muxer) : Muxer * list effect :=
  let '(ret, m1, evs1) :=
    if o m then (0, m, [])
    else (header_ret e,
          {| c := c m; o := true; q := q m; restamper := restamper m;
             streams := after_header e (streams m) |},
          [MxWriteHeader]) in
  if ret <? 0 then (m1, evs1 ++ [MxError ret])
  else
    let m2 := {| c := c m1 ++ [HookWriteTrailer]; o := o m1; q := q m1;
                 restamper := restamper m1; streams := streams m1 |} in
    let '(m3, evs3) := consume (set_q m2 []) (q m2 ++ sent e) (write_rets e) in
    (m3, evs1 ++ evs3 ++ [MxQueueStop]).

(** Modelled from the spec: [BaseNode.Start] (section 4.4), whose source is
    not in the repository, runs the body it is given; a muxer started and
    stopped several times runs the body once per start. *)
Fixpoint Start_runs (envs : list RunEnv) (m : Muxer) : Muxer * list effect :=
  match envs with
  | [] => (m, [])
  | e :: rest =>
      let '(m1, evs1) := Start_body e m in
      let '(m2, evs2) := Start_runs rest m1 in
      (m2, evs1 ++ evs2)
  end.

Definition run_hook (h : hook) : effect :=
  match h with
  | HookFreeContext => MxFreeContext
  | HookCloseAvIO => MxCloseAvIO
  | HookWriteTrailer => MxWriteTrailer
  end.

(** Modelled from the spec: the closer (section 5, "runs callbacks in reverse
    registration order on workflow teardown"), whose source is not in the
    repository. *)
Definition Close (m : Muxer) : list effect := map run_hook (rev (c m)).

(** A muxer as [NewMuxer] leaves it when it succeeds on a file output. *)
Definition NewMuxer (r : option PktRestamper) (σ : StreamStore) : Muxer :=
  {| c := [HookFreeContext; HookCloseAvIO]; o := false; q := [];
     restamper := r; streams := σ |}.

(** The whole life of a muxer: the runs, then teardown. *)
Definition lifecycle (envs : list RunEnv) (m : Muxer) : list effect :=
  let '(m', evs) := Start_runs envs m in evs ++ Close m'.

Definition is_header (e : effect) : bool :=
  match e with MxWriteHeader => true | _ => false end.
Definition is_trailer (e : effect) : bool :=
  match e with MxWriteTrailer => true | _ => false end.
Definition is_error (e : effect) : bool :=
  match e with MxError _ => true | _ => false end.
Definition is_write (e : effect) : bool :=
  match e with MxWrite _ => true | _ => false end.
Definition is_trailer_hook (h : hook) : bool :=
  match h with HookWriteTrailer => true | _ => false end.

Definition headers (evs : list effect) : nat := length (filter is_header evs).
Definition trailers (evs : list effect) : nat := length (filter is_trailer evs).

Definition error_rets (evs : list effect) : list Z :=
  omap (λ e, match e with MxError r => Some r | _ => None end) evs.
Definition written (evs : list effect) : list Packet :=
  omap (λ e, match e with MxWrite p => Some p | _ => None end) evs.
Definition written_events (evs : list effect) : list effect :=
  filter (λ e, is_write e = true) evs.

End Muxer.

(** Concrete muxers and environments used to run the model. *)

Module MuxerExamples.
Import Native Muxer.

(** Before the header is written the output stream has the time base 1/1000;
    writing the header sets it to 1/90000. *)
Definition streams0 : StreamStore :=
  λ _, {| Index := 3; StreamTimeBase := NewRational 1 1000 |}.
Definition streams90k : StreamStore :=
  λ _, {| Index := 3; StreamTimeBase := NewRational 1 90000 |}.

Definition env (hret : Z) (items : list pktHandlerPayloadRetriever)
    (wrets : list Z) : RunEnv :=
  {| header_ret := hret; after_header := λ _, streams90k; sent := items;
     write_rets := wrets |}.

Definition pkt (ts : Z) : Packet :=
  {| Pts := ts; Dts := ts; Duration := 0; StreamIndex := 0; SkipSamples := None |}.

Definition payload (ts : Z) : PktHandlerPayload :=
  {| Descriptor := {| TimeBase := NewRational 1 1000 |}; Pkt := pkt ts;
     Node := "encoder" |}.

Definition handler : MuxerPktHandler := NewPktHandler 0.

(** Two payloads handed to the handler before the muxer runs. *)
Definition muxer2 : Muxer :=
  HandlePkt handler (payload 2000)
    (HandlePkt handler (payload 1000) (NewMuxer None streams0)).

End MuxerExamples.

(** Concrete demuxers and environments used to run the model. *)

Module DemuxerExamples.
Import Native Demuxer.

Definition audio48k : Context :=
  {| CodecType := AVMEDIA_TYPE_AUDIO; SampleRate := 48000;
     TimeBase := NewRational 1 48000 |}.

Definition stream0 : Stream :=
  {| Index := 0; StreamTimeBase := NewRational 1 48000 |}.

Definition dstream0 : demuxerStream :=
  {| ctx := audio48k; emulateRateNextAt := 0; ds_s := stream0 |}.

(** Skip-samples side data with start = 512 and end = 0: ten bytes, the two
    counts first, little-endian. *)
Definition skip512 : list Z := [0; 2; 0; 0; 0; 0; 0; 0; 0; 0].

Definition pkt1024 (sd : option (list Z)) : Packet :=
  {| Pts := 0; Dts := 0; Duration := 1024; StreamIndex := 0; SkipSamples := sd |}.

Definition demuxer (lp : bool) (fp : option demuxerPkt) (er : bool) : Demuxer :=
  {| emulateRate := er; loop := lp; loopFirstPkt := fp; restamper := None;
     ss := {[ 0 := dstream0 ]} |}.

Definition firstPkt : demuxerPkt := {| dts := 7; duration := 1024; s := stream0 |}.

Definition env (ret sk : Z) (sd : option (list Z)) (t : Z) : ReadEnv :=
  {| read_ret := ret; read_pkt := pkt1024 sd; seek_ret := sk; now := t |}.

Definition eof_turn (c : bool) : IterEnv :=
  {| ienv := env AVERROR_EOF 0 None 0; cancelled := c |}.





End DemuxerExamples.

(** ** Pools built by a history of calls *)

Module WorkflowPoolRuns.
Import WorkflowPool.

(** The pool after [AddWorkflow] has been called on each workflow of [l], in
    order, starting from [NewWorkflowPool]. *)
Definition built (l : list Workflow) : WorkflowPool :=
  foldl AddWorkflow NewWorkflowPool l.

(** Every workflow is stored under its own name. *)
Definition keyed (wp : WorkflowPool) : Prop :=
  ∀ k w, ws wp !! k = Some w → name w = k.

End WorkflowPoolRuns.

(** ** Schedules of the dispatcher *)

Module FrameDispatcherRuns.
Import FrameDispatcher.

(** The steps of a dispatch under way and of its goroutines: no new call of
    [dispatch], no handler connected or disconnected. *)
Definition internal (a : action) : Prop :=
  match a with
  | ACall _ _ _ | AAdd _ | ADel _ => False
  | _ => True
  end.

(** The steps that finish the goroutine at the head of the list. *)
Definition finish (ph : phase) : list action :=
  match ph with
  | Spawned => [ATaskStart 0%nat; ATaskEnd 0%nat; ATaskDone 0%nat]
  | Handling => [ATaskEnd 0%nat; ATaskDone 0%nat]
  | Released => [ATaskDone 0%nat]
  end.

End FrameDispatcherRuns.

(** ** Reading the effects of the demuxer *)

Module DemuxerRuns.
Import Native Demuxer.

Definition is_get (ev : effect) : bool :=
  match ev with EvGet => true | _ => false end.
Definition is_put (ev : effect) : bool :=
  match ev with EvPut => true | _ => false end.
Definition is_dispatch (ev : effect) : bool :=
  match ev with EvDispatch _ _ => true | _ => false end.

Definition gets (evs : list effect) : nat := length (filter is_get evs).
Definition puts (evs : list effect) : nat := length (filter is_put evs).
Definition dispatches (evs : list effect) : nat :=
  length (filter is_dispatch evs).

(** The packet [readFrame] goes on with once the restamper, if any, has
    rewritten the packet read. *)
Definition restamped (e : ReadEnv) (d : Demuxer) : Packet :=
  match restamper d with
  | Some r => (do_restamp r (read_pkt e)).2
  | None => read_pkt e
  end.

(** A platform whose conversion yields the smallest int64 for every value
    out of range. *)
Definition smallest : spec_float → Z := λ _, INT64_MIN.

(** An audio stream whose codec context has no sample rate, and a packet of
    it with skip-samples side data: the quotient is an infinity. *)
Definition audio_norate : Context :=
  {| CodecType := AVMEDIA_TYPE_AUDIO; SampleRate := 0;
     TimeBase := NewRational 1 48000 |}.

Definition demuxer_norate (fp : option demuxerPkt) : Demuxer :=
  {| emulateRate := true; loop := true; loopFirstPkt := fp;
     restamper := None;
     ss := {[ 0 := {| ctx := audio_norate; emulateRateNextAt := 0;
                      ds_s := DemuxerExamples.stream0 |} ]} |}.

Definition env_norate : ReadEnv :=
  DemuxerExamples.env 0 0 (Some DemuxerExamples.skip512) 5.

(** Turns of the read loop on that stream: a packet, the end of the input, a
    packet with the context cancelled. *)
Definition norate_turns : list IterEnv :=
  [{| ienv := env_norate; cancelled := false |};
   DemuxerExamples.eof_turn false;
   {| ienv := env_norate; cancelled := true |}].

End DemuxerRuns.

(** * Theorems *)

Module WorkflowPoolFacts.
Import WorkflowPool.

Lemma Workflow_add_same wp w :
  Workflow_ (AddWorkflow wp w) (name w) = (Some w, None).
Proof. unfold Workflow_, AddWorkflow; simpl. by rewrite lookup_insert_eq. Qed.

Lemma Workflow_add_other wp w n :
  n ≠ name w → Workflow_ (AddWorkflow wp w) n = Workflow_ wp n.
Proof.
  intros Hn. unfold Workflow_, AddWorkflow; simpl.
  by rewrite lookup_insert_ne.
Qed.

Lemma AddWorkflow_twice wp w w' :
  name w' = name w →
  AddWorkflow (AddWorkflow wp w) w' = AddWorkflow wp w'.
Proof.
  intros Hn. unfold AddWorkflow; simpl. f_equal.
  rewrite Hn. apply insert_insert_eq.
Qed.

(** C9. [AddWorkflow] stores the workflow under its name and the last
    write wins on a duplicate name; [Workflow] returns the stored workflow
    for a registered name and the not-found error otherwise; after adding a
    workflow named "a" to a new pool, looking up "a" returns it and looking up
    "b" returns the not-found error. *)
Theorem C9_workflow_pool_lookup :
  (∀ wp w, Workflow_ (AddWorkflow wp w) (name w) = (Some w, None))
  ∧ (∀ wp w w', name w' = name w →
       Workflow_ (AddWorkflow (AddWorkflow wp w) w') (name w) = (Some w', None)
       ∧ AddWorkflow (AddWorkflow wp w) w' = AddWorkflow wp w')
  ∧ (∀ wp w n, n ≠ name w →
       Workflow_ (AddWorkflow wp w) n = Workflow_ wp n)
  ∧ (∀ wp n w, ws wp !! n = Some w → Workflow_ wp n = (Some w, None))
  ∧ (∀ wp n, ws wp !! n = None →
       Workflow_ wp n = (None, Some ErrWorkflowNotFound))
  ∧ (∀ i, let w := {| name := "a"; wf_id := i |} in
       Workflow_ (AddWorkflow NewWorkflowPool w) "a" = (Some w, None)
       ∧ Workflow_ (AddWorkflow NewWorkflowPool w) "b"
         = (None, Some ErrWorkflowNotFound)).
Proof.
  repeat split.
  - apply Workflow_add_same.
  - rewrite AddWorkflow_twice by done. rewrite <- H. apply Workflow_add_same.
  - by apply AddWorkflow_twice.
  - intros. by apply Workflow_add_other.
  - intros wp n w Hw. unfold Workflow_. by rewrite Hw.
  - intros wp n Hn. unfold Workflow_. by rewrite Hn.
Qed.

Lemma C9_workflow_pool_lookup_witness :
  let w := {| name := "a"; wf_id := 0 |} in
  let w' := {| name := "a"; wf_id := 1 |} in
  Workflow_ (AddWorkflow (AddWorkflow NewWorkflowPool w) w') "a"
  = (Some w', None)
  ∧ Workflow_ (AddWorkflow NewWorkflowPool w) "b"
    = Workflow_ NewWorkflowPool "b".
Proof.
  intros w w'. split.
  - apply (proj1 (proj2 C9_workflow_pool_lookup) NewWorkflowPool w w').
    reflexivity.
  - apply (proj1 (proj2 (proj2 C9_workflow_pool_lookup)) NewWorkflowPool w "b").
    discriminate.
Defined.

End WorkflowPoolFacts.

Module DemuxerFacts.
Import Native Demuxer.

(** C5. When the native read ends the input: with loop disabled [readFrame]
    stops and emits no error; with loop enabled and a first-packet record it
    seeks to the record's stream index and dts with the backward flag and
    goes on, stopping (with the error emitted) only when the seek fails; any
    other negative return of the read is emitted as an error and stops. *)
Theorem C5_readFrame_end_of_input (e : ReadEnv) (d : Demuxer) :
  read_ret e < 0 →
  (read_ret e = AVERROR_EOF → loop d = false →
     readFrame e d = Some (d, [EvGet; EvPut], true))
  ∧ (∀ fp, read_ret e = AVERROR_EOF → loop d = true →
       loopFirstPkt d = Some fp →
       readFrame e d
       = Some (d,
               [EvGet; EvSeek (Index (s fp)) (dts fp) AVSEEK_FLAG_BACKWARD]
               ++ (if seek_ret e <? 0 then [EvError (seek_ret e)] else [])
               ++ [EvPut],
               seek_ret e <? 0))
  ∧ (read_ret e ≠ AVERROR_EOF →
     readFrame e d = Some (d, [EvGet; EvError (read_ret e); EvPut], true)).
Proof.
  intros Hneg. unfold readFrame.
  apply Z.ltb_lt in Hneg. rewrite Hneg.
  split; [|split].
  - intros Heof Hloop. rewrite Heof, Hloop. reflexivity.
  - intros fp Heof Hloop Hfp. rewrite Heof, Hloop, Hfp. simpl.
    destruct (seek_ret e <? 0); reflexivity.
  - intros Hne. apply Z.eqb_neq in Hne. rewrite Hne. reflexivity.
Qed.

Lemma C5_readFrame_end_of_input_witness :
  readFrame (DemuxerExamples.env AVERROR_EOF 0 None 0)
            (DemuxerExamples.demuxer false None false)
  = Some (DemuxerExamples.demuxer false None false, [EvGet; EvPut], true)
  ∧ readFrame (DemuxerExamples.env AVERROR_EOF (-1) None 0)
              (DemuxerExamples.demuxer true (Some DemuxerExamples.firstPkt) false)
    = Some (DemuxerExamples.demuxer true (Some DemuxerExamples.firstPkt) false,
            [EvGet; EvSeek 0 7 AVSEEK_FLAG_BACKWARD; EvError (-1); EvPut], true)
  ∧ readFrame (DemuxerExamples.env (-5) 0 None 0)
              (DemuxerExamples.demuxer true None false)
    = Some (DemuxerExamples.demuxer true None false,
            [EvGet; EvError (-5); EvPut], true).
Proof.
  split; [|split].
  - apply (C5_readFrame_end_of_input
             (DemuxerExamples.env AVERROR_EOF 0 None 0)
             (DemuxerExamples.demuxer false None false));
      [reflexivity | reflexivity | reflexivity].
  - apply (proj1 (proj2 (C5_readFrame_end_of_input
             (DemuxerExamples.env AVERROR_EOF (-1) None 0)
             (DemuxerExamples.demuxer true (Some DemuxerExamples.firstPkt) false)
             ltac:(reflexivity)))
             DemuxerExamples.firstPkt);
      reflexivity.
  - apply (C5_readFrame_end_of_input
             (DemuxerExamples.env (-5) 0 None 0)
             (DemuxerExamples.demuxer true None false));
      [reflexivity | discriminate].
Defined.

(** The spinning read loop: with loop enabled, no first-packet record and
    the read ending the input, a turn changes nothing. *)
Lemma readFrame_eof_no_first (e : ReadEnv) (d : Demuxer) :
  loop d = true → loopFirstPkt d = None → read_ret e = AVERROR_EOF →
  readFrame e d = Some (d, [EvGet; EvPut], false).
Proof.
  intros Hl Hf He. unfold readFrame. rewrite He, Hl, Hf. reflexivity.
Qed.

Lemma Start_loop_spins (d : Demuxer) (envs tl : list IterEnv) :
  loop d = true → loopFirstPkt d = None → eof_turns envs →
  Start_loop (envs ++ tl) d
  = match Start_loop tl d with
    | Some (d', evs, st) => Some (d', spin envs ++ evs, st)
    | None => None
    end.
Proof.
  intros Hl Hf Hall. induction Hall as [|ie envs [He Hc] _ IH].
  - simpl. destruct (Start_loop tl d) as [[[? ?] ?]|]; reflexivity.
  - simpl. rewrite (readFrame_eof_no_first _ _ Hl Hf He), Hc, IH.
    destruct (Start_loop tl d) as [[[? ?] ?]|]; reflexivity.
Qed.

(** C10. With loop enabled, no first-packet record and the native read
    ending the input, [readFrame] neither seeks nor emits an error nor
    dispatches, leaves the demuxer as it was and returns stop = false; the
    read loop of [Start] then reads again at once, for as many turns as the
    read keeps ending the input and the context is not cancelled, and
    returns at the first turn that finds the context cancelled. *)
Theorem C10_eof_without_first_packet_spins (d : Demuxer) :
  loop d = true → loopFirstPkt d = None →
  (∀ e, read_ret e = AVERROR_EOF →
     readFrame e d = Some (d, [EvGet; EvPut], false))
  ∧ (∀ envs, eof_turns envs →
       Start_loop envs d = Some (d, spin envs, Reading))
  ∧ (∀ envs ie, eof_turns envs →
       read_ret (ienv ie) = AVERROR_EOF → cancelled ie = true →
       Start_loop (envs ++ [ie]) d
       = Some (d, spin envs ++ [EvGet; EvPut; EvHandlePause; EvWait], Returned)).
Proof.
  intros Hl Hf. split; [|split].
  - intros e He. by apply readFrame_eof_no_first.
  - intros envs Hall.
    rewrite <- (app_nil_r envs) at 1.
    rewrite (Start_loop_spins d envs [] Hl Hf Hall). simpl.
    by rewrite app_nil_r.
  - intros envs ie Hall He Hc.
    rewrite (Start_loop_spins d envs [ie] Hl Hf Hall). simpl.
    by rewrite (readFrame_eof_no_first _ _ Hl Hf He), Hc.
Qed.

Lemma C10_eof_without_first_packet_spins_witness :
  let d := DemuxerExamples.demuxer true None false in
  let t := DemuxerExamples.eof_turn in
  readFrame (ienv (t false)) d = Some (d, [EvGet; EvPut], false)
  ∧ Start_loop [t false; t false; t false] d
    = Some (d, spin [t false; t false; t false], Reading)
  ∧ Start_loop ([t false; t false] ++ [t true]) d
    = Some (d, spin [t false; t false] ++ [EvGet; EvPut; EvHandlePause; EvWait],
            Returned).
Proof.
  intros d t.
  pose proof (C10_eof_without_first_packet_spins d eq_refl eq_refl)
    as (H1 & H2 & H3).
  split; [|split].
  - apply H1. reflexivity.
  - apply H2. repeat constructor.
  - apply H3; [repeat constructor | reflexivity | reflexivity].
Defined.




End DemuxerFacts.

Module MuxerFacts.
Import Native Muxer.

Lemma headers_app (a b : list effect) :
  headers (a ++ b) = (headers a + headers b)%nat.
Proof. unfold headers. by rewrite filter_app, length_app. Qed.

Lemma trailers_app (a b : list effect) :
  trailers (a ++ b) = (trailers a + trailers b)%nat.
Proof. unfold trailers. by rewrite filter_app, length_app. Qed.

Lemma handle_keeps (m : Muxer) dp (w : Z) :
  c (handle m dp w).1 = c m ∧ o (handle m dp w).1 = o m
  ∧ headers (handle m dp w).2 = 0%nat ∧ trailers (handle m dp w).2 = 0%nat.
Proof.
  unfold handle.
  destruct (restamper m) as [r|]; [destruct (do_restamp r _)|];
    simpl; destruct (w <? 0); done.
Qed.

Lemma consume_keeps (items : list pktHandlerPayloadRetriever) :
  ∀ (m : Muxer) (wrets : list Z),
    c (consume m items wrets).1 = c m ∧ o (consume m items wrets).1 = o m
    ∧ headers (consume m items wrets).2 = 0%nat
    ∧ trailers (consume m items wrets).2 = 0%nat.
Proof.
  induction items as [|dp rest IH]; intros m wrets; simpl; [done|].
  pose proof (handle_keeps m dp (hd 0 wrets)) as (Hc & Ho & Hh & Ht).
  destruct (handle m dp (hd 0 wrets)) as [m1 evs1]; simpl in *.
  pose proof (IH m1 (tl wrets)) as (Hc' & Ho' & Hh' & Ht').
  destruct (consume m1 rest (tl wrets)) as [m2 evs2]; simpl in *.
  rewrite headers_app, trailers_app, Hh, Ht, Hh', Ht'.
  repeat split; congruence.
Qed.

(** A run on a muxer whose header is not yet written attempts the write, once;
    the Once has fired afterwards whatever the write returned. *)
Lemma Start_body_first (e : RunEnv) (m : Muxer) :
  o m = false →
  headers (Start_body e m).2 = 1%nat ∧ o (Start_body e m).1 = true
  ∧ trailers (Start_body e m).2 = 0%nat.
Proof.
  intros Ho. unfold Start_body. rewrite Ho.
  destruct (header_ret e <? 0); [done|].
  match goal with |- context [consume ?a ?b ?w] =>
    pose proof (consume_keeps b a w) as (_ & Ho' & Hh & Ht);
    destruct (consume a b w) as [m3 evs3] end.
  cbn [fst snd] in *.
  rewrite !trailers_app, !headers_app, Ht, Hh. done.
Qed.

(** A later run does not write the header and registers one more trailer
    callback. *)
Lemma Start_body_later (e : RunEnv) (m : Muxer) :
  o m = true →
  headers (Start_body e m).2 = 0%nat ∧ o (Start_body e m).1 = true
  ∧ trailers (Start_body e m).2 = 0%nat
  ∧ c (Start_body e m).1 = c m ++ [HookWriteTrailer].
Proof.
  intros Ho. unfold Start_body. rewrite Ho. simpl.
  match goal with |- context [consume ?a ?b ?w] =>
    pose proof (consume_keeps b a w) as (Hc & Ho' & Hh & Ht);
    destruct (consume a b w) as [m3 evs3] end.
  cbn [fst snd app] in *.
  rewrite !headers_app, !trailers_app, Hh, Ht.
  simpl in Hc, Ho'. rewrite Ho', Hc. done.
Qed.

Lemma Start_runs_later (envs : list RunEnv) :
  ∀ m : Muxer, o m = true →
    headers (Start_runs envs m).2 = 0%nat
    ∧ trailers (Start_runs envs m).2 = 0%nat
    ∧ c (Start_runs envs m).1 = c m ++ repeat HookWriteTrailer (length envs).
Proof.
  induction envs as [|e rest IH]; intros m Ho; simpl.
  - by rewrite app_nil_r.
  - pose proof (Start_body_later e m Ho) as (Hh & Ho1 & Ht & Hc).
    destruct (Start_body e m) as [m1 evs1]; simpl in *.
    pose proof (IH m1 Ho1) as (Hh' & Ht' & Hc').
    destruct (Start_runs rest m1) as [m2 evs2]; simpl in *.
    rewrite headers_app, trailers_app, Hh, Hh', Ht, Ht', Hc', Hc.
    by rewrite <- app_assoc.
Qed.

Lemma trailers_Close (m : Muxer) :
  trailers (Close m) = length (filter is_trailer_hook (c m))
  ∧ headers (Close m) = 0%nat.
Proof.
  unfold Close, trailers, headers.
  induction (c m) as [|h l [IH1 IH2]]; [done|].
  simpl rev. rewrite map_app, !filter_app, !length_app, IH1, IH2.
  destruct h; simpl; rewrite ?filter_cons; simpl; split; lia.
Qed.

Lemma Start_body_first_ok (e : RunEnv) (m : Muxer) :
  o m = false → 0 ≤ header_ret e →
  c (Start_body e m).1 = c m ++ [HookWriteTrailer].
Proof.
  intros Ho Hret. unfold Start_body. rewrite Ho.
  apply Z.ltb_ge in Hret. rewrite Hret.
  match goal with |- context [consume ?a ?b ?w] =>
    pose proof (consume_keeps b a w) as (Hc & _);
    destruct (consume a b w) as [m3 evs3] end.
  simpl in *. done.
Qed.

Lemma Start_body_first_failed (e : RunEnv) (m : Muxer) :
  o m = false → header_ret e < 0 →
  (Start_body e m).2 = [MxWriteHeader; MxError (header_ret e)]
  ∧ c (Start_body e m).1 = c m ∧ q (Start_body e m).1 = q m.
Proof.
  intros Ho Hret. unfold Start_body. rewrite Ho.
  apply Z.ltb_lt in Hret. by rewrite Hret.
Qed.

(** C4 (as amended). Over any number of runs of a new muxer the header
    write is attempted exactly once, in the first run, and no later run
    attempts it again; when it fails, that run emits the error and ends there,
    with nothing written and no trailer callback registered; when it succeeds
    and the muxer is started once, the trailer is written exactly once, at
    teardown. *)
Theorem C4_header_once (e : RunEnv) (rest : list RunEnv) (m : Muxer) :
  o m = false → filter is_trailer_hook (c m) = [] →
  headers (lifecycle (e :: rest) m) = 1%nat
  ∧ headers (Start_body e m).2 = 1%nat
  ∧ headers (Start_runs rest (Start_body e m).1).2 = 0%nat
  ∧ (header_ret e < 0 →
       (Start_body e m).2 = [MxWriteHeader; MxError (header_ret e)]
       ∧ c (Start_body e m).1 = c m
       ∧ trailers (lifecycle [e] m) = 0%nat)
  ∧ (0 ≤ header_ret e →
       trailers (Start_body e m).2 = 0%nat
       ∧ trailers (lifecycle [e] m) = 1%nat).
Proof.
  intros Ho Hc.
  pose proof (Start_body_first e m Ho) as (Hh & Ho1 & Ht).
  pose proof (Start_runs_later rest _ Ho1) as (Hh' & _ & _).
  assert (Hone : ∀ k, c (Start_body e m).1 = c m ++ k →
            trailers (lifecycle [e] m) = length (filter is_trailer_hook k)).
  { intros k Hk. unfold lifecycle. simpl.
    destruct (Start_body e m) as [m1 evs1]; simpl in *.
    rewrite app_nil_r, trailers_app, Ht.
    rewrite (proj1 (trailers_Close m1)), Hk, filter_app, Hc. done. }
  split; [|split; [done|split; [done|split]]].
  - unfold lifecycle. simpl.
    destruct (Start_body e m) as [m1 evs1]; simpl in *.
    destruct (Start_runs rest m1) as [m2 evs2]; simpl in *.
    rewrite !headers_app, Hh, Hh', (proj2 (trailers_Close m2)). done.
  - intros Hret.
    pose proof (Start_body_first_failed e m Ho Hret) as (He & Hc' & _).
    split; [done|split; [done|]].
    apply (Hone []). by rewrite app_nil_r.
  - intros Hret. split; [done|].
    apply (Hone [HookWriteTrailer]). by apply Start_body_first_ok.
Qed.

Lemma C4_header_once_witness :
  let m := NewMuxer None MuxerExamples.streams0 in
  let ok := MuxerExamples.env 0 [] [] in
  let ko := MuxerExamples.env (-1) [] [] in
  headers (lifecycle [ok; ok; ok] m) = 1%nat
  ∧ (Start_body ko m).2 = [MxWriteHeader; MxError (-1)]
  ∧ trailers (lifecycle [ok] m) = 1%nat.
Proof.
  intros m ok ko. split; [|split].
  - apply (C4_header_once ok [ok; ok] m); reflexivity.
  - apply (C4_header_once ko [] m); [reflexivity | reflexivity | reflexivity].
  - apply (C4_header_once ok [] m); [reflexivity | reflexivity | discriminate].
Defined.

(** C4 as stated fails: a muxer started once whose header write fails writes
    no trailer at teardown. *)
Lemma C4_counterexample :
  let evs := lifecycle [MuxerExamples.env (-1) [] []]
                       (NewMuxer None MuxerExamples.streams0) in
  evs = [MxWriteHeader; MxError (-1); MxCloseAvIO; MxFreeContext]
  ∧ ¬ (headers evs = 1%nat ∧ trailers evs = 1%nat).
Proof. split; [reflexivity|]. vm_compute. intros [_ H]. discriminate H. Qed.

(** Every run that gets past the header check registers a trailer callback of
    its own: a muxer started twice writes the trailer twice at teardown. *)
Lemma Start_twice_writes_two_trailers :
  lifecycle [MuxerExamples.env 0 [] []; MuxerExamples.env 0 [] []]
            (NewMuxer None MuxerExamples.streams0)
  = [MxWriteHeader; MxQueueStop; MxQueueStop; MxWriteTrailer; MxWriteTrailer;
     MxCloseAvIO; MxFreeContext].
Proof. reflexivity. Qed.

(** C6. The thunk [MuxerPktHandler] makes of a payload, run at dequeue
    time, rescales the packet's timestamps from the time base of the payload's
    descriptor to the time base the target stream has at that time and sets
    the packet's stream index to the target stream's; with a source time base
    of 1/1000, a target of 1/90000 and timestamps 1000 and 2000 the packets
    written carry 90000 and 180000. *)
Theorem C6_thunk_rescales_and_sets_stream_index :
  (∀ h p σ,
     let r := MuxerPktHandler_pktHandlerPayloadRetriever h p σ in
     let st := σ (h_o h) in
     Pkt r = SetStreamIndex
               (AvPacketRescaleTs (Pkt p) (TimeBase (Descriptor p))
                                  (StreamTimeBase st))
               (Index st)
     ∧ StreamIndex (Pkt r) = Index st
     ∧ Descriptor r = Descriptor p ∧ Node r = Node p)
  ∧ (∀ h p σ,
       Pts (Pkt p) ≠ AV_NOPTS_VALUE → Dts (Pkt p) ≠ AV_NOPTS_VALUE →
       let r := MuxerPktHandler_pktHandlerPayloadRetriever h p σ in
       let src := TimeBase (Descriptor p) in
       let dst := StreamTimeBase (σ (h_o h)) in
       Pts (Pkt r) = av_rescale_q (Pts (Pkt p)) src dst
       ∧ Dts (Pkt r) = av_rescale_q (Dts (Pkt p)) src dst)
  ∧ (∀ h p m w, restamper m = None →
       written (handle m (MuxerPktHandler_pktHandlerPayloadRetriever h p) w).2
       = [SetStreamIndex
            (AvPacketRescaleTs (Pkt p) (TimeBase (Descriptor p))
                               (StreamTimeBase (streams m (h_o h))))
            (Index (streams m (h_o h)))])
  ∧ q MuxerExamples.muxer2
    = [MuxerPktHandler_pktHandlerPayloadRetriever
         MuxerExamples.handler (MuxerExamples.payload 1000);
       MuxerPktHandler_pktHandlerPayloadRetriever
         MuxerExamples.handler (MuxerExamples.payload 2000)]
  ∧ written (Start_body (MuxerExamples.env 0 [] []) MuxerExamples.muxer2).2
    = [SetStreamIndex (MuxerExamples.pkt 90000) 3;
       SetStreamIndex (MuxerExamples.pkt 180000) 3].
Proof.
  split; [|split; [|split; [|split]]].
  - intros h p σ. simpl. done.
  - intros h p σ Hp Hd. simpl.
    apply Z.eqb_neq in Hp, Hd. by rewrite Hp, Hd.
  - intros h p m w Hr. unfold handle. rewrite Hr. simpl.
    by destruct (w <? 0).
  - reflexivity.
  - vm_compute. reflexivity.
Qed.

Lemma C6_thunk_rescales_and_sets_stream_index_witness :
  let r := MuxerPktHandler_pktHandlerPayloadRetriever
             MuxerExamples.handler (MuxerExamples.payload 1000)
             MuxerExamples.streams90k in
  (Pts (Pkt r) = av_rescale_q 1000 (NewRational 1 1000) (NewRational 1 90000)
   ∧ Dts (Pkt r) = av_rescale_q 1000 (NewRational 1 1000) (NewRational 1 90000))
  ∧ written (handle (NewMuxer None MuxerExamples.streams90k)
               (MuxerPktHandler_pktHandlerPayloadRetriever
                  MuxerExamples.handler (MuxerExamples.payload 1000)) 0).2
    = [SetStreamIndex
         (AvPacketRescaleTs (MuxerExamples.pkt 1000) (NewRational 1 1000)
                            (NewRational 1 90000)) 3].
Proof.
  pose proof C6_thunk_rescales_and_sets_stream_index as (_ & H2 & H3 & _).
  split.
  - apply (H2 MuxerExamples.handler (MuxerExamples.payload 1000)
              MuxerExamples.streams90k); discriminate.
  - apply (H3 MuxerExamples.handler (MuxerExamples.payload 1000)
              (NewMuxer None MuxerExamples.streams90k) 0). reflexivity.
Defined.

(** The consumer leaves the queue of the muxer as it finds it. *)
Lemma consume_queue (items : list pktHandlerPayloadRetriever) :
  ∀ (m : Muxer) (wrets : list Z), q (consume m items wrets).1 = q m.
Proof.
  induction items as [|dp rest IH]; intros m wrets; simpl; [done|].
  pose proof (IH (handle m dp (hd 0 wrets)).1 (tl wrets)) as Hq.
  unfold handle in *.
  destruct (restamper m) as [r|]; [destruct (do_restamp r _)|];
    simpl in *;
    match goal with |- context [consume ?a ?b ?w] =>
      destruct (consume a b w) end; simpl in *; done.
Qed.

(** The return of the native write changes nothing but the error event. *)
Lemma handle_write_ret (m : Muxer) dp (w : Z) :
  (handle m dp w).1 = (handle m dp 0).1
  ∧ filter (λ e, is_error e = false) (handle m dp w).2 = (handle m dp 0).2
  ∧ error_rets (handle m dp w).2 = (if w <? 0 then [w] else [])
  ∧ length (written (handle m dp w).2) = 1%nat.
Proof.
  unfold handle.
  destruct (restamper m) as [r|]; [destruct (do_restamp r _)|];
    simpl; destruct (w <? 0); done.
Qed.

Lemma consume_write_rets (items : list pktHandlerPayloadRetriever) :
  ∀ (m : Muxer) (wrets : list Z),
    (consume m items wrets).1 = (consume m items []).1
    ∧ filter (λ e, is_error e = false) (consume m items wrets).2
      = (consume m items []).2
    ∧ error_rets (consume m items wrets).2
      = filter (λ r, r < 0) (take (length items) wrets)
    ∧ length (written (consume m items wrets).2) = length items.
Proof.
  induction items as [|dp rest IH]; intros m wrets; simpl.
  - by rewrite take_0.
  - pose proof (handle_write_ret m dp (hd 0 wrets)) as (H1 & H2 & H3 & H4).
    simpl (hd 0 []). simpl (tl []).
    destruct (handle m dp (hd 0 wrets)) as [m1 evs1].
    destruct (handle m dp 0) as [m0 evs0]. simpl in H1, H2, H3, H4. subst m0.
    pose proof (IH m1 (tl wrets)) as (I1 & I2 & I3 & I4).
    destruct (consume m1 rest (tl wrets)) as [m2 evs2].
    destruct (consume m1 rest []) as [m2' evs2']. simpl in *. subst m2'.
    unfold error_rets, written in *.
    rewrite filter_app, !omap_app, !length_app, H2, I2, H3, H4, I3, I4.
    split; [done|split; [done|split; [|done]]].
    destruct wrets as [|w ws]; simpl; [by rewrite take_nil|].
    rewrite filter_cons.
    destruct (Z.ltb_spec w 0); destruct (decide (w < 0)); simpl; (done || lia).
Qed.

(** C8. A failing native write of a dequeued packet is emitted as an error
    and that packet is left behind, and nothing else changes: the muxer goes
    on as if the write had succeeded, and in every run that gets past the
    header, the first one (header written) as well as a later one, every
    queued payload is handed to the native write and the run ends only when
    the queue is stopped. *)
Theorem C8_write_failure_does_not_stop :
  (∀ (m : Muxer) dp (w : Z), w < 0 →
     (handle m dp w).2
     = written_events (handle m dp 0).2 ++ [MxError w; MxHandlePause]
     ∧ (handle m dp w).1 = (handle m dp 0).1)
  ∧ (∀ (m : Muxer) items (wrets : list Z),
       (consume m items wrets).1 = (consume m items []).1
       ∧ filter (λ e, is_error e = false) (consume m items wrets).2
         = (consume m items []).2
       ∧ error_rets (consume m items wrets).2
         = filter (λ r, r < 0) (take (length items) wrets)
       ∧ length (written (consume m items wrets).2) = length items)
  ∧ (∀ (e : RunEnv) (m : Muxer), o m = true ∨ 0 ≤ header_ret e →
       length (written (Start_body e m).2) = length (q m ++ sent e)
       ∧ error_rets (Start_body e m).2
         = filter (λ r, r < 0) (take (length (q m ++ sent e)) (write_rets e))
       ∧ last (Start_body e m).2 = Some MxQueueStop
       ∧ q (Start_body e m).1 = []).
Proof.
  split; [|split].
  - intros m dp w Hw. apply Z.ltb_lt in Hw. unfold handle, written_events.
    destruct (restamper m) as [r|]; [destruct (do_restamp r _)|];
      simpl; rewrite Hw; done.
  - intros m items wrets. apply consume_write_rets.
  - intros e m Hrun. unfold Start_body.
    destruct (o m) eqn:Ho.
    + simpl.
      match goal with |- context [consume ?a ?b ?w] =>
        pose proof (consume_write_rets b a w) as (_ & _ & He & Hw);
        pose proof (consume_queue b a w) as Hq;
        destruct (consume a b w) as [m3 evs3] end.
      simpl in *. unfold error_rets, written in *.
      rewrite !omap_app, !length_app, He, Hw. simpl.
      rewrite app_nil_r, Nat.add_0_r, last_snoc, !length_app. done.
    + destruct Hrun as [?|Hret]; [done|].
      apply Z.ltb_ge in Hret. rewrite Hret.
      match goal with |- context [consume ?a ?b ?w] =>
        pose proof (consume_write_rets b a w) as (_ & _ & He & Hw);
        pose proof (consume_queue b a w) as Hq;
        destruct (consume a b w) as [m3 evs3] end.
      simpl in *. unfold error_rets, written in *.
      rewrite !omap_app, !length_app, He, Hw. simpl.
      rewrite app_nil_r, Nat.add_0_r, !length_app.
      change (MxWriteHeader :: evs3 ++ [MxQueueStop])
        with ((MxWriteHeader :: evs3) ++ [MxQueueStop]).
      rewrite last_snoc. done.
Qed.

Lemma C8_write_failure_does_not_stop_witness :
  let dp := MuxerPktHandler_pktHandlerPayloadRetriever
              MuxerExamples.handler (MuxerExamples.payload 1000) in
  let m := NewMuxer None MuxerExamples.streams90k in
  let e := MuxerExamples.env 0 [] [-5; 0] in
  (handle m dp (-5)).2
  = [MxWrite (SetStreamIndex (MuxerExamples.pkt 90000) 3);
     MxError (-5); MxHandlePause]
  ∧ (length (written (Start_body e MuxerExamples.muxer2).2) = 2%nat
     ∧ error_rets (Start_body e MuxerExamples.muxer2).2 = [-5]
     ∧ last (Start_body e MuxerExamples.muxer2).2 = Some MxQueueStop)
  ∧ (length (written (Start_body e (Start_body e MuxerExamples.muxer2).1).2)
     = 0%nat
     ∧ last (Start_body e (Start_body e MuxerExamples.muxer2).1).2
       = Some MxQueueStop).
Proof.
  intros dp m e.
  pose proof C8_write_failure_does_not_stop as (H1 & _ & H3).
  split; [|split].
  - apply (H1 m dp (-5)). reflexivity.
  - pose proof (H3 e MuxerExamples.muxer2 (or_intror (Z.le_refl 0)))
      as (Ha & Hb & Hc & _).
    split; [exact Ha | split; [exact Hb | exact Hc]].
  - pose proof (H3 e (Start_body e MuxerExamples.muxer2).1
                  (or_introl eq_refl)) as (Ha & _ & Hc & _).
    split; [exact Ha | exact Hc].
Defined.

End MuxerFacts.

Module DispatcherFacts.
Import FrameDispatcher FrameDispatcherRuns.

(** *** Lists of tasks *)

Lemma held_app (l k : list task) : held (l ++ k) = held l ++ held k.
Proof. unfold held. by rewrite filter_app, map_app. Qed.

Lemma held_cons (t : task) (l : list task) :
  held (t :: l) = (if decide (t_phase t ≠ Released) then [t_f t] else []) ++ held l.
Proof. unfold held. rewrite filter_cons. by case_decide. Qed.

Lemma pend_app (h : FrameHandler) (l k : list task) :
  pend h (l ++ k) = pend h l ++ pend h k.
Proof. unfold pend. by rewrite filter_app, map_app. Qed.

Lemma pend_cons (h : FrameHandler) (t : task) (l : list task) :
  pend h (t :: l)
  = (if decide (t_h t = h ∧ t_phase t = Spawned) then [t_b t] else []) ++ pend h l.
Proof. unfold pend. rewrite filter_cons. by case_decide. Qed.

Lemma pend_hb_app (l k : list task) : pend_hb (l ++ k) = pend_hb l ++ pend_hb k.
Proof. unfold pend_hb. by rewrite filter_app, map_app. Qed.

Lemma pend_hb_cons (t : task) (l : list task) :
  pend_hb (t :: l)
  = (if decide (t_phase t = Spawned) then [(t_h t, t_b t)] else []) ++ pend_hb l.
Proof. unfold pend_hb. rewrite filter_cons. by case_decide. Qed.

(** No goroutine for [h] in the list: nothing pending for [h]. *)
Lemma pend_absent (h : FrameHandler) (l : list task) :
  h ∉ map t_h l → pend h l = [].
Proof.
  induction l as [|t l IH]; [done|]. intros Hn.
  rewrite pend_cons. simpl in Hn. rewrite not_elem_of_cons in Hn.
  destruct Hn as [Hne Hn]. rewrite (IH Hn).
  case_decide as Hd; [|done]. destruct Hd as [Hd _]. congruence.
Qed.

(** A list around its [i]-th element. *)
Lemma around (l : list task) (i : nat) (t t' : task) :
  l !! i = Some t →
  l = take i l ++ t :: drop (S i) l
  ∧ <[i := t']> l = take i l ++ t' :: drop (S i) l
  ∧ delete i l = take i l ++ drop (S i) l.
Proof.
  intros Hl. split; [by rewrite take_drop_middle|]. split.
  - apply insert_take_drop. by eapply lookup_lt_Some.
  - apply delete_take_drop.
Qed.

(** *** The pool *)

Lemma frames_fresh (l : list FrameId) (n : nat) :
  l ≡ₚ seq 0 n → NoDup l ∧ ∀ x, x ∈ l → (x < n)%nat.
Proof.
  intros Hp. split.
  - rewrite Hp. apply NoDup_seq.
  - intros x Hx. rewrite Hp in Hx. apply elem_of_seq in Hx. lia.
Qed.

Lemma Inv_init : Inv newFrameDispatcher.
Proof.
  split; simpl; try done.
  - intros t Ht. by apply elem_of_nil in Ht.
  - constructor.
  - constructor.
Qed.

Lemma NoDup_values (m : gmap string FrameHandler) :
  (∀ k h, m !! k = Some h → Name h = k) → NoDup (map_to_list m).*2.
Proof.
  intros Hm. apply (NoDup_fmap_1 Name).
  replace (Name <$> (map_to_list m).*2) with (map_to_list m).*1.
  { apply NoDup_fst_map_to_list. }
  assert (Hall : ∀ kh, kh ∈ map_to_list m → kh.1 = Name kh.2).
  { intros [k h] Hkh. apply elem_of_map_to_list in Hkh. simpl.
    symmetry. by apply Hm. }
  induction (map_to_list m) as [|kh l IH]; [done|].
  simpl. rewrite Hall by left. f_equal. apply IH.
  intros ? ?. apply Hall. by right.
Qed.

Lemma Inv_addHandler (h : FrameHandler) (d : frameDispatcher) :
  Inv d → Inv (addHandler h d).
Proof.
  intros [? ? ? ? ? Hhs ? ? ? ?]. split; simpl; try done.
  intros k h' Hk. destruct (decide (Name h = k)) as [<-|Hne].
  - rewrite lookup_insert_eq in Hk. by simplify_eq.
  - rewrite lookup_insert_ne in Hk by done. by apply Hhs.
Qed.

Lemma Inv_delHandler (h : FrameHandler) (d : frameDispatcher) :
  Inv d → Inv (delHandler h d).
Proof.
  intros [? ? ? ? ? Hhs ? ? ? ?]. split; simpl; try done.
  intros k h' Hk. apply lookup_delete_Some in Hk as [_ Hk]. by apply Hhs.
Qed.

Lemma Inv_dispatch_call b desc order (d d' : frameDispatcher) :
  Inv d → dispatch_call b desc order d = Some d' → Inv d'.
Proof.
  intros [Hwg Hfr Hrefs Hnd Hsn Hhs Hsp Hord Hcalls Hcur] Hstep.
  unfold dispatch_call in Hstep.
  destruct (prod d) eqn:Hprod; [|done|done].
  case_decide as Hperm; [|done]. simplify_eq.
  assert (Hndo : NoDup order).
  { rewrite Hperm. by apply NoDup_values. }
  split; simpl; try done.
  - rewrite Hwg. simpl. by destruct order.
  - rewrite app_nil_r in Hnd. by destruct order; simpl; rewrite app_nil_r.
  - by destruct order; simpl; [constructor|].
  - intros h. specialize (Hord h). unfold visible in *. simpl.
    rewrite Hprod in Hord. cbn [snapshot] in Hord.
    rewrite decide_False in Hord by apply not_elem_of_nil.
    case_decide.
    + by rewrite removelast_last.
    + by apply sublist_inserts_r.
  - intros b' Hb'. rewrite last_snoc. destruct order; simpl in Hb'; congruence.
  - intros l b' desc' Hl. by destruct order.
Qed.

(** When the wait is over no goroutine is left. *)
Lemma drained (d : frameDispatcher) :
  Inv d → remaining (prod d) = [] → wg d = 0 → tasks d = [].
Proof.
  intros HI Hrem Hwg. pose proof (inv_wg d HI) as H.
  rewrite Hrem, Hwg in H. simpl in H.
  destruct (tasks d); [done|]. simpl in H. lia.
Qed.

Lemma Inv_dispatch_wait (d d' : frameDispatcher) :
  Inv d → dispatch_wait d = Some d' → Inv d'.
Proof.
  intros HI Hstep. unfold dispatch_wait in Hstep.
  destruct (prod d) as [|l b desc|] eqn:Hprod; [done| |done].
  destruct (wg d =? 0) eqn:Hz; [|done]. apply Z.eqb_eq in Hz.
  assert (Hts : tasks d = []) by (apply drained; [done|by rewrite Hprod|done]).
  destruct HI as [Hwg Hfr Hrefs Hnd Hsn Hhs Hsp Hord Hcalls Hcur].
  rewrite Hprod in *. simplify_eq.
  split; simpl; try done.
  - by rewrite Hts.
  - by rewrite Hts.
  - intros h. specialize (Hord h). unfold visible in *. simpl.
    by rewrite Hprod in Hord.
  - intros ? ? ? _ t Ht. rewrite Hts in Ht. by apply elem_of_nil in Ht.
Qed.

Lemma Inv_dispatch_return (d d' : frameDispatcher) :
  Inv d → dispatch_return d = Some d' → Inv d'.
Proof.
  intros [Hwg Hfr Hrefs Hnd Hsn Hhs Hsp Hord Hcalls Hcur] Hstep.
  unfold dispatch_return in Hstep.
  destruct (prod d) as [| |l b desc] eqn:Hprod; [done|done|].
  destruct l; [|done]. simplify_eq.
  split; simpl; try done.
  intros h. specialize (Hord h). unfold visible in *. simpl.
  rewrite Hprod in Hord. cbn [snapshot] in Hord.
  by rewrite !decide_False in * by apply not_elem_of_nil.
Qed.

(** What [get] hands out is neither free nor held afterwards, and the frames
    are the same but for a new one. *)
Lemma get_spec (fp : framePool) (rest : list FrameId) :
  p fp ++ rest ≡ₚ seq 0 (allocs fp) →
  (get fp).1 :: p (get fp).2 ++ rest ≡ₚ seq 0 (allocs (get fp).2)
  ∧ (get fp).1 ∉ rest.
Proof.
  intros Hp. unfold get.
  destruct (p fp) as [|f fs] eqn:Hfree; cbn [fst snd allocs p app] in *.
  - split.
    + rewrite seq_S, <- Hp. simpl. by rewrite Permutation_cons_append.
    + intros Hin. apply (frames_fresh _ _ Hp) in Hin. lia.
  - split; [done|].
    apply frames_fresh in Hp as [Hnd _]. apply NoDup_cons in Hnd as [Hn _].
    intros Hin. apply Hn. apply elem_of_app. by right.
Qed.

Lemma Inv_dispatch_iter (ret : Z) (d d' : frameDispatcher) :
  Inv d → dispatch_iter ret d = Some d' → Inv d'.
Proof.
  intros [Hwg Hfr Hrefs Hnd Hsn Hhs Hsp Hord Hcalls Hcur] Hstep.
  unfold dispatch_iter in Hstep.
  destruct (prod d) as [| |l b desc] eqn:Hprod; [done|done|].
  destruct l as [|h rest]; [done|].
  pose proof (get_spec (pool d) _ Hfr) as [Hget Hfresh].
  destruct (get (pool d)) as [hF pool'] eqn:Hg. simpl in Hget, Hfresh.
  simpl in Hnd, Hsn, Hwg.
  assert (Hlast : calls d = removelast (calls d) ++ [b]).
  { destruct (proj1 (last_Some _ _) (Hcalls b eq_refl)) as [old Hold].
    by rewrite Hold, removelast_last. }
  assert (Hhrest : h ∉ rest) by (by apply NoDup_cons in Hsn as [? _]).
  assert (Hvis : ∀ h', visible h' d
                       = if decide (h' ∈ h :: rest) then removelast (calls d)
                         else calls d).
  { intros h'. unfold visible. by rewrite Hprod. }
  destruct (ret <? 0); simplify_eq.
  - (* the copy failed *)
    split; simpl; try done.
    + lia.
    + rewrite <- Hget. solve_Permutation.
    + apply NoDup_app in Hnd as (H1 & H2 & H3). apply NoDup_app.
      split; [done|]. split.
      * intros x Hx Hx'. apply (H2 x Hx). by right.
      * by apply NoDup_cons in H3 as [_ ?].
    + by apply NoDup_cons in Hsn as [_ ?].
    + intros h'. specialize (Hord h'). rewrite Hvis in Hord.
      unfold visible. simpl. destruct (decide (h' = h)) as [->|Hne].
      * rewrite decide_True in Hord by left.
        rewrite decide_False by done. rewrite Hlast.
        by apply sublist_inserts_r.
      * destruct (decide (h' ∈ rest)) as [Hin|Hin].
        -- rewrite decide_True in Hord by (by right). done.
        -- rewrite decide_False in Hord; [done|].
           rewrite not_elem_of_cons. done.
    + intros ? ? ? Hl t Ht. simplify_eq. by eapply Hcur.
  - (* the copy succeeded: a goroutine is spawned *)
    split; simpl; try done.
    + rewrite length_app. simpl. lia.
    + rewrite held_app, held_cons. simpl.
      change (held []) with (@nil FrameId).
      rewrite <- Hget. solve_Permutation.
    + intros t Ht Hph. apply elem_of_app in Ht as [Ht|Ht].
      * rewrite lookup_insert_ne; [by apply Hrefs|].
        intros ->. apply Hfresh. apply elem_of_app. left.
        unfold held. apply list_elem_of_fmap. exists t. split; [done|].
        by apply list_elem_of_filter.
      * apply list_elem_of_singleton in Ht as ->. simpl.
        by rewrite lookup_insert_eq.
    + rewrite map_app. simpl. by rewrite <- app_assoc.
    + by apply NoDup_cons in Hsn as [_ ?].
    + rewrite pend_hb_app, pend_hb_cons. simpl.
      change (pend_hb []) with (@nil (FrameHandler * Buf)).
      rewrite app_assoc. by f_equiv.
    + intros h'. specialize (Hord h'). rewrite Hvis in Hord.
      unfold visible. simpl. rewrite pend_app, pend_cons. simpl.
      change (pend h' []) with (@nil Buf).
      destruct (decide (h' = h)) as [->|Hne].
      * rewrite decide_True in Hord by left.
        rewrite (decide_False (P := h ∈ rest)) by done.
        rewrite (decide_True (P := h = h ∧ _)) by done.
        rewrite Hlast, app_assoc. by apply sublist_app.
      * rewrite (decide_False (P := h = h' ∧ _)) by (intros [? _]; congruence).
        rewrite !app_nil_r. destruct (decide (h' ∈ rest)) as [Hin|Hin].
        -- rewrite decide_True in Hord by (by right). done.
        -- rewrite decide_False in Hord; [done|].
           rewrite not_elem_of_cons. done.
    + intros ? ? ? Hl t Ht. simplify_eq.
      apply elem_of_app in Ht as [Ht|Ht]; [by eapply Hcur|].
      by apply list_elem_of_singleton in Ht as ->.
Qed.

Lemma Inv_task_start (i : nat) (d d' : frameDispatcher) :
  Inv d → task_start i d = Some d' → Inv d'.
Proof.
  intros [Hwg Hfr Hrefs Hnd Hsn Hhs Hsp Hord Hcalls Hcur] Hstep.
  unfold task_start in Hstep.
  destruct (tasks d !! i) as [t|] eqn:Hi; [|done].
  destruct (t_phase t) eqn:Hph; [|done|done]. simplify_eq.
  destruct (around _ _ _ (set_phase t Handling) Hi) as (Hts & Hins & _).
  set (l1 := take i (tasks d)) in *. set (l2 := drop (S i) (tasks d)) in *.
  assert (Href : refs d !! t_f t = Some (t_b t)).
  { apply Hrefs; [by eapply list_elem_of_lookup_2|]. by rewrite Hph. }
  split; simpl; try done.
  - by rewrite length_insert.
  - rewrite Hins. rewrite Hts in Hfr.
    rewrite held_app, held_cons in *. simpl. by rewrite Hph in Hfr.
  - intros t' Ht' Hph'. rewrite Hins in Ht'.
    apply elem_of_app in Ht' as [Ht'|Ht'].
    + apply Hrefs; [|done]. rewrite Hts. apply elem_of_app. by left.
    + apply elem_of_cons in Ht' as [->|Ht']; [done|].
      apply Hrefs; [|done]. rewrite Hts. apply elem_of_app. right. by right.
  - rewrite Hins. rewrite Hts in Hnd. by rewrite !map_app in *.
  - rewrite Hins. rewrite Hts in Hsp. rewrite <- Hsp.
    unfold handled_hb. rewrite omap_app. simpl. rewrite Href. simpl.
    rewrite !pend_hb_app, !pend_hb_cons. simpl. rewrite Hph. simpl.
    solve_Permutation.
  - intros h. specialize (Hord h).
    replace (visible h _) with (visible h d) by done.
    rewrite Hins. rewrite Hts in Hord, Hnd.
    unfold received in *. rewrite omap_app. simpl. rewrite Href.
    rewrite pend_app, pend_cons in *. simpl. rewrite Hph in Hord.
    destruct (decide (t_h t = h)) as [Heq|Hne].
    + rewrite map_app in Hnd. simpl in Hnd.
      rewrite <- app_assoc in Hnd. apply NoDup_app in Hnd as (_ & Hl1 & Hnd).
      simpl in Hnd. apply NoDup_cons in Hnd as [Hl2 _].
      assert (P1 : pend h l1 = []).
      { apply pend_absent. intros Hin. apply (Hl1 _ Hin). subst h. by left. }
      assert (P2 : pend h l2 = []).
      { apply pend_absent. intros Hin. apply Hl2. subst h.
        apply elem_of_app. by left. }
      rewrite P1, P2 in *. rewrite decide_True in Hord by done.
      rewrite decide_False by (intros [_ ?]; done).
      by rewrite !app_nil_r in *.
    + rewrite decide_False in Hord by (intros [? _]; done).
      rewrite decide_False by (intros [? _]; done).
      by rewrite !app_nil_r.
  - intros l b desc Hl t' Ht'. rewrite Hins in Ht'.
    assert (t_b t = b).
    { eapply Hcur; [done|]. by eapply list_elem_of_lookup_2. }
    apply elem_of_app in Ht' as [Ht'|Ht'].
    + eapply Hcur; [done|]. rewrite Hts. apply elem_of_app. by left.
    + apply elem_of_cons in Ht' as [->|Ht']; [done|].
      eapply Hcur; [done|]. rewrite Hts. apply elem_of_app. right. by right.
Qed.

Lemma Inv_task_end (i : nat) (d d' : frameDispatcher) :
  Inv d → task_end i d = Some d' → Inv d'.
Proof.
  intros [Hwg Hfr Hrefs Hnd Hsn Hhs Hsp Hord Hcalls Hcur] Hstep.
  unfold task_end, put in Hstep.
  destruct (tasks d !! i) as [t|] eqn:Hi; [|done].
  destruct (t_phase t) eqn:Hph; [done| |done]. simplify_eq.
  destruct (around _ _ _ (set_phase t Released) Hi) as (Hts & Hins & _).
  set (l1 := take i (tasks d)) in *. set (l2 := drop (S i) (tasks d)) in *.
  assert (Hheld : held (tasks d) = held l1 ++ t_f t :: held l2).
  { rewrite Hts at 1. rewrite held_app, held_cons. by rewrite Hph. }
  assert (Hnew : held (l1 ++ set_phase t Released :: l2) = held l1 ++ held l2).
  { by rewrite held_app, held_cons. }
  split; simpl; try done.
  - by rewrite length_insert.
  - rewrite Hins, Hnew, <- Hfr, Hheld. solve_Permutation.
  - intros t' Ht' Hph'. rewrite Hins in Ht'.
    assert (Hin : t' ∈ l1 ∨ t' ∈ l2).
    { apply elem_of_app in Ht' as [?|Ht']; [by left|].
      apply elem_of_cons in Ht' as [->|?]; [done|by right]. }
    assert (Hne : t_f t' ≠ t_f t).
    { apply frames_fresh in Hfr as [Hndf _].
      apply NoDup_app in Hndf as (_ & _ & Hndf).
      apply NoDup_app in Hndf as (Hndf & _ & _).
      rewrite Hheld in Hndf. apply NoDup_app in Hndf as (_ & H1 & H2).
      apply NoDup_cons in H2 as [H2 _].
      assert (Hh : ∀ l, t' ∈ l → t_f t' ∈ held l).
      { intros l Hl. unfold held. apply list_elem_of_fmap. exists t'.
        split; [done|]. by apply list_elem_of_filter. }
      intros Heq. destruct Hin as [Hin|Hin].
      - apply (H1 _ (Hh _ Hin)). rewrite Heq. by left.
      - apply H2. rewrite <- Heq. by apply Hh. }
    rewrite lookup_delete_ne by done. apply Hrefs; [|done].
    rewrite Hts. apply elem_of_app. destruct Hin; [by left|right; by right].
  - rewrite Hins. rewrite Hts in Hnd. by rewrite !map_app in *.
  - rewrite Hins. rewrite Hts in Hsp. rewrite <- Hsp.
    rewrite !pend_hb_app, !pend_hb_cons. simpl. by rewrite Hph.
  - intros h. specialize (Hord h).
    replace (visible h _) with (visible h d) by done.
    rewrite Hins. rewrite Hts in Hord.
    rewrite pend_app, pend_cons in *. simpl. rewrite Hph in Hord.
    rewrite decide_False in Hord by (intros [_ ?]; done).
    by rewrite decide_False by (intros [_ ?]; done).
  - intros l b desc Hl t' Ht'. rewrite Hins in Ht'.
    assert (t_b t = b).
    { eapply Hcur; [done|]. by eapply list_elem_of_lookup_2. }
    apply elem_of_app in Ht' as [Ht'|Ht'].
    + eapply Hcur; [done|]. rewrite Hts. apply elem_of_app. by left.
    + apply elem_of_cons in Ht' as [->|Ht']; [done|].
      eapply Hcur; [done|]. rewrite Hts. apply elem_of_app. right. by right.
Qed.

Lemma Inv_task_done (i : nat) (d d' : frameDispatcher) :
  Inv d → task_done i d = Some d' → Inv d'.
Proof.
  intros [Hwg Hfr Hrefs Hnd Hsn Hhs Hsp Hord Hcalls Hcur] Hstep.
  unfold task_done in Hstep.
  destruct (tasks d !! i) as [t|] eqn:Hi; [|done].
  destruct (t_phase t) eqn:Hph; [done|done|]. simplify_eq.
  destruct (around _ _ _ t Hi) as (Hts & _ & Hdel).
  set (l1 := take i (tasks d)) in *. set (l2 := drop (S i) (tasks d)) in *.
  split; simpl; try done.
  - rewrite Hwg, Hdel. rewrite Hts at 1. rewrite !length_app. simpl. lia.
  - rewrite Hdel. rewrite Hts in Hfr.
    rewrite held_app, held_cons in *. rewrite Hph in Hfr.
    by rewrite decide_False in Hfr by (intros Hc; by apply Hc).
  - intros t' Ht' Hph'. apply Hrefs; [|done]. rewrite Hdel in Ht'.
    rewrite Hts. apply elem_of_app. apply elem_of_app in Ht' as [?|?];
      [by left|right; by right].
  - rewrite Hdel. rewrite Hts in Hnd. rewrite !map_app in *. simpl in Hnd.
    rewrite <- app_assoc in *. apply NoDup_app in Hnd as (H1 & H2 & H3).
    simpl in H3. apply NoDup_cons in H3 as [_ H3]. apply NoDup_app.
    split; [done|]. split; [|done].
    intros x Hx Hx'. apply (H2 x Hx). by right.
  - rewrite Hdel. rewrite Hts in Hsp. rewrite <- Hsp.
    rewrite !pend_hb_app, !pend_hb_cons. by rewrite Hph.
  - intros h. specialize (Hord h).
    replace (visible h _) with (visible h d) by done.
    rewrite Hdel. rewrite Hts in Hord.
    rewrite pend_app, pend_cons in *. rewrite Hph in Hord.
    by rewrite decide_False in Hord by (intros [_ ?]; done).
  - intros l b desc Hl t' Ht'. rewrite Hdel in Ht'.
    eapply Hcur; [done|]. rewrite Hts. apply elem_of_app.
    apply elem_of_app in Ht' as [?|?]; [by left|right; by right].
Qed.

Lemma Inv_step (a : action) (d d' : frameDispatcher) :
  Inv d → step a d = Some d' → Inv d'.
Proof.
  intros HI Hstep. destruct a; simpl in Hstep.
  - by eapply Inv_dispatch_call.
  - by eapply Inv_dispatch_wait.
  - by eapply Inv_dispatch_iter.
  - by eapply Inv_dispatch_return.
  - by eapply Inv_task_start.
  - by eapply Inv_task_end.
  - by eapply Inv_task_done.
  - simplify_eq. by apply Inv_addHandler.
  - simplify_eq. by apply Inv_delHandler.
Qed.

Lemma Inv_run (tr : list action) :
  ∀ d d', Inv d → run tr d = Some d' → Inv d'.
Proof.
  induction tr as [|a tr IH]; intros d d' HI Hrun; simpl in Hrun.
  - by simplify_eq.
  - destruct (step a d) as [d1|] eqn:Hs; [|done].
    eapply IH; [|done]. by eapply Inv_step.
Qed.

Lemma Inv_reachable (d : frameDispatcher) : reachable d → Inv d.
Proof. intros [tr Htr]. eapply Inv_run; [apply Inv_init|done]. Qed.

(** *** What a handler has seen, step by step *)

Lemma seen_task_start (i : nat) (d d' : frameDispatcher) (h : FrameHandler) :
  Inv d → task_start i d = Some d' → seen h d' = seen h d.
Proof.
  intros [Hwg Hfr Hrefs Hnd Hsn Hhs Hsp Hord Hcalls Hcur] Hstep.
  unfold task_start in Hstep.
  destruct (tasks d !! i) as [t|] eqn:Hi; [|done].
  destruct (t_phase t) eqn:Hph; [|done|done]. simplify_eq.
  destruct (around _ _ _ (set_phase t Handling) Hi) as (Hts & Hins & _).
  set (l1 := take i (tasks d)) in *. set (l2 := drop (S i) (tasks d)) in *.
  assert (Href : refs d !! t_f t = Some (t_b t)).
  { apply Hrefs; [by eapply list_elem_of_lookup_2|]. by rewrite Hph. }
  unfold seen. simpl. rewrite Hins. rewrite Hts. rewrite Hts in Hnd.
  unfold received. rewrite omap_app. simpl. rewrite Href.
  rewrite !pend_app, !pend_cons. simpl. rewrite Hph.
  destruct (decide (t_h t = h)) as [Heq|Hne].
  - rewrite map_app in Hnd. simpl in Hnd.
    rewrite <- app_assoc in Hnd. apply NoDup_app in Hnd as (_ & Hl1 & Hnd).
    simpl in Hnd. apply NoDup_cons in Hnd as [Hl2 _].
    assert (P1 : pend h l1 = []).
    { apply pend_absent. intros Hin. apply (Hl1 _ Hin). subst h. by left. }
    assert (P2 : pend h l2 = []).
    { apply pend_absent. intros Hin. apply Hl2. subst h.
      apply elem_of_app. by left. }
    rewrite P1, P2.
    rewrite (decide_True (P := t_h t = h ∧ Spawned = Spawned)) by done.
    rewrite (decide_False (P := t_h t = h ∧ Handling = Spawned))
      by (intros [_ ?]; done).
    simpl. by rewrite !app_nil_r.
  - rewrite !(decide_False (P := t_h t = h ∧ _)) by (intros [? _]; done).
    by rewrite !app_nil_r.
Qed.

Lemma seen_task_end (i : nat) (d d' : frameDispatcher) (h : FrameHandler) :
  task_end i d = Some d' → seen h d' = seen h d.
Proof.
  intros Hstep. unfold task_end, put in Hstep.
  destruct (tasks d !! i) as [t|] eqn:Hi; [|done].
  destruct (t_phase t) eqn:Hph; [done| |done]. simplify_eq.
  destruct (around _ _ _ (set_phase t Released) Hi) as (Hts & Hins & _).
  set (l1 := take i (tasks d)) in *. set (l2 := drop (S i) (tasks d)) in *.
  unfold seen. simpl. rewrite Hins. rewrite Hts.
  rewrite !pend_app, !pend_cons. simpl. rewrite Hph.
  by rewrite !decide_False by (intros [_ ?]; done).
Qed.

Lemma seen_task_done (i : nat) (d d' : frameDispatcher) (h : FrameHandler) :
  task_done i d = Some d' → seen h d' = seen h d.
Proof.
  intros Hstep. unfold task_done in Hstep.
  destruct (tasks d !! i) as [t|] eqn:Hi; [|done].
  destruct (t_phase t) eqn:Hph; [done|done|]. simplify_eq.
  destruct (around _ _ _ t Hi) as (Hts & _ & Hdel).
  set (l1 := take i (tasks d)) in *. set (l2 := drop (S i) (tasks d)) in *.
  unfold seen. simpl. rewrite Hdel. rewrite Hts.
  rewrite !pend_app, !pend_cons. rewrite Hph.
  by rewrite !decide_False by (intros [_ ?]; done).
Qed.

Lemma removelast_prefix (l : list Buf) : removelast l `prefix_of` l.
Proof.
  destruct l as [|x l _] using rev_ind.
  - done.
  - rewrite removelast_last. by apply prefix_app_r.
Qed.

Lemma prefix_is_sublist (l k : list Buf) : l `prefix_of` k → l `sublist_of` k.
Proof. intros [m ->]. by apply sublist_inserts_r. Qed.

Lemma visible_prefix (h : FrameHandler) (d : frameDispatcher) :
  visible h d `prefix_of` calls d.
Proof. unfold visible. case_decide; [apply removelast_prefix|done]. Qed.

(** As long as [h] is in every snapshot and no copy for [h] fails, [h] has
    seen exactly the calls whose fan-out has got to it. *)
Lemma exact_step (h : FrameHandler) (a : action) (d d' : frameDispatcher) :
  Inv d → served_at h a d → step a d = Some d' →
  seen h d = visible h d → seen h d' = visible h d'.
Proof.
  intros HI Hgood Hstep Hex. destruct a; simpl in Hstep, Hgood.
  - (* the call *)
    unfold dispatch_call in Hstep.
    destruct (prod d) eqn:Hprod; [|done|done].
    case_decide; [|done]. simplify_eq.
    unfold seen, visible in *. simpl. rewrite Hprod in Hex. cbn [snapshot] in Hex.
    rewrite decide_False in Hex by apply not_elem_of_nil.
    destruct order as [|h0 order]; [by apply elem_of_nil in Hgood|].
    cbn [snapshot]. rewrite decide_True by done. by rewrite removelast_last.
  - (* the wait *)
    unfold dispatch_wait in Hstep.
    destruct (prod d) eqn:Hprod; [done| |done].
    destruct (wg d =? 0); [|done]. simplify_eq.
    unfold seen, visible in *. simpl. by rewrite Hprod in Hex.
  - (* one turn of the loop *)
    unfold dispatch_iter in Hstep.
    destruct (prod d) as [| |l b desc] eqn:Hprod; [done|done|].
    destruct l as [|h0 rest]; [done|].
    destruct (get (pool d)) as [hF pool'].
    simpl in Hgood.
    pose proof (inv_snap d HI) as Hsn. rewrite Hprod in Hsn.
    apply NoDup_cons in Hsn as [Hh0 _].
    destruct (proj1 (last_Some _ _) (inv_calls d HI b ltac:(by rewrite Hprod)))
      as [old Hold].
    destruct (ret <? 0) eqn:Hret; simplify_eq.
    + (* a copy that fails: it is not the one for [h] *)
      assert (Hne : h ≠ h0).
      { intros ->. apply Z.ltb_lt in Hret. specialize (Hgood eq_refl). lia. }
      unfold seen, visible in *. simpl. rewrite Hprod in Hex.
      cbn [snapshot] in Hex. rewrite Hex.
      destruct (decide (h ∈ rest)) as [Hin|Hin].
      * by rewrite decide_True by (by right).
      * rewrite decide_False; [done|]. rewrite not_elem_of_cons. done.
    + unfold seen, visible in *. simpl. rewrite Hprod in Hex.
      cbn [snapshot] in Hex.
      rewrite pend_app, pend_cons. simpl.
      change (pend h []) with (@nil Buf).
      destruct (decide (h = h0)) as [->|Hne].
      * rewrite decide_True in Hex by left.
        rewrite (decide_False (P := h0 ∈ rest)) by done.
        rewrite (decide_True (P := h0 = h0 ∧ _)) by done.
        rewrite app_assoc, Hex, Hold. by rewrite removelast_last.
      * rewrite (decide_False (P := h0 = h ∧ _)) by (intros [? _]; congruence).
        rewrite !app_nil_r, Hex.
        destruct (decide (h ∈ rest)) as [Hin|Hin].
        -- by rewrite decide_True by (by right).
        -- rewrite decide_False; [done|]. rewrite not_elem_of_cons. done.
  - (* the return *)
    unfold dispatch_return in Hstep.
    destruct (prod d) as [| |l b desc] eqn:Hprod; [done|done|].
    destruct l; [|done]. simplify_eq.
    unfold seen, visible in *. simpl. rewrite Hprod in Hex. cbn [snapshot] in *.
    by rewrite !decide_False in * by apply not_elem_of_nil.
  - rewrite (seen_task_start _ _ _ _ HI Hstep), Hex. unfold visible.
    unfold task_start in Hstep. repeat case_match; by simplify_eq.
  - rewrite (seen_task_end _ _ _ _ Hstep), Hex. unfold visible.
    unfold task_end, put in Hstep. repeat case_match; by simplify_eq.
  - rewrite (seen_task_done _ _ _ _ Hstep), Hex. unfold visible.
    unfold task_done in Hstep. repeat case_match; by simplify_eq.
  - by simplify_eq.
  - by simplify_eq.
Qed.

Lemma exact_run (h : FrameHandler) (tr : list action) :
  ∀ d d', Inv d → always_served h tr d → run tr d = Some d' →
    seen h d = visible h d → seen h d' = visible h d'.
Proof.
  induction tr as [|a tr IH]; intros d d' HI Hall Hrun Hex; simpl in Hrun.
  - by simplify_eq.
  - destruct Hall as [Ha Hall].
    destruct (step a d) as [d1|] eqn:Hs; [|done].
    eapply (IH d1); [by eapply Inv_step|done|done|].
    by eapply exact_step.
Qed.

(** *** One call of [dispatch] under any schedule *)

Lemma run_app (tr1 tr2 : list action) :
  ∀ d, run (tr1 ++ tr2) d
       = match run tr1 d with Some d' => run tr2 d' | None => None end.
Proof.
  induction tr1 as [|a tr1 IH]; intros d; simpl; [done|].
  destruct (step a d); [apply IH|done].
Qed.

Lemma handled_step (a : action) (d d' : frameDispatcher) :
  step a d = Some d' →
  handled d' = handled d
  ∨ ∃ i t, tasks d !! i = Some t ∧ t_phase t = Spawned
           ∧ handled d' = handled d ++ [(t_h t, t_f t, refs d !! t_f t)].
Proof.
  intros Hs. destruct a; simpl in Hs.
  - unfold dispatch_call in Hs. repeat case_match; simplify_eq; by left.
  - unfold dispatch_wait in Hs. repeat case_match; simplify_eq; by left.
  - unfold dispatch_iter in Hs. repeat case_match; simplify_eq; by left.
  - unfold dispatch_return in Hs. repeat case_match; simplify_eq; by left.
  - unfold task_start in Hs.
    destruct (tasks d !! i) as [t|] eqn:Hi; [|done].
    destruct (t_phase t) eqn:Hph; [|done|done]. simplify_eq.
    right. by exists i, t.
  - unfold task_end, put in Hs. repeat case_match; simplify_eq; by left.
  - unfold task_done in Hs. repeat case_match; simplify_eq; by left.
  - simplify_eq. by left.
  - simplify_eq. by left.
Qed.

Lemma handled_grows (tr : list action) :
  ∀ d d', run tr d = Some d' → ∃ new, handled d' = handled d ++ new.
Proof.
  induction tr as [|a tr IH]; intros d d' Hrun; simpl in Hrun.
  - simplify_eq. exists []. by rewrite app_nil_r.
  - destruct (step a d) as [d1|] eqn:Hs; [|done].
    destruct (IH d1 d' Hrun) as [new Hnew].
    destruct (handled_step a d d1 Hs) as [H1|(i & t & _ & _ & H1)];
      rewrite Hnew, H1.
    + by exists new.
    + eexists. by rewrite <- app_assoc.
Qed.

Lemma finish_internal (ph : phase) : Forall internal (finish ph).
Proof. destruct ph; repeat constructor. Qed.

(** The goroutine at the head of the list can always run to its end. *)
Lemma finish_head (d : frameDispatcher) (t : task) (ts : list task) :
  tasks d = t :: ts →
  ∃ d', run (finish (t_phase t)) d = Some d'
        ∧ tasks d' = ts ∧ prod d' = prod d.
Proof.
  intros Ht. destruct (t_phase t) eqn:Hph; simpl.
  - unfold task_start. rewrite Ht. simpl. rewrite Hph.
    unfold task_end, put. simpl. unfold task_done. simpl. by eexists.
  - unfold task_end, put. rewrite Ht. simpl. rewrite Hph.
    unfold task_done. simpl. by eexists.
  - unfold task_done. rewrite Ht. simpl. rewrite Hph. by eexists.
Qed.

Lemma drain (n : nat) :
  ∀ d, length (tasks d) = n →
    ∃ tr d', run tr d = Some d' ∧ Forall internal tr
             ∧ tasks d' = [] ∧ prod d' = prod d.
Proof.
  induction n as [|n IH]; intros d Hn.
  - exists [], d. destruct (tasks d); [done|]. done.
  - destruct (tasks d) as [|t ts] eqn:Ht; [done|].
    destruct (finish_head d t ts Ht) as (d1 & Hrun1 & Ht1 & Hp1).
    destruct (IH d1) as (tr & d' & Hrun & Hint & Ht' & Hp').
    { rewrite Ht1. simpl in Hn. lia. }
    exists (finish (t_phase t) ++ tr), d'.
    rewrite run_app, Hrun1. split; [done|]. split.
    + apply Forall_app. split; [apply finish_internal|done].
    + split; [done|congruence].
Qed.

(** Past the wait the producer gets to the return by its own steps, whatever
    the copies return and whatever the goroutines are doing. *)
Lemma loop_returns (l : list FrameHandler) :
  ∀ rets d b desc, prod d = Looping l b desc → length rets = length l →
    ∃ d', run (map AIter rets ++ [AReturn]) d = Some d'.
Proof.
  induction l as [|h l IH]; intros rets d b desc Hp Hlen.
  - destruct rets; [|done]. simpl. unfold dispatch_return. rewrite Hp.
    by eexists.
  - destruct rets as [|r rets]; [done|]. simpl.
    unfold dispatch_iter. rewrite Hp. destruct (get (pool d)).
    destruct (r <? 0);
      (eapply IH; [done|]; simpl in Hlen; lia).
Qed.

(** What a goroutine or a connection does leaves the producer where it is. *)
Lemma bystander_step (a : action) (d d' : frameDispatcher) :
  match a with
  | ATaskStart _ | ATaskEnd _ | ATaskDone _ | AAdd _ | ADel _ => True
  | _ => False
  end →
  step a d = Some d' →
  prod d' = prod d ∧ spawned d' = spawned d ∧ errors d' = errors d.
Proof.
  intros Ha Hs. destruct a; try done; simpl in Hs.
  - unfold task_start in Hs. repeat case_match; by simplify_eq.
  - unfold task_end, put in Hs. repeat case_match; by simplify_eq.
  - unfold task_done in Hs. repeat case_match; by simplify_eq.
  - by simplify_eq.
  - by simplify_eq.
Qed.

(** Outside of [dispatch] nothing but a call gets the producer to return. *)
Lemma idle_stays (tr : list action) :
  ∀ d, prod d = Idle → Forall (λ a, is_call a = false) tr →
    run (tr ++ [AReturn]) d = None.
Proof.
  induction tr as [|a tr IH]; intros d Hp Hall; simpl.
  - unfold dispatch_return. by rewrite Hp.
  - apply Forall_cons in Hall as [Ha Hall].
    destruct (step a d) as [d1|] eqn:Hs; [|done].
    apply IH; [|done].
    destruct a; try done; simpl in Hs.
    + unfold dispatch_wait in Hs. by rewrite Hp in Hs.
    + unfold dispatch_iter in Hs. by rewrite Hp in Hs.
    + unfold dispatch_return in Hs. by rewrite Hp in Hs.
    + by rewrite (proj1 (bystander_step (ATaskStart i) d d1 I Hs)).
    + by rewrite (proj1 (bystander_step (ATaskEnd i) d d1 I Hs)).
    + by rewrite (proj1 (bystander_step (ATaskDone i) d d1 I Hs)).
    + by rewrite (proj1 (bystander_step (AAdd h) d d1 I Hs)).
    + by rewrite (proj1 (bystander_step (ADel h) d d1 I Hs)).
Qed.

(** A goroutine that moves on stays the goroutine it was, and one that
    finishes is gone. *)
Lemma alive_step (a : action) (d d' : frameDispatcher) :
  match a with
  | ATaskStart _ | ATaskEnd _ | ATaskDone _ | AAdd _ | ADel _ => True
  | _ => False
  end →
  step a d = Some d' → alive_hb (tasks d') ⊆+ alive_hb (tasks d).
Proof.
  intros Ha Hs. destruct a; try done; simpl in Hs.
  - unfold task_start in Hs.
    destruct (tasks d !! i) as [t|] eqn:Hi; [|done].
    destruct (t_phase t); [|done|done]. simplify_eq. simpl.
    unfold alive_hb. rewrite list_fmap_insert. simpl.
    rewrite list_insert_id; [done|]. by rewrite list_lookup_fmap, Hi.
  - unfold task_end, put in Hs.
    destruct (tasks d !! i) as [t|] eqn:Hi; [|done].
    destruct (t_phase t); [done| |done]. simplify_eq. simpl.
    unfold alive_hb. rewrite list_fmap_insert. simpl.
    rewrite list_insert_id; [done|]. by rewrite list_lookup_fmap, Hi.
  - unfold task_done in Hs.
    destruct (tasks d !! i) as [t|] eqn:Hi; [|done].
    destruct (t_phase t); [done|done|]. simplify_eq. simpl.
    apply fmap_submseteq, sublist_submseteq, sublist_delete.
  - by simplify_eq.
  - by simplify_eq.
Qed.

(** From inside a call to its return, whatever is scheduled in between: one
    copy per handler still to serve, one goroutine per copy that succeeds, one
    error per copy that fails; and the goroutines alive at the return are
    among those of this call. *)
Lemma call_segment (mid : list action) :
  ∀ d d' b, Inv d → cur (prod d) = Some b →
    Forall (λ a, is_call a = false) mid →
    run (mid ++ [AReturn]) d = Some d' →
    prod d' = Idle
    ∧ length (copies mid) = length (snapshot (prod d))
    ∧ spawned d'
      = spawned d ++ map (λ h, (h, b)) (served (snapshot (prod d)) (copies mid))
    ∧ errors d' = errors d ++ failed (snapshot (prod d)) (copies mid)
    ∧ (∀ t, t ∈ tasks d' → t_b t = b)
    ∧ alive_hb (tasks d')
      ⊆+ match prod d with
         | Looping _ _ _ => alive_hb (tasks d)
         | _ => []
         end ++ map (λ h, (h, b)) (served (snapshot (prod d)) (copies mid)).
Proof.
  induction mid as [|a mid IH]; intros d d' b HI Hb Hall Hrun; simpl in Hrun.
  - destruct (dispatch_return d) as [d1|] eqn:Hs; [|done]. simplify_eq.
    unfold dispatch_return in Hs.
    destruct (prod d) as [| |l b' desc] eqn:Hprod; [done|done|].
    destruct l; [|done]. simplify_eq. simpl in Hb. simplify_eq. simpl.
    rewrite !app_nil_r. repeat split; try done.
    by apply (inv_cur d HI [] b desc).
  - apply Forall_cons in Hall as [Ha Hall].
    destruct (step a d) as [d1|] eqn:Hs; [|done].
    pose proof (Inv_step a d d1 HI Hs) as HI1.
    assert (Hby : prod d1 = prod d → spawned d1 = spawned d →
              errors d1 = errors d → copies (a :: mid) = copies mid →
              alive_hb (tasks d1) ⊆+ alive_hb (tasks d) →
              prod d' = Idle
              ∧ length (copies (a :: mid)) = length (snapshot (prod d))
              ∧ spawned d'
                = spawned d ++ map (λ h, (h, b))
                                 (served (snapshot (prod d)) (copies (a :: mid)))
              ∧ errors d' = errors d
                            ++ failed (snapshot (prod d)) (copies (a :: mid))
              ∧ (∀ t, t ∈ tasks d' → t_b t = b)
              ∧ alive_hb (tasks d')
                ⊆+ match prod d with
                   | Looping _ _ _ => alive_hb (tasks d)
                   | _ => []
                   end ++ map (λ h, (h, b))
                            (served (snapshot (prod d)) (copies (a :: mid)))).
    { intros E1 E2 E3 E4 Hsub. rewrite E4, <- E1, <- E2, <- E3.
      destruct (IH d1 d' b HI1 ltac:(by rewrite E1) Hall Hrun)
        as (H1 & H2 & H3 & H4 & H5 & H6).
      repeat (split; [done|]).
      etrans; [exact H6|]. apply submseteq_skips_r.
      destruct (prod d1); [done|done|exact Hsub]. }
    destruct a; try done; simpl in Hs.
    + (* the wait *)
      unfold dispatch_wait in Hs.
      destruct (prod d) as [|l b' desc|] eqn:Hprod; [done| |done].
      destruct (wg d =? 0) eqn:Hz; [|done]. apply Z.eqb_eq in Hz.
      assert (Ht : tasks d = []).
      { apply drained; [done|by rewrite Hprod|done]. }
      simplify_eq. simpl in Hb. simplify_eq.
      destruct (IH _ d' b HI1 eq_refl Hall Hrun)
        as (H1 & H2 & H3 & H4 & H5 & H6).
      simpl in *. rewrite Ht in H6. done.
    + (* one turn of the loop *)
      unfold dispatch_iter in Hs.
      destruct (prod d) as [| |l b' desc] eqn:Hprod; [done|done|].
      destruct l as [|h0 rest]; [done|].
      destruct (get (pool d)) as [hF pool'].
      simpl in Hb. simplify_eq.
      destruct (ret <? 0) eqn:Hret; simplify_eq;
        destruct (IH _ d' b HI1 eq_refl Hall Hrun)
          as (H1 & H2 & H3 & H4 & H5 & H6);
        simpl in *; rewrite Hret, H2, H3, H4; simpl;
        rewrite <- ?app_assoc; repeat (split; [done|]).
      * exact H6.
      * unfold alive_hb in *. rewrite fmap_app, <- app_assoc in H6. exact H6.
    + (* a return in the middle: the producer would be outside for good *)
      unfold dispatch_return in Hs.
      destruct (prod d) as [| |l b' desc] eqn:Hprod; [done|done|].
      destruct l; [|done]. simplify_eq.
      by rewrite idle_stays in Hrun.
    + destruct (bystander_step (ATaskStart i) d d1 I Hs) as (E1 & E2 & E3).
      apply Hby; try done. by apply (alive_step (ATaskStart i)).
    + destruct (bystander_step (ATaskEnd i) d d1 I Hs) as (E1 & E2 & E3).
      apply Hby; try done. by apply (alive_step (ATaskEnd i)).
    + destruct (bystander_step (ATaskDone i) d d1 I Hs) as (E1 & E2 & E3).
      apply Hby; try done. by apply (alive_step (ATaskDone i)).
    + destruct (bystander_step (AAdd h) d d1 I Hs) as (E1 & E2 & E3).
      apply Hby; try done. by apply (alive_step (AAdd h)).
    + destruct (bystander_step (ADel h) d d1 I Hs) as (E1 & E2 & E3).
      apply Hby; try done. by apply (alive_step (ADel h)).
Qed.

(** *** [dispatch], run by the producer alone *)

Lemma Inv_dispatch_loop (n : nat) :
  ∀ rets d d', Inv d → dispatch_loop n rets d = Some d' → Inv d'.
Proof.
  induction n as [|n IH]; intros rets d d' HI Hl; simpl in Hl.
  - by simplify_eq.
  - destruct (dispatch_iter (hd 0 rets) d) as [d1|] eqn:Hs; [|done].
    eapply IH; [|done]. by eapply Inv_dispatch_iter.
Qed.

Lemma dispatch_loop_spec (l : list FrameHandler) :
  ∀ rets d b desc, prod d = Looping l b desc →
    ∃ d' new,
      dispatch_loop (length l) rets d = Some d'
      ∧ prod d' = Looping [] b desc
      ∧ handled d' = handled d
      ∧ errors d' = errors d ++ failed l rets
      ∧ spawned d' = spawned d ++ map (λ h, (h, b)) (served l rets)
      ∧ tasks d' = tasks d ++ new
      ∧ map t_h new = served l rets
      ∧ Forall (λ t, t_phase t = Spawned) new.
Proof.
  induction l as [|h l IH]; intros rets d b desc Hprod; simpl.
  - exists d, []. by rewrite !app_nil_r.
  - unfold dispatch_iter. rewrite Hprod.
    destruct (get (pool d)) as [hF pool'].
    destruct (hd 0 rets <? 0) eqn:Hret.
    + match goal with |- context [dispatch_loop _ _ ?d1] =>
        destruct (IH (tl rets) d1 b desc eq_refl)
          as (d' & new & Hl & Hp & Hh & He & Hs & Ht & Hm & Hf) end.
      simpl in *. exists d', new. rewrite Hl, He, <- app_assoc. done.
    + match goal with |- context [dispatch_loop _ _ ?d1] =>
        destruct (IH (tl rets) d1 b desc eq_refl)
          as (d' & new & Hl & Hp & Hh & He & Hs & Ht & Hm & Hf) end.
      simpl in *.
      exists d', ({| t_h := h; t_f := hF; t_desc := desc; t_phase := Spawned;
                     t_b := b |} :: new).
      rewrite Hl, Hs, Ht, <- !app_assoc. simpl. rewrite Hm.
      repeat split; try done. by constructor.
Qed.

Lemma held_all (ts : list task) :
  Forall (λ t, t_phase t = Spawned) ts → held ts = map t_f ts.
Proof.
  induction 1 as [|t ts Ht _ IH]; [done|].
  rewrite held_cons, IH. rewrite decide_True; [done|]. by rewrite Ht.
Qed.

Lemma pend_hb_none (ts : list task) : ts = [] → pend_hb ts = [].
Proof. by intros ->. Qed.

(** [dispatch] when nothing else is scheduled during the call.  With no
    handler it returns at once and touches nothing.  With handlers it is
    blocked while the counter is not zero, and returns with one goroutine
    spawned per handler whose copy succeeded, each holding a pooled frame of
    its own that references the data, and none of them having called its
    handler yet. *)
Lemma dispatch_alone
    (d : frameDispatcher) (b : Buf) (desc : Descriptor)
    (order : list FrameHandler) (rets : list Z) :
  reachable d → prod d = Idle → order ≡ₚ (map_to_list (hs d)).*2 →
  (order = [] →
     ∃ d', dispatch b desc order rets d = Some d'
       ∧ prod d' = Idle ∧ tasks d' = tasks d ∧ wg d' = wg d
       ∧ pool d' = pool d ∧ handled d' = handled d ∧ errors d' = errors d)
  ∧ (order ≠ [] → wg d ≠ 0 → dispatch b desc order rets d = None)
  ∧ (order ≠ [] → wg d = 0 →
       ∃ d', dispatch b desc order rets d = Some d'
         ∧ tasks d = []
         ∧ prod d' = Idle
         ∧ handled d' = handled d
         ∧ map t_h (tasks d') = served order rets
         ∧ Forall (λ t, t_phase t = Spawned ∧ refs d' !! t_f t = Some b)
                  (tasks d')
         ∧ NoDup (map t_f (tasks d'))
         ∧ (∀ t, t ∈ tasks d' → t_f t ∉ p (pool d'))
         ∧ wg d' = Z.of_nat (length (served order rets))
         ∧ errors d' = errors d ++ failed order rets
         ∧ spawned d' = spawned d ++ map (λ h, (h, b)) (served order rets))
  ∧ (wg d = 0 → tasks d = [] ∧ handled_hb (handled d) ≡ₚ spawned d).
Proof.
  intros Hreach Hidle Hperm. pose proof (Inv_reachable d Hreach) as HI.
  assert (Hdr : wg d = 0 → tasks d = []).
  { intros Hz. apply drained; [done|by rewrite Hidle|done]. }
  split; [|split; [|split]].
  - intros ->. unfold dispatch, dispatch_call. rewrite Hidle.
    rewrite decide_True by done. eexists. split; [done|]. done.
  - intros Hne Hwg. unfold dispatch, dispatch_call. rewrite Hidle.
    rewrite decide_True by done. destruct order as [|h0 order]; [done|].
    unfold dispatch_wait. simpl. apply Z.eqb_neq in Hwg. by rewrite Hwg.
  - intros Hne Hwg.
    destruct (dispatch_call b desc order d) as [d1|] eqn:H1; cycle 1.
    { unfold dispatch_call in H1. rewrite Hidle in H1.
      by rewrite decide_True in H1 by done. }
    pose proof (Inv_dispatch_call _ _ _ _ _ HI H1) as HI1.
    unfold dispatch. rewrite H1.
    unfold dispatch_call in H1. rewrite Hidle in H1.
    rewrite decide_True in H1 by done.
    destruct order as [|h0 order]; [done|]. simplify_eq.
    set (l := h0 :: order) in *.
    match type of HI1 with Inv ?x => set (d1 := x) in * end.
    destruct (dispatch_wait d1) as [d2|] eqn:H2; cycle 1.
    { unfold dispatch_wait in H2. simpl in H2.
      apply Z.eqb_eq in Hwg. by rewrite Hwg in H2. }
    pose proof (Inv_dispatch_wait _ _ HI1 H2) as HI2.
    unfold dispatch_wait in H2. simpl in H2.
    rewrite (proj2 (Z.eqb_eq _ _) Hwg) in H2. simplify_eq.
    match type of HI2 with Inv ?x => set (d2 := x) in * end.
    destruct (dispatch_loop_spec l rets d2 b desc eq_refl)
      as (d3 & new & Hl & Hp & Hh & He & Hs & Ht & Hm & Hf).
    pose proof (Inv_dispatch_loop _ _ _ _ HI2 Hl) as HI3.
    fold l. rewrite Hl. unfold dispatch_return. rewrite Hp.
    eexists. split; [done|]. simpl in *.
    rewrite (Hdr Hwg) in Ht. simpl in Ht.
    pose proof (inv_frames d3 HI3) as Hfr.
    rewrite Ht, (held_all _ Hf) in Hfr.
    apply frames_fresh in Hfr as [Hnd _].
    apply NoDup_app in Hnd as (_ & Hdis & Hnd).
    apply NoDup_app in Hnd as (Hnd & _ & _).
    rewrite Ht, Hm, Hh, He, Hs.
    split; [by apply Hdr|]. repeat split; try done.
    + apply Forall_forall. intros t Hin. split.
      * by apply (proj1 (Forall_forall _ _) Hf).
      * rewrite (inv_refs d3 HI3 t).
        -- f_equal. eapply (inv_cur d3 HI3); [done|]. by rewrite Ht.
        -- by rewrite Ht.
        -- by rewrite (proj1 (Forall_forall _ _) Hf t Hin).
    + intros t Hin Hp'. apply (Hdis _ Hp'). apply elem_of_app. left.
      apply list_elem_of_fmap. by exists t.
    + rewrite (inv_wg d3 HI3), Ht, Hp. simpl.
      by rewrite <- Hm, length_map, Nat.add_0_r.
  - intros Hwg. split; [by apply Hdr|].
    pose proof (inv_spawn d HI) as Hsp.
    by rewrite (Hdr Hwg), (pend_hb_none []), app_nil_r in Hsp.
Qed.

Lemma d2_reachable : reachable DispatcherExamples.d2.
Proof. by exists [AAdd DispatcherExamples.h1; AAdd DispatcherExamples.h2]. Qed.

(** C1 (as amended). [dispatch] returns as soon as the fan-out is set up,
    not when the handlers are done, and this under every schedule of the
    goroutines.  With no handler it returns at once and touches nothing.  A
    call with handlers makes one copy per handler of its snapshot, spawns one
    goroutine per copy that succeeds and emits one error per copy that fails,
    and returns with the counter at the number of goroutines still alive, all
    of them its own: at that moment every handler served has been called once
    or its goroutine has still to call it, never more.  In every state the
    frames held by the goroutines alive are distinct, off the free list, and
    reference the data of their call; and when the counter is zero no
    goroutine is left and the handlers have been called exactly once per
    goroutine spawned.  A call always has a way to its return: the wait is
    over once the goroutines of earlier calls have finished, and from there
    the producer gets to the return by its own steps, whatever the copies
    return. *)
Theorem C1_dispatch_returns_after_spawning
    (d : frameDispatcher) (b : Buf) (desc : Descriptor)
    (order : list FrameHandler) :
  reachable d →
  (prod d = Idle → hs d = ∅ →
     ∃ d', dispatch_call b desc [] d = Some d'
       ∧ prod d' = Idle ∧ tasks d' = tasks d ∧ wg d' = wg d
       ∧ pool d' = pool d ∧ handled d' = handled d ∧ errors d' = errors d
       ∧ spawned d' = spawned d)
  ∧ (prod d = Idle → ∀ mid d',
       Forall (λ a, is_call a = false) mid →
       run (ACall b desc order :: mid ++ [AReturn]) d = Some d' →
       order ≠ [] ∧ NoDup order
       ∧ length (copies mid) = length order
       ∧ prod d' = Idle
       ∧ spawned d'
         = spawned d ++ map (λ h, (h, b)) (served order (copies mid))
       ∧ errors d' = errors d ++ failed order (copies mid)
       ∧ wg d' = Z.of_nat (length (tasks d'))
       ∧ (∀ t, t ∈ tasks d' → t_b t = b)
       ∧ alive_hb (tasks d') ⊆+ map (λ h, (h, b)) (served order (copies mid))
       ∧ ∃ new, handled d' = handled d ++ new
           ∧ handled_hb new ++ pend_hb (tasks d')
             ≡ₚ pend_hb (tasks d)
                ++ map (λ h, (h, b)) (served order (copies mid)))
  ∧ (prod d = Idle → order ≡ₚ (map_to_list (hs d)).*2 → order ≠ [] →
     ∀ rets, length rets = length order →
       ∃ pre d', Forall internal pre
         ∧ run (ACall b desc order :: (pre ++ AWait :: map AIter rets)
                                   ++ [AReturn]) d = Some d')
  ∧ (NoDup (held (tasks d))
     ∧ (∀ f, f ∈ held (tasks d) → f ∉ p (pool d))
     ∧ (∀ t, t ∈ tasks d → t_phase t ≠ Released →
          refs d !! t_f t = Some (t_b t)))
  ∧ (wg d = 0 → tasks d = [] ∧ handled_hb (handled d) ≡ₚ spawned d).
Proof.
  intros Hreach. pose proof (Inv_reachable d Hreach) as HI.
  split; [|split; [|split; [|split]]].
  - intros Hidle Hemp. unfold dispatch_call. rewrite Hidle, Hemp.
    rewrite map_to_list_empty. rewrite decide_True by done.
    eexists. split; [done|]. done.
  - intros Hidle mid d' Hall Hrun. simpl in Hrun.
    destruct (dispatch_call b desc order d) as [d1|] eqn:H1; [|done].
    pose proof (Inv_dispatch_call _ _ _ _ _ HI H1) as HI1.
    unfold dispatch_call in H1. rewrite Hidle in H1.
    case_decide as Hperm; [|done].
    destruct order as [|h0 order].
    { simplify_eq. by rewrite idle_stays in Hrun. }
    simplify_eq. set (l := h0 :: order) in *.
    match type of HI1 with Inv ?x => set (d1 := x) in * end.
    destruct (call_segment mid d1 d' b HI1 eq_refl Hall Hrun)
      as (Hp & Hlen & Hsp & Her & Hmine & Halive).
    change (snapshot (prod d1)) with l in *.
    change (spawned d1) with (spawned d) in *.
    change (errors d1) with (errors d) in *.
    assert (HI' : Inv d').
    { eapply Inv_run; [exact HI1|]. exact Hrun. }
    split; [done|]. split; [apply (inv_snap d1 HI1)|].
    split; [done|]. split; [done|]. split; [done|]. split; [done|].
    split. { rewrite (inv_wg d' HI'), Hp. simpl. by rewrite Nat.add_0_r. }
    split; [done|]. split; [exact Halive|].
    destruct (handled_grows _ _ _ Hrun) as [new Hnew].
    change (handled d1) with (handled d) in Hnew.
    exists new. split; [done|].
    pose proof (inv_spawn d' HI') as S'. pose proof (inv_spawn d HI) as S0.
    rewrite Hnew, Hsp, <- S0 in S'. unfold handled_hb in *.
    rewrite omap_app, <- !app_assoc in S'.
    by apply Permutation_app_inv_l in S'.
  - intros Hidle Hperm Hne rets Hlen.
    destruct (dispatch_call b desc order d) as [d1|] eqn:H1; cycle 1.
    { unfold dispatch_call in H1. rewrite Hidle in H1.
      by rewrite decide_True in H1 by done. }
    pose proof (Inv_dispatch_call _ _ _ _ _ HI H1) as HI1.
    assert (Hp1 : prod d1 = Waiting order b desc).
    { unfold dispatch_call in H1. rewrite Hidle in H1.
      rewrite decide_True in H1 by done. simplify_eq. simpl.
      by destruct order. }
    destruct (drain _ d1 eq_refl) as (pre & d2 & Hrun2 & Hint & Ht2 & Hp2).
    pose proof (Inv_run _ _ _ HI1 Hrun2) as HI2.
    assert (Hwg2 : wg d2 = 0).
    { rewrite (inv_wg d2 HI2), Ht2, Hp2, Hp1. done. }
    destruct (dispatch_wait d2) as [d3|] eqn:H3; cycle 1.
    { unfold dispatch_wait in H3. by rewrite Hp2, Hp1, Hwg2 in H3. }
    assert (Hp3 : prod d3 = Looping order b desc).
    { unfold dispatch_wait in H3. rewrite Hp2, Hp1, Hwg2 in H3.
      simpl in H3. by simplify_eq. }
    destruct (loop_returns order rets d3 b desc Hp3 Hlen) as (d' & Hrun').
    exists pre, d'. split; [done|].
    simpl. rewrite H1, <- app_assoc, run_app, Hrun2. simpl. by rewrite H3.
  - pose proof (inv_frames d HI) as Hfr.
    apply frames_fresh in Hfr as [Hnd _].
    apply NoDup_app in Hnd as (_ & Hdis & Hnd).
    apply NoDup_app in Hnd as (Hnd & _ & _).
    split; [done|]. split; [|apply (inv_refs d HI)].
    intros f Hf Hp. apply (Hdis _ Hp). apply elem_of_app. by left.
  - intros Hwg. pose proof (inv_wg d HI) as Hw. rewrite Hwg in Hw.
    assert (Ht : tasks d = []).
    { destruct (tasks d); [done|]. simpl in Hw. lia. }
    split; [done|].
    pose proof (inv_spawn d HI) as Hsp.
    by rewrite Ht, (pend_hb_none []), app_nil_r in Hsp.
Qed.

Lemma C1_dispatch_returns_after_spawning_witness :
  ∃ d', run (ACall 7%nat DispatcherExamples.desc
               [DispatcherExamples.h1; DispatcherExamples.h2]
             :: DispatcherExamples.eager_call ++ [AReturn])
            DispatcherExamples.d2 = Some d'
    ∧ prod d' = Idle
    ∧ spawned d'
      = [(DispatcherExamples.h1, 7%nat); (DispatcherExamples.h2, 7%nat)]
    ∧ errors d' = []
    ∧ wg d' = Z.of_nat (length (tasks d'))
    ∧ (∀ t, t ∈ tasks d' → t_b t = 7%nat).
Proof.
  eexists. split; [vm_compute; reflexivity|].
  match goal with |- prod ?d' = _ ∧ _ =>
    pose proof (proj1 (proj2
      (C1_dispatch_returns_after_spawning DispatcherExamples.d2 7%nat
         DispatcherExamples.desc
         [DispatcherExamples.h1; DispatcherExamples.h2] d2_reachable))
      eq_refl DispatcherExamples.eager_call d')
      as Hcall end.
  destruct Hcall as (_ & _ & _ & Hp & Hs & He & Hw & Hm & _ & _).
  - unfold DispatcherExamples.eager_call.
    repeat (apply Forall_cons; split; [reflexivity|]). apply Forall_nil. done.
  - vm_compute. reflexivity.
  - split; [exact Hp|]. split; [exact Hs|]. split; [exact He|].
    split; [exact Hw | exact Hm].
Defined.

(** C1 as stated fails.  [dispatch] has returned and the handler of its
    snapshot has not been called; a handler whose copy fails is not called at
    all; and when the goroutine of the first handler has finished before the
    loop gets to the second, the second handler is handed the very frame the
    first was handed. *)
Lemma C1_counterexample :
  (∃ d', dispatch 7%nat DispatcherExamples.desc [DispatcherExamples.h1] [0]
                  DispatcherExamples.d1 = Some d'
     ∧ prod d' = Idle
     ∧ handled d' = []
     ∧ map (λ t, (t_h t, t_phase t)) (tasks d')
       = [(DispatcherExamples.h1, Spawned)]
     ∧ wg d' = 1)
  ∧ (∃ d', dispatch 7%nat DispatcherExamples.desc [DispatcherExamples.h1]
                    [Native.AVERROR_ENOMEM] DispatcherExamples.d1 = Some d'
       ∧ prod d' = Idle ∧ wg d' = 0 ∧ tasks d' = [] ∧ handled d' = []
       ∧ errors d' = [Native.AVERROR_ENOMEM])
  ∧ (∃ d', run (ACall 7%nat DispatcherExamples.desc
                  [DispatcherExamples.h1; DispatcherExamples.h2]
                :: DispatcherExamples.eager_call ++ [AReturn])
               DispatcherExamples.d2 = Some d'
       ∧ prod d' = Idle
       ∧ handled d' = [(DispatcherExamples.h1, 0%nat, Some 7%nat)]
       ∧ map (λ t, (t_h t, t_f t, t_phase t)) (tasks d')
         = [(DispatcherExamples.h2, 0%nat, Spawned)]
       ∧ wg d' = 1).
Proof.
  split; [|split]; (eexists; split; [vm_compute; reflexivity|]); by vm_compute.
Qed.

(** C2 (as amended). The fan-out of a call begins only when no goroutine of
    an earlier call is left, and while it goes on every goroutine alive
    belongs to it; so what a handler is handed is a subsequence of the calls
    of [dispatch], in their order, and a prefix of them as long as the handler
    is in the snapshot of every call and no copy made for it fails, whatever
    becomes of the copies made for the other handlers. *)
Theorem C2_barrier_and_order (tr : list action) (d : frameDispatcher) :
  run tr newFrameDispatcher = Some d →
  (∀ d', dispatch_wait d = Some d' → tasks d = [] ∧ tasks d' = [])
  ∧ (∀ l b desc, prod d = Looping l b desc →
       last (calls d) = Some b ∧ ∀ t, t ∈ tasks d → t_b t = b)
  ∧ (∀ h, received h (handled d) `sublist_of` calls d)
  ∧ (∀ h, always_served h tr newFrameDispatcher →
       received h (handled d) `prefix_of` calls d).
Proof.
  intros Hrun. assert (HI : Inv d) by (apply Inv_reachable; by exists tr).
  split; [|split; [|split]].
  - intros d' Hw. unfold dispatch_wait in Hw.
    destruct (prod d) eqn:Hprod; [done| |done].
    destruct (wg d =? 0) eqn:Hz; [|done]. apply Z.eqb_eq in Hz.
    assert (tasks d = []) by (apply drained; [done|by rewrite Hprod|done]).
    by simplify_eq.
  - intros l b desc Hprod. split.
    + apply (inv_calls d HI). by rewrite Hprod.
    + by apply (inv_cur d HI l b desc).
  - intros h. etrans; [|apply prefix_is_sublist, (visible_prefix h d)].
    etrans; [|apply (inv_order d HI h)]. by apply sublist_inserts_r.
  - intros h Hall. etrans; [|apply (visible_prefix h d)].
    rewrite <- (exact_run h tr newFrameDispatcher d Inv_init Hall Hrun eq_refl).
    by apply prefix_app_r.
Qed.

Lemma C2_barrier_and_order_witness :
  ∃ d, run DispatcherExamples.partial_trace newFrameDispatcher = Some d
    ∧ errors d = [Native.AVERROR_ENOMEM]
    ∧ received DispatcherExamples.h1 (handled d) `sublist_of` calls d
    ∧ received DispatcherExamples.h1 (handled d) `prefix_of` calls d.
Proof.
  eexists. split; [vm_compute; reflexivity|]. split; [reflexivity|].
  match goal with |- _ `sublist_of` calls ?d ∧ _ =>
    pose proof (C2_barrier_and_order DispatcherExamples.partial_trace d eq_refl)
      as (_ & _ & Hs & Hp) end.
  split; [apply Hs|]. apply Hp.
  vm_compute.
  repeat (split; [first [exact I | by left | by intros [=] | done]|]).
  exact I.
Defined.

(** C2 as stated fails: [h1] is connected throughout, the copy of the first
    frame fails, and what [h1] is handed, the second frame alone, is not a
    prefix of the frames dispatched. *)
Lemma C2_counterexample :
  ∃ d, run DispatcherExamples.lossy_trace newFrameDispatcher = Some d
    ∧ hs d = {[ "h1" := DispatcherExamples.h1 ]}
    ∧ calls d = [1; 2]%nat
    ∧ received DispatcherExamples.h1 (handled d) = [2]%nat
    ∧ ¬ received DispatcherExamples.h1 (handled d) `prefix_of` calls d.
Proof.
  eexists. split; [vm_compute; reflexivity|].
  split; [done|]. split; [done|]. split; [done|].
  intros [k Hk]. vm_compute in Hk. discriminate Hk.
Qed.

(** *** Frames that are not put back *)

Lemma lost_step (a : action) (d d' : frameDispatcher) (x : FrameId) :
  step a d = Some d' → x ∈ lost d → x ∈ lost d'.
Proof.
  intros Hstep Hx. destruct a; simpl in Hstep.
  - unfold dispatch_call in Hstep. repeat case_match; by simplify_eq.
  - unfold dispatch_wait in Hstep. repeat case_match; by simplify_eq.
  - unfold dispatch_iter in Hstep.
    repeat case_match; simplify_eq; simpl; [by right|done].
  - unfold dispatch_return in Hstep. repeat case_match; by simplify_eq.
  - unfold task_start in Hstep. repeat case_match; by simplify_eq.
  - unfold task_end, put in Hstep. repeat case_match; by simplify_eq.
  - unfold task_done in Hstep. repeat case_match; by simplify_eq.
  - by simplify_eq.
  - by simplify_eq.
Qed.

Lemma lost_run (tr : list action) (x : FrameId) :
  ∀ d d', run tr d = Some d' → x ∈ lost d → x ∈ lost d'.
Proof.
  induction tr as [|a tr IH]; intros d d' Hrun Hx; simpl in Hrun.
  - by simplify_eq.
  - destruct (step a d) as [d1|] eqn:Hs; [|done].
    eapply IH; [done|]. by eapply lost_step.
Qed.

Lemma lost_for_good (d : frameDispatcher) (x : FrameId) :
  Inv d → x ∈ lost d → (x ∉ p (pool d)) ∧ (x ∉ held (tasks d)).
Proof.
  intros HI Hx. destruct (frames_fresh _ _ (inv_frames d HI)) as [Hnd _].
  apply NoDup_app in Hnd as (_ & H1 & Hnd).
  apply NoDup_app in Hnd as (_ & H2 & _).
  split; intros Hin.
  - apply (H1 _ Hin). apply elem_of_app. by right.
  - by apply (H2 _ Hin).
Qed.

(** C3 (what the code does). When [AvFrameRef] fails, the frame [dispatch]
    got from the pool is not put back: it is neither free nor held by a
    goroutine from then on, whatever happens next; [HandleFrame] of the
    forwarder loses its frame the same way, while the path on which the copy
    succeeds puts it back. *)
Theorem C3_frame_not_put_back_when_copy_fails :
  (∀ d ret d', reachable d → ret < 0 → dispatch_iter ret d = Some d' →
     fst (get (pool d)) ∈ lost d'
     ∧ errors d' = errors d ++ [ret]
     ∧ ∀ tr d'', run tr d' = Some d'' →
         (fst (get (pool d)) ∉ p (pool d''))
         ∧ (fst (get (pool d)) ∉ held (tasks d'')))
  ∧ (∃ d', dispatch 7%nat DispatcherExamples.desc [DispatcherExamples.h1]
                    [Native.AVERROR_ENOMEM] DispatcherExamples.d1 = Some d'
       ∧ quiet d' ∧ wg d' = 0 ∧ errors d' = [Native.AVERROR_ENOMEM]
       ∧ allocs (pool d') = 1%nat ∧ p (pool d') = [] ∧ lost d' = [0%nat])
  ∧ (let f := Forwarder.HandleFrame Native.AVERROR_ENOMEM 7%nat
                DispatcherExamples.desc Forwarder.NewForwarder in
     allocs (Forwarder.fp f) = 1%nat ∧ p (Forwarder.fp f) = []
     ∧ Forwarder.fc f = [] ∧ Forwarder.ferrors f = [Native.AVERROR_ENOMEM])
  ∧ (let f := Forwarder.consume_one
                (Forwarder.HandleFrame 0 7%nat DispatcherExamples.desc
                   Forwarder.NewForwarder) in
     allocs (Forwarder.fp f) = 1%nat ∧ p (Forwarder.fp f) = [0%nat]
     ∧ Forwarder.dispatched f = [(Some 7%nat, DispatcherExamples.desc)]).
Proof.
  split; [|split; [|split]].
  - intros d ret d' Hreach Hret Hstep.
    pose proof (Inv_reachable d Hreach) as HI.
    pose proof (Inv_dispatch_iter _ _ _ HI Hstep) as HI'.
    assert (Hlost : fst (get (pool d)) ∈ lost d' ∧ errors d' = errors d ++ [ret]).
    { unfold dispatch_iter in Hstep.
      destruct (prod d) as [| |l b desc]; [done|done|].
      destruct l; [done|]. destruct (get (pool d)) as [hF pool'].
      apply Z.ltb_lt in Hret. rewrite Hret in Hstep. simplify_eq. simpl.
      split; [by left|done]. }
    destruct Hlost as [Hlost Herr]. split; [done|]. split; [done|].
    intros tr d'' Hrun. apply lost_for_good.
    + by eapply Inv_run.
    + by eapply lost_run.
  - eexists. split; [vm_compute; reflexivity|]. by vm_compute.
  - by vm_compute.
  - by vm_compute.
Qed.

Lemma C3_frame_not_put_back_when_copy_fails_witness :
  ∃ d d',
    run [AAdd DispatcherExamples.h1;
         ACall 7%nat DispatcherExamples.desc [DispatcherExamples.h1]; AWait]
        newFrameDispatcher = Some d
    ∧ dispatch_iter Native.AVERROR_ENOMEM d = Some d'
    ∧ 0%nat ∈ lost d'
    ∧ errors d' = [Native.AVERROR_ENOMEM]
    ∧ ∀ tr d'', run tr d' = Some d'' →
        (0%nat ∉ p (pool d'')) ∧ (0%nat ∉ held (tasks d'')).
Proof.
  eexists. eexists.
  split; [vm_compute; reflexivity|]. split; [vm_compute; reflexivity|].
  match goal with |- _ ∈ lost ?d' ∧ _ =>
    exact (proj1 C3_frame_not_put_back_when_copy_fails
             {| hs := hs DispatcherExamples.d1; pool := newFramePool;
                refs := ∅; wg := 1; tasks := []; errors := [];
                prod := Looping [DispatcherExamples.h1] 7%nat
                                DispatcherExamples.desc;
                handled := []; calls := [7%nat]; spawned := []; lost := [] |}
             Native.AVERROR_ENOMEM d'
             (ex_intro _ [AAdd DispatcherExamples.h1;
                          ACall 7%nat DispatcherExamples.desc
                                [DispatcherExamples.h1]; AWait] eq_refl)
             eq_refl eq_refl)
  end.
Defined.

End DispatcherFacts.

(** * More of the code *)

Module WorkflowPoolMore.
Import WorkflowPool WorkflowPoolRuns.

Lemma built_snoc (l : list Workflow) (w : Workflow) :
  built (l ++ [w]) = AddWorkflow (built l) w.
Proof. unfold built. by rewrite foldl_snoc. Qed.

Lemma keyed_built (l : list Workflow) : keyed (built l).
Proof.
  induction l as [|w l IH] using rev_ind.
  - intros k w Hk. unfold built in Hk. simpl in Hk.
    by rewrite lookup_empty in Hk.
  - rewrite built_snoc. intros k w' Hk. unfold AddWorkflow in Hk. simpl in Hk.
    destruct (decide (name w = k)) as [<-|Hne].
    + rewrite lookup_insert_eq in Hk. by simplify_eq.
    + rewrite lookup_insert_ne in Hk by done. by apply IH.
Qed.

(** X1. Over a whole history of [AddWorkflow] calls, [Workflow] returns the
    workflow added last under the name asked for, and the not-found error when
    none was added under it. *)
Theorem Workflow_returns_last_added (l : list Workflow) (n : string) :
  Workflow_ (built l) n
  = match last (filter (λ w, name w = n) l) with
    | Some w => (Some w, None)
    | None => (None, Some ErrWorkflowNotFound)
    end.
Proof.
  induction l as [|w l IH] using rev_ind.
  - done.
  - rewrite built_snoc, filter_app, filter_cons, filter_nil.
    destruct (decide (name w = n)) as [<-|Hne].
    + rewrite last_snoc. unfold Workflow_, AddWorkflow. simpl.
      by rewrite lookup_insert_eq.
    + rewrite app_nil_r, <- IH. unfold Workflow_, AddWorkflow. simpl.
      by rewrite lookup_insert_ne.
Qed.

(** X2. [Workflows] lists exactly the workflows that [Workflow] finds, each
    once: no two workflows of the list have the same name, and the list is
    never longer than the history of additions. *)
Theorem Workflows_lists_what_Workflow_finds (l : list Workflow) :
  (∀ w, w ∈ Workflows (built l)
        ↔ Workflow_ (built l) (name w) = (Some w, None))
  ∧ NoDup (name <$> Workflows (built l))
  ∧ (length (Workflows (built l)) ≤ length l)%nat.
Proof.
  pose proof (keyed_built l) as Hk. split; [|split].
  - intros w. unfold Workflows, Workflow_. split.
    + intros Hin. apply list_elem_of_fmap in Hin as ([k w'] & -> & Hin).
      apply elem_of_map_to_list in Hin. simpl.
      rewrite (Hk _ _ Hin). by rewrite Hin.
    + intros Hw. destruct (ws (built l) !! name w) as [w'|] eqn:Hl; [|done].
      simplify_eq. apply list_elem_of_fmap. exists (name w, w).
      split; [done|]. by apply elem_of_map_to_list.
  - unfold Workflows.
    replace (name <$> (map_to_list (ws (built l))).*2)
      with ((map_to_list (ws (built l))).*1).
    { apply NoDup_fst_map_to_list. }
    assert (Hall : ∀ kw, kw ∈ map_to_list (ws (built l)) → kw.1 = name kw.2).
    { intros [k w] Hkw. apply elem_of_map_to_list in Hkw. simpl.
      symmetry. by apply Hk. }
    induction (map_to_list (ws (built l))) as [|kw m IH]; [done|].
    simpl. rewrite Hall by left. f_equal. apply IH.
    intros ? ?. apply Hall. by right.
  - unfold Workflows. rewrite length_fmap, length_map_to_list.
    clear Hk. induction l as [|w l IH] using rev_ind.
    + unfold built. simpl. by rewrite map_size_empty.
    + rewrite built_snoc, length_app. unfold AddWorkflow. simpl.
      rewrite map_size_insert. destruct (ws (built l) !! name w); simpl; lia.
Qed.

Lemma keyed_AddWorkflow (wp : WorkflowPool) (w : Workflow) :
  keyed wp → keyed (AddWorkflow wp w).
Proof.
  intros Hk k w' Hl. unfold AddWorkflow in Hl. simpl in Hl.
  destruct (decide (name w = k)) as [<-|Hne].
  - rewrite lookup_insert_eq in Hl. by simplify_eq.
  - rewrite lookup_insert_ne in Hl by done. by apply Hk.
Qed.

Lemma Workflows_elem (wp : WorkflowPool) (w : Workflow) :
  keyed wp → w ∈ Workflows wp ↔ ws wp !! name w = Some w.
Proof.
  intros Hk. unfold Workflows. split.
  - intros Hin. apply list_elem_of_fmap in Hin as ([k w'] & -> & Hin).
    apply elem_of_map_to_list in Hin. simpl. by rewrite (Hk _ _ Hin).
  - intros Hl. apply list_elem_of_fmap. exists (name w, w).
    split; [done|]. by apply elem_of_map_to_list.
Qed.

(** X3. Adding a workflow replaces whatever was registered under its name:
    the name then finds the workflow added, the list holds it and no other
    workflow of that name, and the list is as long as before; under a new
    name the list is one longer.  In both cases every other name still finds
    what it found, every other workflow listed stays listed, and adding the
    same workflow again changes nothing. *)
Theorem AddWorkflow_replaces_or_extends (wp : WorkflowPool) (w : Workflow) :
  Workflow_ (AddWorkflow wp w) (name w) = (Some w, None)
  ∧ w ∈ Workflows (AddWorkflow wp w)
  ∧ (keyed wp →
       (∀ w0, w0 ∈ Workflows (AddWorkflow wp w) → name w0 = name w → w0 = w)
       ∧ (∀ w0, name w0 ≠ name w →
            w0 ∈ Workflows (AddWorkflow wp w) ↔ w0 ∈ Workflows wp))
  ∧ length (Workflows (AddWorkflow wp w))
    = (if decide (is_Some (ws wp !! name w)) then length (Workflows wp)
       else S (length (Workflows wp)))
  ∧ (∀ n, n ≠ name w → Workflow_ (AddWorkflow wp w) n = Workflow_ wp n)
  ∧ AddWorkflow (AddWorkflow wp w) w = AddWorkflow wp w.
Proof.
  split; [|split; [|split; [|split; [|split]]]].
  - unfold Workflow_, AddWorkflow. simpl. by rewrite lookup_insert_eq.
  - unfold Workflows, AddWorkflow. simpl. apply list_elem_of_fmap.
    exists (name w, w). split; [done|].
    apply elem_of_map_to_list. by rewrite lookup_insert_eq.
  - intros Hk. pose proof (keyed_AddWorkflow wp w Hk) as Hk'. split.
    + intros w0 Hin Hn. apply (Workflows_elem _ _ Hk') in Hin.
      unfold AddWorkflow in Hin. simpl in Hin.
      rewrite Hn, lookup_insert_eq in Hin. by simplify_eq.
    + intros w0 Hn.
      rewrite (Workflows_elem _ _ Hk'), (Workflows_elem _ _ Hk).
      unfold AddWorkflow. simpl. by rewrite lookup_insert_ne.
  - unfold Workflows, AddWorkflow. simpl.
    rewrite !length_fmap, !length_map_to_list, map_size_insert.
    destruct (ws wp !! name w) eqn:Hl.
    + by rewrite decide_True by done.
    + rewrite decide_False; [done|]. by intros [? ?].
  - intros n Hn. unfold Workflow_, AddWorkflow. simpl.
    by rewrite lookup_insert_ne.
  - unfold AddWorkflow. simpl. f_equal. apply insert_insert_eq.
Qed.

Lemma AddWorkflow_replaces_or_extends_witness :
  let old := {| name := "a"; wf_id := 0 |} in
  let new := {| name := "a"; wf_id := 1 |} in
  let other := {| name := "b"; wf_id := 2 |} in
  let wp := built [old; other] in
  Workflow_ (AddWorkflow wp new) "a" = (Some new, None)
  ∧ (old ∉ Workflows (AddWorkflow wp new))
  ∧ other ∈ Workflows (AddWorkflow wp new)
  ∧ length (Workflows (AddWorkflow wp new)) = length (Workflows wp)
  ∧ Workflow_ (AddWorkflow wp new) "b" = Workflow_ wp "b".
Proof.
  intros old new other wp.
  pose proof (AddWorkflow_replaces_or_extends wp new)
    as (H1 & _ & H3 & H4 & H5 & _).
  destruct (H3 (keyed_built [old; other])) as [Hone Hrest].
  split; [exact H1|]. split; [|split; [|split]].
  - intros Hin. specialize (Hone old Hin eq_refl). discriminate Hone.
  - apply (Hrest other); [discriminate|]. vm_compute. right. left.
  - exact H4.
  - apply H5. discriminate.
Defined.

End WorkflowPoolMore.

Module DispatcherMore.
Import FrameDispatcher FrameDispatcherRuns DispatcherFacts.

(** X4. In every state the dispatcher can get to, each frame allocated is
    free, or held by exactly one goroutine, or was lost to a failed copy, and
    never two of these; and the frame of a goroutine that has not put it back
    still references the data of the dispatch that spawned it. *)
Theorem frames_never_shared (d : frameDispatcher) :
  reachable d →
  NoDup (p (pool d) ++ held (tasks d) ++ lost d)
  ∧ (∀ x, x ∈ p (pool d) ++ held (tasks d) ++ lost d → (x < allocs (pool d))%nat)
  ∧ (length (p (pool d)) + length (held (tasks d)) + length (lost d)
     = allocs (pool d))%nat
  ∧ (∀ t, t ∈ tasks d → t_phase t ≠ Released →
       refs d !! t_f t = Some (t_b t)).
Proof.
  intros Hr. pose proof (Inv_reachable d Hr) as HI.
  pose proof (inv_frames d HI) as Hfr.
  destruct (frames_fresh _ _ Hfr) as [Hnd Hlt].
  split; [done|]. split; [done|]. split.
  - apply Permutation_length in Hfr.
    rewrite !length_app, length_seq in Hfr. lia.
  - apply (inv_refs d HI).
Qed.

Lemma frames_never_shared_witness :
  ∃ d, run DispatcherExamples.clean_trace newFrameDispatcher = Some d
    ∧ NoDup (p (pool d) ++ held (tasks d) ++ lost d)
    ∧ (length (p (pool d)) + length (held (tasks d)) + length (lost d)
       = allocs (pool d))%nat.
Proof.
  eexists. split; [vm_compute; reflexivity|].
  match goal with |- NoDup (p (pool ?d) ++ _) ∧ _ =>
    pose proof (frames_never_shared d
                  (ex_intro _ DispatcherExamples.clean_trace eq_refl))
      as (H1 & _ & H3 & _) end.
  split; [exact H1 | exact H3].
Defined.

(** X5. The counter of the work group is the number of goroutines that have
    not finished plus the number of handlers the loop has still to serve: it
    is never negative, so [Done] never panics, and it is zero exactly when
    nothing of any dispatch is left to do. *)
Theorem wg_counts_unfinished_work (d : frameDispatcher) :
  reachable d →
  wg d = Z.of_nat (length (tasks d) + length (remaining (prod d)))
  ∧ 0 ≤ wg d
  ∧ (wg d = 0 ↔ tasks d = [] ∧ remaining (prod d) = [])
  ∧ (∀ i d', task_done i d = Some d' → 0 ≤ wg d' ∧ wg d' = wg d - 1).
Proof.
  intros Hr. pose proof (Inv_reachable d Hr) as HI.
  pose proof (inv_wg d HI) as Hwg.
  split; [done|]. split; [lia|]. split; [split|].
  - intros Hz. rewrite Hz in Hwg.
    destruct (tasks d), (remaining (prod d)); simpl in Hwg; try lia. done.
  - intros [Ht Hrem]. by rewrite Hwg, Ht, Hrem.
  - intros i d' Hd. pose proof (Inv_task_done i d d' HI Hd) as HI'.
    pose proof (inv_wg d' HI') as Hwg'. split; [lia|].
    unfold task_done in Hd. repeat case_match; by simplify_eq.
Qed.

Lemma wg_counts_unfinished_work_witness :
  ∃ d, run DispatcherExamples.clean_trace newFrameDispatcher = Some d
    ∧ wg d = Z.of_nat (length (tasks d) + length (remaining (prod d)))
    ∧ 0 ≤ wg d.
Proof.
  eexists. split; [vm_compute; reflexivity|].
  match goal with |- wg ?d = _ ∧ _ =>
    pose proof (wg_counts_unfinished_work d
                  (ex_intro _ DispatcherExamples.clean_trace eq_refl))
      as (H1 & H2 & _) end.
  split; [exact H1 | exact H2].
Defined.

(** *** What the handlers are handed *)


Lemma handed_data_step (a : action) (d d' : frameDispatcher) :
  Inv d → step a d = Some d' →
  Forall (λ e, is_Some e.2) (handled d) →
  Forall (λ e, is_Some e.2) (handled d').
Proof.
  intros HI Hs Hall.
  destruct (handled_step a d d' Hs) as [->|(i & t & Hi & Hph & ->)]; [done|].
  apply Forall_app. split; [done|]. apply Forall_singleton. simpl.
  rewrite (inv_refs d HI t); [done| |by rewrite Hph].
  by eapply list_elem_of_lookup_2.
Qed.

Lemma spawned_of_calls_step (a : action) (d d' : frameDispatcher) :
  Inv d → step a d = Some d' →
  Forall (λ hb, hb.2 ∈ calls d) (spawned d) →
  Forall (λ hb, hb.2 ∈ calls d') (spawned d').
Proof.
  intros HI Hs Hall. destruct a; simpl in Hs.
  - unfold dispatch_call in Hs. repeat case_match; simplify_eq; simpl;
      (eapply Forall_impl; [done|]); intros ? ?; apply elem_of_app; by left.
  - unfold dispatch_wait in Hs. repeat case_match; by simplify_eq.
  - unfold dispatch_iter in Hs.
    destruct (prod d) as [| |l b desc] eqn:Hprod; [done|done|].
    destruct l; [done|]. destruct (get (pool d)).
    destruct (ret <? 0); simplify_eq; simpl; [done|].
    apply Forall_app. split; [done|]. apply Forall_singleton. simpl.
    eapply last_Some_elem_of, (inv_calls d HI). by rewrite Hprod.
  - unfold dispatch_return in Hs. repeat case_match; by simplify_eq.
  - unfold task_start in Hs. repeat case_match; by simplify_eq.
  - unfold task_end, put in Hs. repeat case_match; by simplify_eq.
  - unfold task_done in Hs. repeat case_match; by simplify_eq.
  - by simplify_eq.
  - by simplify_eq.
Qed.

Lemma handed_data_run (tr : list action) :
  ∀ d d', Inv d → run tr d = Some d' →
    Forall (λ e, is_Some e.2) (handled d)
    ∧ Forall (λ hb, hb.2 ∈ calls d) (spawned d) →
    Forall (λ e, is_Some e.2) (handled d')
    ∧ Forall (λ hb, hb.2 ∈ calls d') (spawned d').
Proof.
  induction tr as [|a tr IH]; intros d d' HI Hrun [H1 H2]; simpl in Hrun.
  - by simplify_eq.
  - destruct (step a d) as [d1|] eqn:Hs; [|done].
    eapply (IH d1); [by eapply Inv_step|done|]. split.
    + by eapply handed_data_step.
    + by eapply spawned_of_calls_step.
Qed.

(** X7. Whenever a handler is called, its frame references data: the data
    of a call of [dispatch] made before, for which a goroutine was spawned for
    that handler.  A handler is never handed a frame that was unreferenced or
    recycled under it. *)
Theorem handler_is_handed_dispatched_data
    (d : frameDispatcher) (h : FrameHandler) (f : FrameId) (ob : option Buf) :
  reachable d → (h, f, ob) ∈ handled d →
  ∃ b, ob = Some b ∧ (h, b) ∈ spawned d ∧ b ∈ calls d.
Proof.
  intros Hr Hin. pose proof (Inv_reachable d Hr) as HI. destruct Hr as [tr Hrun].
  destruct (handed_data_run tr newFrameDispatcher d Inv_init Hrun) as [H1 H2].
  { split; constructor. }
  pose proof (proj1 (Forall_forall _ _) H1 _ Hin) as [b Hb]. simpl in Hb.
  subst ob. exists b. split; [done|].
  assert (Hsp : (h, b) ∈ spawned d).
  { rewrite <- (inv_spawn d HI). apply elem_of_app. left.
    unfold handled_hb. apply list_elem_of_omap. by exists (h, f, Some b). }
  split; [done|]. by apply (proj1 (Forall_forall _ _) H2 _ Hsp).
Qed.

Lemma handler_is_handed_dispatched_data_witness :
  ∃ d, run DispatcherExamples.clean_trace newFrameDispatcher = Some d
    ∧ ∃ b, Some 2%nat = Some b ∧ (DispatcherExamples.h1, b) ∈ spawned d
           ∧ b ∈ calls d.
Proof.
  eexists. split; [vm_compute; reflexivity|].
  match goal with |- ∃ b, _ ∧ _ ∈ spawned ?d ∧ _ =>
    apply (handler_is_handed_dispatched_data d DispatcherExamples.h1 0%nat
             (Some 2%nat) (ex_intro _ DispatcherExamples.clean_trace eq_refl))
  end.
  right. left.
Defined.

(** *** Errors and lost frames *)

Lemma errors_lost_step (a : action) (d d' : frameDispatcher) :
  step a d = Some d' →
  length (errors d) = length (lost d) → length (errors d') = length (lost d').
Proof.
  intros Hs Hl. destruct a; simpl in Hs.
  - unfold dispatch_call in Hs. repeat case_match; by simplify_eq.
  - unfold dispatch_wait in Hs. repeat case_match; by simplify_eq.
  - unfold dispatch_iter in Hs. repeat case_match; simplify_eq; simpl; [|done].
    rewrite length_app. simpl. lia.
  - unfold dispatch_return in Hs. repeat case_match; by simplify_eq.
  - unfold task_start in Hs. repeat case_match; by simplify_eq.
  - unfold task_end, put in Hs. repeat case_match; by simplify_eq.
  - unfold task_done in Hs. repeat case_match; by simplify_eq.
  - by simplify_eq.
  - by simplify_eq.
Qed.

Lemma errors_lost_run (tr : list action) :
  ∀ d d', run tr d = Some d' →
    length (errors d) = length (lost d) → length (errors d') = length (lost d').
Proof.
  induction tr as [|a tr IH]; intros d d' Hrun Hl; simpl in Hrun.
  - by simplify_eq.
  - destruct (step a d) as [d1|] eqn:Hs; [|done].
    eapply (IH d1); [done|]. by eapply errors_lost_step.
Qed.

(** X8. The pool of the dispatcher is short of exactly one frame per error
    emitted: when no goroutine is left, the frames on the free list and the
    errors emitted add up to the frames allocated; as long as no copy has
    failed, every frame allocated is back on the free list. *)
Theorem pool_is_short_of_one_frame_per_error (d : frameDispatcher) :
  reachable d →
  length (errors d) = length (lost d)
  ∧ (tasks d = [] →
       (length (p (pool d)) + length (errors d) = allocs (pool d))%nat)
  ∧ (tasks d = [] → errors d = [] → p (pool d) ≡ₚ seq 0 (allocs (pool d))).
Proof.
  intros Hr. pose proof (Inv_reachable d Hr) as HI. destruct Hr as [tr Hrun].
  pose proof (errors_lost_run tr _ _ Hrun eq_refl) as Hel.
  pose proof (inv_frames d HI) as Hfr.
  split; [done|]. split.
  - intros Ht. rewrite Ht in Hfr. apply Permutation_length in Hfr.
    rewrite !length_app, length_seq in Hfr. simpl in Hfr. lia.
  - intros Ht He. rewrite Ht in Hfr. rewrite He in Hel.
    destruct (lost d); [|done]. by rewrite !app_nil_r in Hfr.
Qed.

Lemma pool_is_short_of_one_frame_per_error_witness :
  ∃ d, run DispatcherExamples.lossy_trace newFrameDispatcher = Some d
    ∧ (length (p (pool d)) + length (errors d) = allocs (pool d))%nat.
Proof.
  eexists. split; [vm_compute; reflexivity|].
  match goal with |- (length (p (pool ?d)) + _ = _)%nat =>
    apply (pool_is_short_of_one_frame_per_error d
             (ex_intro _ DispatcherExamples.lossy_trace eq_refl))
  end.
  reflexivity.
Defined.

(** *** Connecting and disconnecting while a dispatch is under way *)

(** X9. Connecting or disconnecting a handler while a dispatch is under way
    changes nothing of that dispatch: every step of the loop and of the
    goroutines gives the same state, but for the table, as without it.  A
    handler disconnected after the snapshot is still served the frame. *)
Theorem connect_and_disconnect_leave_the_dispatch_alone
    (a : action) (h : FrameHandler) (d : frameDispatcher) :
  internal a →
  step a (delHandler h d) = delHandler h <$> step a d
  ∧ step a (addHandler h d) = addHandler h <$> step a d.
Proof.
  intros Hint. destruct a; try done; simpl.
  - unfold dispatch_wait. simpl. split; repeat case_match; done.
  - unfold dispatch_iter. simpl. split; repeat case_match; done.
  - unfold dispatch_return. simpl. split; repeat case_match; done.
  - unfold task_start. simpl. split; repeat case_match; done.
  - unfold task_end, put. simpl. split; repeat case_match; done.
  - unfold task_done. simpl. split; repeat case_match; done.
Qed.

Lemma connect_and_disconnect_leave_the_dispatch_alone_witness :
  step (ATaskStart 0%nat)
       (delHandler DispatcherExamples.h1
          {| hs := hs DispatcherExamples.d1; pool := {| p := []; allocs := 1 |};
             refs := {[ 0%nat := 7%nat ]}; wg := 1;
             tasks := [{| t_h := DispatcherExamples.h1; t_f := 0%nat;
                          t_desc := DispatcherExamples.desc;
                          t_phase := Spawned; t_b := 7%nat |}];
             errors := []; prod := Idle; handled := []; calls := [7%nat];
             spawned := [(DispatcherExamples.h1, 7%nat)]; lost := [] |})
  = delHandler DispatcherExamples.h1
      <$> step (ATaskStart 0%nat)
            {| hs := hs DispatcherExamples.d1; pool := {| p := []; allocs := 1 |};
               refs := {[ 0%nat := 7%nat ]}; wg := 1;
               tasks := [{| t_h := DispatcherExamples.h1; t_f := 0%nat;
                            t_desc := DispatcherExamples.desc;
                            t_phase := Spawned; t_b := 7%nat |}];
               errors := []; prod := Idle; handled := []; calls := [7%nat];
               spawned := [(DispatcherExamples.h1, 7%nat)]; lost := [] |}.
Proof.
  apply (connect_and_disconnect_leave_the_dispatch_alone (ATaskStart 0%nat)).
  exact I.
Defined.

(** *** The table of handlers *)

Lemma snapshot_members (d d' : frameDispatcher) (b : Buf) (desc : Descriptor)
    (order : list FrameHandler) :
  Inv d → dispatch_call b desc order d = Some d' →
  ∀ h, h ∈ order ↔ hs d !! Name h = Some h.
Proof.
  intros HI Hc h. pose proof (inv_hs d HI) as Hhs.
  unfold dispatch_call in Hc. destruct (prod d); [|done|done].
  case_decide as Hperm; [|done]. rewrite Hperm. split.
  - intros Hin. apply list_elem_of_fmap in Hin as ([k h'] & -> & Hin).
    apply elem_of_map_to_list in Hin. simpl. by rewrite (Hhs _ _ Hin).
  - intros Hl. apply list_elem_of_fmap. exists (Name h, h).
    split; [done|]. by apply elem_of_map_to_list.
Qed.

(** X21. Handlers are connected and disconnected by name.  After
    [addHandler h] the next call of [dispatch] serves [h] and no other handler
    of that name, whatever was registered under it before; after
    [delHandler h] it serves no handler of that name, be it [h] or another
    node registered under the same name. *)
Theorem handlers_are_keyed_by_name
    (d d' : frameDispatcher) (h : FrameHandler) (b : Buf) (desc : Descriptor)
    (order : list FrameHandler) :
  reachable d →
  (dispatch_call b desc order (addHandler h d) = Some d' →
     h ∈ order ∧ ∀ h0, h0 ∈ order → Name h0 = Name h → h0 = h)
  ∧ (dispatch_call b desc order (delHandler h d) = Some d' →
       ∀ h0, h0 ∈ order → Name h0 ≠ Name h).
Proof.
  intros Hr. pose proof (Inv_reachable d Hr) as HI. split.
  - intros Hc.
    pose proof (snapshot_members _ _ _ _ _ (Inv_addHandler h d HI) Hc) as Hm.
    split.
    + apply Hm. simpl. by rewrite lookup_insert_eq.
    + intros h0 Hin Hn. apply Hm in Hin. simpl in Hin.
      rewrite Hn, lookup_insert_eq in Hin. by simplify_eq.
  - intros Hc h0 Hin Hn.
    pose proof (snapshot_members _ _ _ _ _ (Inv_delHandler h d HI) Hc) as Hm.
    apply Hm in Hin. simpl in Hin. by rewrite Hn, lookup_delete_eq in Hin.
Qed.

Lemma handlers_are_keyed_by_name_witness :
  let h1' := {| Name := "h1"; node := 9 |} in
  h1' ∈ [h1'] ∧ ∀ h0, h0 ∈ [h1'] → Name h0 = Name h1' → h0 = h1'.
Proof.
  intros h1'.
  apply (proj1 (handlers_are_keyed_by_name DispatcherExamples.d1
           {| hs := hs (addHandler h1' DispatcherExamples.d1);
              pool := newFramePool; refs := ∅; wg := 0; tasks := [];
              errors := []; prod := Waiting [h1'] 7%nat DispatcherExamples.desc;
              handled := []; calls := [7%nat]; spawned := []; lost := [] |}
           h1' 7%nat DispatcherExamples.desc [h1']
           (ex_intro _ [AAdd DispatcherExamples.h1] eq_refl))).
  vm_compute. reflexivity.
Defined.

(** *** Progress *)


(** The loop of [dispatch] can always run to its end. *)
Lemma loop_runs (l : list FrameHandler) :
  ∀ d b desc, prod d = Looping l b desc →
    ∃ d', run (replicate (length l) (AIter 0) ++ [AReturn]) d = Some d'
          ∧ prod d' = Idle.
Proof.
  induction l as [|h l IH]; intros d b desc Hp; simpl.
  - unfold dispatch_return. rewrite Hp. by eexists.
  - unfold dispatch_iter. rewrite Hp. destruct (get (pool d)). simpl.
    match goal with |- context [run _ ?d1] =>
      destruct (IH d1 b desc eq_refl) as (d' & Hrun & Hp') end.
    by exists d'.
Qed.

Lemma internal_loop (n : nat) :
  Forall internal (replicate n (AIter 0) ++ [AReturn]).
Proof.
  apply Forall_app. split; [|by repeat constructor].
  induction n; simpl; by constructor.
Qed.

(** X10. The dispatcher cannot get stuck: from every state it can get to,
    with no further call and provided the handlers return, there is a schedule
    of the dispatch under way and of its goroutines after which the producer
    is out of [dispatch], no goroutine is left and the counter is zero, so a
    [wait] returns. *)
Theorem dispatcher_can_always_finish (d : frameDispatcher) :
  reachable d →
  ∃ tr d', run tr d = Some d' ∧ Forall internal tr
           ∧ quiet d' ∧ wg d' = 0.
Proof.
  intros Hr. pose proof (Inv_reachable d Hr) as HI.
  assert (Hfin : ∀ d0, Inv d0 → prod d0 = Idle →
            ∃ tr d', run tr d0 = Some d' ∧ Forall internal tr
                     ∧ quiet d' ∧ wg d' = 0).
  { intros d0 HI0 Hp0.
    destruct (drain _ d0 eq_refl) as (tr & d' & Hrun & Hint & Ht & Hp).
    exists tr, d'. split; [done|]. split; [done|].
    assert (Hq : quiet d') by (split; congruence). split; [done|].
    pose proof (inv_wg d' (Inv_run tr _ _ HI0 Hrun)) as Hwg.
    destruct Hq as [Hq1 Hq2]. by rewrite Hwg, Hq1, Hq2. }
  assert (Hloop : ∀ d0 l b desc, Inv d0 → prod d0 = Looping l b desc →
            ∃ tr d', run tr d0 = Some d' ∧ Forall internal tr
                     ∧ quiet d' ∧ wg d' = 0).
  { intros d0 l b desc HI0 Hp0.
    destruct (loop_runs l d0 b desc Hp0) as (d1 & Hrun1 & Hp1).
    destruct (Hfin d1 (Inv_run _ _ _ HI0 Hrun1) Hp1)
      as (tr & d' & Hrun & Hint & Hq & Hwg).
    exists ((replicate (length l) (AIter 0) ++ [AReturn]) ++ tr), d'.
    rewrite run_app, Hrun1. split; [done|]. split; [|done].
    apply Forall_app. split; [apply internal_loop|done]. }
  destruct (prod d) as [|l b desc|l b desc] eqn:Hp.
  - by apply Hfin.
  - destruct (drain _ d eq_refl) as (tr1 & d1 & Hrun1 & Hint1 & Ht1 & Hp1).
    pose proof (Inv_run _ _ _ HI Hrun1) as HI1.
    assert (Hwg1 : wg d1 = 0).
    { rewrite (inv_wg d1 HI1), Ht1, Hp1, Hp. done. }
    assert (Hw : ∃ d2, dispatch_wait d1 = Some d2 ∧ prod d2 = Looping l b desc).
    { unfold dispatch_wait. rewrite Hp1, Hp, Hwg1. simpl. by eexists. }
    destruct Hw as (d2 & Hw & Hp2).
    destruct (Hloop d2 l b desc (Inv_dispatch_wait _ _ HI1 Hw) Hp2)
      as (tr & d' & Hrun & Hint & Hq & Hwg).
    exists (tr1 ++ AWait :: tr), d'.
    rewrite run_app, Hrun1. simpl. rewrite Hw.
    split; [done|]. split; [|done].
    apply Forall_app. split; [done|]. by constructor.
  - by eapply Hloop.
Qed.

Lemma dispatcher_can_always_finish_witness :
  ∃ d, run DispatcherExamples.clean_trace newFrameDispatcher = Some d
    ∧ ∃ tr d', run tr d = Some d' ∧ Forall internal tr
               ∧ quiet d' ∧ wg d' = 0.
Proof.
  eexists. split; [vm_compute; reflexivity|].
  match goal with |- ∃ tr d', run tr ?d = _ ∧ _ =>
    exact (dispatcher_can_always_finish d
             (ex_intro _ DispatcherExamples.clean_trace eq_refl))
  end.
Defined.

End DispatcherMore.

Module MuxerMore.
Import Native Muxer MuxerFacts.

(** X13. A new muxer writes at teardown one trailer per run that got past
    the header check: none for a first run whose header write failed, one for
    every other run. *)
Theorem trailers_count_the_runs_past_the_header
    (e : RunEnv) (rest : list RunEnv) (m : Muxer) :
  o m = false → filter is_trailer_hook (c m) = [] →
  trailers (lifecycle (e :: rest) m)
  = ((if (header_ret e <? 0)%Z then 0 else 1) + length rest)%nat.
Proof.
  intros Ho Hc.
  pose proof (Start_body_first e m Ho) as (_ & Ho1 & Ht).
  assert (Hc1 : filter is_trailer_hook (c (Start_body e m).1)
                = if header_ret e <? 0 then [] else [HookWriteTrailer]).
  { destruct (Z.ltb_spec (header_ret e) 0) as [Hlt|Hge].
    - destruct (Start_body_first_failed e m Ho Hlt) as (_ & -> & _). done.
    - rewrite (Start_body_first_ok e m Ho Hge), filter_app, Hc. done. }
  pose proof (Start_runs_later rest _ Ho1) as (_ & Ht' & Hc').
  unfold lifecycle. simpl.
  destruct (Start_body e m) as [m1 evs1]; simpl in *.
  destruct (Start_runs rest m1) as [m2 evs2]; simpl in *.
  rewrite !trailers_app, Ht, Ht', (proj1 (trailers_Close m2)), Hc'.
  rewrite filter_app, Hc1, length_app.
  assert (Hrep : ∀ n, length (filter is_trailer_hook (repeat HookWriteTrailer n))
                      = n).
  { induction n as [|n IH]; [done|].
    change (repeat HookWriteTrailer (S n))
      with (HookWriteTrailer :: repeat HookWriteTrailer n).
    rewrite filter_cons_True by done. simpl. by rewrite IH. }
  rewrite Hrep. by destruct (header_ret e <? 0).
Qed.

Lemma trailers_count_the_runs_past_the_header_witness :
  trailers (lifecycle [MuxerExamples.env 0 [] []; MuxerExamples.env 0 [] [];
                       MuxerExamples.env 0 [] []]
                      (NewMuxer None MuxerExamples.streams0))
  = ((if (0 <? 0)%Z then 0 else 1) + 2)%nat.
Proof.
  apply (trailers_count_the_runs_past_the_header
           (MuxerExamples.env 0 [] [])
           [MuxerExamples.env 0 [] []; MuxerExamples.env 0 [] []]
           (NewMuxer None MuxerExamples.streams0)); reflexivity.
Defined.

(** X15. When the header write of the first run fails, that run writes no
    packet and keeps the queue; the Once has fired all the same, so the next
    run does not try the header again and writes the queued payloads without
    a header ever having been written. *)
Theorem run_after_failed_header_writes_without_header
    (e e' : RunEnv) (m : Muxer) :
  o m = false → header_ret e < 0 →
  written (Start_body e m).2 = []
  ∧ q (Start_body e m).1 = q m
  ∧ headers (Start_body e' (Start_body e m).1).2 = 0%nat
  ∧ length (written (Start_body e' (Start_body e m).1).2)
    = length (q m ++ sent e').
Proof.
  intros Ho Hret.
  pose proof (Start_body_first e m Ho) as (_ & Ho1 & _).
  destruct (Start_body_first_failed e m Ho Hret) as (Hevs & _ & Hq).
  pose proof (Start_body_later e' _ Ho1) as (Hh & _).
  split; [by rewrite Hevs|]. split; [done|]. split; [done|].
  unfold Start_body at 1. rewrite Ho1, Hq. simpl.
  match goal with |- context [consume ?a ?b ?w] =>
    pose proof (consume_write_rets b a w) as (_ & _ & _ & Hw);
    destruct (consume a b w) as [m3 evs3] end.
  simpl in *. unfold written in *. rewrite omap_app, length_app, Hw. simpl.
  by rewrite Nat.add_0_r.
Qed.

Lemma run_after_failed_header_writes_without_header_witness :
  written (Start_body (MuxerExamples.env (-1) [] []) MuxerExamples.muxer2).2 = []
  ∧ q (Start_body (MuxerExamples.env (-1) [] []) MuxerExamples.muxer2).1
    = q MuxerExamples.muxer2
  ∧ headers (Start_body (MuxerExamples.env 0 [] [])
               (Start_body (MuxerExamples.env (-1) [] [])
                  MuxerExamples.muxer2).1).2 = 0%nat
  ∧ length (written (Start_body (MuxerExamples.env 0 [] [])
                       (Start_body (MuxerExamples.env (-1) [] [])
                          MuxerExamples.muxer2).1).2)
    = length (q MuxerExamples.muxer2 ++ sent (MuxerExamples.env 0 [] [])).
Proof.
  apply (run_after_failed_header_writes_without_header
           (MuxerExamples.env (-1) [] []) (MuxerExamples.env 0 [] [])
           MuxerExamples.muxer2); reflexivity.
Defined.

End MuxerMore.

Module DemuxerMore.
Import Native Demuxer DemuxerRuns.

(** *** The platform's conversion and the language's

    Where the language defines the conversion the platform does not matter:
    the functions of [Demuxer], which are undefined elsewhere, agree with the
    ones of [DemuxerPlatform] wherever they are defined. *)

Lemma emulateRatePktDuration_agrees (conv : spec_float → Z) (pkt : Packet)
    (c : Context) (dur : Z) :
  emulateRatePktDuration pkt c = Some dur →
  DemuxerPlatform.emulateRatePktDuration conv pkt c = dur.
Proof.
  unfold emulateRatePktDuration, DemuxerPlatform.emulateRatePktDuration,
    DemuxerPlatform.int64, DemuxerPlatform.skip_float, skip_ns.
  intros H. destruct (CodecType c); try (by simplify_eq).
  destruct (SkipSamples pkt) as [sd|]; [|by simplify_eq].
  destruct (Float64.to_int64 _); by simplify_eq.
Qed.

Lemma emulate_agrees (conv : spec_float → Z) (e : ReadEnv) (pkt : Packet)
    (st : demuxerStream) r :
  emulate e pkt st = Some r → DemuxerPlatform.emulate conv e pkt st = r.
Proof.
  unfold emulate, DemuxerPlatform.emulate. intros H.
  destruct (emulateRatePktDuration pkt (ctx st)) as [dur|] eqn:Hd; cycle 1.
  { repeat case_match; done. }
  rewrite (emulateRatePktDuration_agrees conv _ _ _ Hd).
  repeat case_match; by simplify_eq.
Qed.

Lemma readFrame_agrees (conv : spec_float → Z) (e : ReadEnv) (d : Demuxer) r :
  readFrame e d = Some r → DemuxerPlatform.readFrame conv e d = r.
Proof.
  unfold readFrame, DemuxerPlatform.readFrame. intros H.
  destruct (read_ret e <? 0).
  { repeat case_match; by simplify_eq. }
  destruct (ss d !! StreamIndex (read_pkt e)) as [st|]; [|by simplify_eq].
  destruct (restamper d) as [rs|].
  - destruct (do_restamp rs (read_pkt e)) as [r' pk].
    destruct (emulateRate d); [|by simplify_eq].
    destruct (emulate e pk st) as [[sl st']|] eqn:Hem; [|done].
    rewrite (emulate_agrees conv _ _ _ _ Hem). by simplify_eq.
  - destruct (emulateRate d); [|by simplify_eq].
    destruct (emulate e (read_pkt e) st) as [[sl st']|] eqn:Hem; [|done].
    rewrite (emulate_agrees conv _ _ _ _ Hem). by simplify_eq.
Qed.

Lemma Start_loop_agrees (conv : spec_float → Z) (envs : list IterEnv) :
  ∀ d r, Start_loop envs d = Some r → DemuxerPlatform.Start_loop conv envs d = r.
Proof.
  induction envs as [|ie envs IH]; intros d r H; simpl in *.
  - by simplify_eq.
  - destruct (readFrame (ienv ie) d) as [[[d1 evs1] stop]|] eqn:Hrf; [|done].
    rewrite (readFrame_agrees conv _ _ _ Hrf).
    destruct stop; [by simplify_eq|].
    destruct (cancelled ie); [by simplify_eq|].
    destruct (Start_loop envs d1) as [[[d2 evs2] st2]|] eqn:Hl; [|done].
    rewrite (IH _ _ Hl). by simplify_eq.
Qed.

(** *** The paths of [readFrame] *)

Lemma emulate_effects (conv : spec_float → Z) (e : ReadEnv) (pkt : Packet)
    (st st' : demuxerStream) (evs : list effect) :
  DemuxerPlatform.emulate conv e pkt st = (evs, st') →
  (evs = []
   ∨ (evs = [EvSleep (emulateRateNextAt st - now e)]
      ∧ 0 < emulateRateNextAt st - now e ∧ emulateRateNextAt st ≠ 0))
  ∧ st' = {| ctx := ctx st;
             emulateRateNextAt :=
               (if emulateRateNextAt st =? 0 then now e
                else emulateRateNextAt st)
               + av_rescale_q
                   (DemuxerPlatform.emulateRatePktDuration conv pkt (ctx st))
                   (StreamTimeBase (ds_s st)) nanosecondRational;
             ds_s := ds_s st |}.
Proof.
  unfold DemuxerPlatform.emulate. intros H.
  destruct (Z.eqb_spec (emulateRateNextAt st) 0) as [Hz|Hnz]; simpl in H.
  - simplify_eq. split; [by left|done].
  - destruct (Z.gtb_spec (emulateRateNextAt st - now e) 0); simplify_eq.
    + split; [right; split; [done|split; [lia|done]]|done].
    + split; [by left|done].
Qed.

(** The outcomes of [readFrame], one per path through it. *)
Lemma readFrame_cases (conv : spec_float → Z) (e : ReadEnv) (d d' : Demuxer)
    (evs : list effect) (stop : bool) :
  DemuxerPlatform.readFrame conv e d = (d', evs, stop) →
  (read_ret e < 0 ∧ d' = d
   ∧ ∃ mid, evs = EvGet :: mid ++ [EvPut]
       ∧ Forall (λ ev, match ev with
                       | EvError _ => True
                       | EvSeek i ts fl =>
                           ∃ fp, loopFirstPkt d = Some fp ∧ loop d = true
                                 ∧ i = Index (s fp) ∧ ts = dts fp
                                 ∧ fl = AVSEEK_FLAG_BACKWARD
                       | _ => False
                       end) mid)
  ∨ (0 ≤ read_ret e ∧ ss d !! StreamIndex (read_pkt e) = None
     ∧ d' = d ∧ evs = [EvGet; EvPut] ∧ stop = false)
  ∨ (0 ≤ read_ret e ∧ stop = false
     ∧ ∃ st sl,
         ss d !! StreamIndex (read_pkt e) = Some st
         ∧ evs = EvGet :: sl ++ [EvDispatch (restamped e d) (ds_s st); EvPut]
         ∧ emulateRate d' = emulateRate d ∧ loop d' = loop d
         ∧ loopFirstPkt d'
           = (if loop d
              then match loopFirstPkt d with
                   | Some fp => Some fp
                   | None => Some (newDemuxerPkt (restamped e d) (ds_s st))
                   end
              else loopFirstPkt d)
         ∧ (if emulateRate d
            then ∃ st', DemuxerPlatform.emulate conv e (restamped e d) st
                        = (sl, st')
                        ∧ ss d' = <[StreamIndex (read_pkt e) := st']> (ss d)
            else sl = [] ∧ ss d' = ss d)).
Proof.
  unfold DemuxerPlatform.readFrame, restamped. intros H.
  destruct (Z.ltb_spec (read_ret e) 0) as [Hneg|Hpos].
  - left. split; [done|].
    destruct (negb (read_ret e =? AVERROR_EOF) || negb (loop d)) eqn:Hc.
    + simplify_eq. split; [done|].
      destruct (negb (read_ret e =? AVERROR_EOF)).
      * exists [EvError (read_ret e)]. split; [done|]. by repeat constructor.
      * by exists [].
    + apply orb_false_iff in Hc as [_ Hl]. apply negb_false_iff in Hl.
      destruct (loopFirstPkt d) as [fp|] eqn:Hfp.
      * destruct (seek_ret e <? 0); simplify_eq; (split; [done|]).
        -- eexists [_; _]. split; [done|].
           constructor; [by exists fp|]. by repeat constructor.
        -- eexists [_]. split; [done|]. constructor; [by exists fp|done].
      * simplify_eq. split; [done|]. by exists [].
  - right. destruct (ss d !! StreamIndex (read_pkt e)) as [st|] eqn:Hst.
    + right. split; [done|].
      destruct (restamper d) as [r|] eqn:Hr.
      * destruct (do_restamp r (read_pkt e)) as [r' pk] eqn:Hdr. simpl in *.
        destruct (emulateRate d) eqn:Her.
        -- destruct (DemuxerPlatform.emulate conv e pk st) as [sl st'] eqn:Hem.
           simplify_eq. split; [done|]. exists st, sl. simpl.
           split; [done|]. split; [done|]. split; [done|]. split; [done|].
           split; [by destruct (loop d), (loopFirstPkt d)|]. by exists st'.
        -- simplify_eq. split; [done|]. exists st, []. simpl.
           split; [done|]. split; [done|]. split; [done|]. split; [done|].
           split; [by destruct (loop d), (loopFirstPkt d)|]. done.
      * destruct (emulateRate d) eqn:Her.
        -- destruct (DemuxerPlatform.emulate conv e (read_pkt e) st)
             as [sl st'] eqn:Hem.
           simplify_eq. split; [done|]. exists st, sl. simpl.
           split; [done|]. split; [done|]. split; [done|]. split; [done|].
           split; [by destruct (loop d), (loopFirstPkt d)|]. by exists st'.
        -- simplify_eq. split; [done|]. exists st, []. simpl.
           split; [done|]. split; [done|]. split; [done|]. split; [done|].
           split; [by destruct (loop d), (loopFirstPkt d)|]. done.
    + left. by simplify_eq.
Qed.

Lemma gets_app (a b : list effect) : gets (a ++ b) = (gets a + gets b)%nat.
Proof. unfold gets. by rewrite filter_app, length_app. Qed.

Lemma puts_app (a b : list effect) : puts (a ++ b) = (puts a + puts b)%nat.
Proof. unfold puts. by rewrite filter_app, length_app. Qed.

Lemma dispatches_app (a b : list effect) :
  dispatches (a ++ b) = (dispatches a + dispatches b)%nat.
Proof. unfold dispatches. by rewrite filter_app, length_app. Qed.

(** A list of effects none of which is a get, a put or a dispatch. *)
Lemma no_pool_effect (P : effect → Prop) (l : list effect) :
  Forall P l →
  (∀ ev, P ev → is_get ev = false ∧ is_put ev = false ∧ is_dispatch ev = false) →
  gets l = 0%nat ∧ puts l = 0%nat ∧ dispatches l = 0%nat.
Proof.
  intros Hall HP. induction Hall as [|ev l Hev _ (I1 & I2 & I3)]; [done|].
  destruct (HP ev Hev) as (H1 & H2 & H3).
  unfold gets, puts, dispatches in *. rewrite !filter_cons.
  rewrite H1, H2, H3. simpl. done.
Qed.

Lemma sleeps_only (conv : spec_float → Z) (e : ReadEnv) (pkt : Packet)
    (st st' : demuxerStream) (sl : list effect) :
  DemuxerPlatform.emulate conv e pkt st = (sl, st') →
  Forall (λ ev, ∃ δ, ev = EvSleep δ) sl.
Proof.
  intros H. destruct (emulate_effects _ _ _ _ _ _ H) as [[->|(-> & _)] _].
  - constructor.
  - repeat constructor. by eexists.
Qed.

(** What the rate emulation adds to the effects of a read are sleeps. *)
Lemma emulated_sleeps (conv : spec_float → Z) (e : ReadEnv) (d d' : Demuxer)
    (st : demuxerStream) (sl : list effect) :
  (if emulateRate d
   then ∃ st', DemuxerPlatform.emulate conv e (restamped e d) st = (sl, st')
               ∧ ss d' = <[StreamIndex (read_pkt e) := st']> (ss d)
   else sl = [] ∧ ss d' = ss d) →
  Forall (λ ev, ∃ δ, ev = EvSleep δ) sl.
Proof.
  destruct (emulateRate d).
  - intros (st' & Hem & _). by eapply sleeps_only.
  - intros [-> _]. constructor.
Qed.

(** One get first, one put last, at most one dispatch in between. *)
Lemma readFrame_counts (conv : spec_float → Z) (e : ReadEnv) (d d' : Demuxer)
    (evs : list effect) (stop : bool) :
  DemuxerPlatform.readFrame conv e d = (d', evs, stop) →
  gets evs = 1%nat ∧ puts evs = 1%nat
  ∧ head evs = Some EvGet ∧ last evs = Some EvPut
  ∧ (dispatches evs ≤ 1)%nat
  ∧ (stop = true → dispatches evs = 0%nat)
  ∧ (EvWait ∉ evs).
Proof.
  intros H.
  destruct (readFrame_cases _ _ _ _ _ _ H)
    as [(_ & _ & mid & -> & Hmid)
       |[(_ & _ & _ & -> & ->)
        |(_ & -> & st & sl & _ & -> & _ & _ & _ & Hem)]].
  - destruct (no_pool_effect _ mid Hmid) as (H1 & H2 & H3).
    { intros [] Hev; done. }
    change (EvGet :: mid ++ [EvPut]) with ([EvGet] ++ mid ++ [EvPut]).
    rewrite !gets_app, !puts_app, !dispatches_app, H1, H2, H3.
    rewrite app_assoc, last_snoc.
    repeat split; first [done | by vm_compute | (vm_compute; lia) | idtac].
    intros Hin. apply elem_of_app in Hin as [Hin|Hin].
    + apply elem_of_app in Hin as [Hin|Hin].
      * by apply list_elem_of_singleton in Hin.
      * by apply (proj1 (Forall_forall _ _) Hmid) in Hin.
    + by apply list_elem_of_singleton in Hin.
  - repeat split; first [done | by vm_compute | (vm_compute; lia) | idtac].
    intros Hin. repeat (apply elem_of_cons in Hin as [|Hin]; [done|]).
    by apply elem_of_nil in Hin.
  - pose proof (emulated_sleeps _ _ _ _ _ _ Hem) as Hsl.
    destruct (no_pool_effect _ sl Hsl) as (H1 & H2 & H3).
    { by intros ev [δ ->]. }
    change (EvGet :: sl ++ [EvDispatch (restamped e d) (ds_s st); EvPut])
      with ([EvGet] ++ sl ++ [EvDispatch (restamped e d) (ds_s st)] ++ [EvPut]).
    rewrite !gets_app, !puts_app, !dispatches_app, H1, H2, H3.
    rewrite !app_assoc, last_snoc.
    repeat split; first [done | by vm_compute | (vm_compute; lia) | idtac].
    intros Hin. apply elem_of_app in Hin as [Hin|Hin].
    + apply elem_of_app in Hin as [Hin|Hin].
      * apply elem_of_app in Hin as [Hin|Hin].
        -- by apply list_elem_of_singleton in Hin.
        -- by apply (proj1 (Forall_forall _ _) Hsl) in Hin as [? ?].
      * by apply list_elem_of_singleton in Hin.
    + by apply list_elem_of_singleton in Hin.
Qed.

(** X16. Whatever path [readFrame] takes and whatever the platform makes of
    a conversion out of range, the packet it got from the pool is put back,
    once and last, and at most one packet is dispatched, none when it stops. *)
Theorem readFrame_puts_its_packet_back
    (conv : spec_float → Z) (e : ReadEnv) (d d' : Demuxer)
    (evs : list effect) (stop : bool) :
  DemuxerPlatform.readFrame conv e d = (d', evs, stop) →
  gets evs = 1%nat ∧ puts evs = 1%nat
  ∧ head evs = Some EvGet ∧ last evs = Some EvPut
  ∧ (dispatches evs ≤ 1)%nat
  ∧ (stop = true → dispatches evs = 0%nat).
Proof.
  intros H.
  destruct (readFrame_counts _ _ _ _ _ _ H) as (H1 & H2 & H3 & H4 & H5 & H6 & _).
  done.
Qed.

Lemma readFrame_puts_its_packet_back_witness :
  readFrame env_norate (demuxer_norate None) = None
  ∧ ∃ d' evs stop,
      DemuxerPlatform.readFrame smallest env_norate (demuxer_norate None)
      = (d', evs, stop)
      ∧ gets evs = 1%nat ∧ puts evs = 1%nat
      ∧ head evs = Some EvGet ∧ last evs = Some EvPut
      ∧ (dispatches evs ≤ 1)%nat
      ∧ (stop = true → dispatches evs = 0%nat).
Proof.
  split; [vm_compute; reflexivity|].
  eexists _, _, _. split; [vm_compute; reflexivity|].
  eapply (readFrame_puts_its_packet_back smallest env_norate
            (demuxer_norate None)).
  vm_compute. reflexivity.
Defined.

(** X17. Over any number of turns of the read loop, every packet got from
    the pool has been put back; the loop reads once per turn until it returns
    and never after; the deferred wait for the dispatcher runs when the loop
    returns, last, and not before. *)
Theorem Start_loop_balances_the_pool
    (conv : spec_float → Z) (envs : list IterEnv) :
  ∀ d d' evs st, DemuxerPlatform.Start_loop conv envs d = (d', evs, st) →
    gets evs = puts evs
    ∧ (gets evs ≤ length envs)%nat
    ∧ (st = Returned → last evs = Some EvWait)
    ∧ (st = Reading → (EvWait ∉ evs) ∧ gets evs = length envs).
Proof.
  induction envs as [|ie envs IH]; intros d d' evs st H; simpl in H.
  - simplify_eq. repeat split; try done. apply not_elem_of_nil.
  - destruct (DemuxerPlatform.readFrame conv (ienv ie) d)
      as [[d1 evs1] stop] eqn:Hrf.
    destruct (readFrame_counts _ _ _ _ _ _ Hrf) as (G & P & _ & _ & _ & _ & Hnw).
    assert (W1 : gets [EvWait] = 0%nat ∧ puts [EvWait] = 0%nat)
      by (by vm_compute).
    assert (W2 : gets [EvHandlePause; EvWait] = 0%nat
                 ∧ puts [EvHandlePause; EvWait] = 0%nat) by (by vm_compute).
    assert (W3 : gets [EvHandlePause] = 0%nat ∧ puts [EvHandlePause] = 0%nat)
      by (by vm_compute).
    destruct W1 as [W1 W1'], W2 as [W2 W2'], W3 as [W3 W3'].
    destruct stop.
    + simplify_eq. rewrite gets_app, puts_app, G, P, W1, W1', last_snoc. simpl.
      repeat split; try done. lia.
    + destruct (cancelled ie).
      * simplify_eq. rewrite gets_app, puts_app, G, P, W2, W2'. simpl.
        change (evs1 ++ [EvHandlePause; EvWait])
          with (evs1 ++ [EvHandlePause] ++ [EvWait]).
        rewrite !app_assoc, last_snoc. repeat split; try done. lia.
      * destruct (DemuxerPlatform.Start_loop conv envs d1)
          as [[d2 evs2] st2] eqn:Hl.
        simplify_eq. destruct (IH _ _ _ _ Hl) as (I1 & I2 & I3 & I4).
        change (evs1 ++ EvHandlePause :: evs2)
          with (evs1 ++ [EvHandlePause] ++ evs2).
        rewrite !gets_app, !puts_app, G, P, W3, W3', I1. simpl.
        split; [done|]. split; [lia|]. split.
        -- intros Hst. specialize (I3 Hst).
           apply last_Some in I3 as [l' ->].
           rewrite app_comm_cons, app_assoc. apply last_snoc.
        -- intros Hst. destruct (I4 Hst) as [I4a I4b]. split; [|lia].
           intros Hin. apply elem_of_app in Hin as [|Hin]; [done|].
           apply elem_of_cons in Hin as [|Hin]; done.
Qed.

Lemma Start_loop_balances_the_pool_witness :
  Start_loop norate_turns (demuxer_norate None) = None
  ∧ ∃ d' evs,
      DemuxerPlatform.Start_loop smallest norate_turns (demuxer_norate None)
      = (d', evs, Returned)
      ∧ gets evs = puts evs
      ∧ (gets evs ≤ length norate_turns)%nat
      ∧ (Returned = Returned → last evs = Some EvWait).
Proof.
  split; [vm_compute; reflexivity|].
  eexists _, _. split; [vm_compute; reflexivity|].
  match goal with |- gets ?evs = _ ∧ _ =>
    pose proof (Start_loop_balances_the_pool smallest norate_turns
                  (demuxer_norate None) _ evs Returned
                  ltac:(vm_compute; reflexivity))
      as (H1 & H2 & H3 & _) end.
  split; [exact H1|]. split; [exact H2 | exact H3].
Defined.

(** X18. [readFrame] stops only when the native read fails, and a failed
    read changes nothing of the demuxer and dispatches nothing; a packet of a
    stream the demuxer does not know is dropped without a trace; a packet of
    a stream it knows is dispatched, and the packet dispatched is the packet
    read, as the restamper left it, with the stream its index names. *)
Theorem readFrame_dispatches_what_it_read
    (conv : spec_float → Z) (e : ReadEnv) (d d' : Demuxer)
    (evs : list effect) (stop : bool) :
  DemuxerPlatform.readFrame conv e d = (d', evs, stop) →
  (stop = true → read_ret e < 0)
  ∧ (read_ret e < 0 → d' = d ∧ dispatches evs = 0%nat)
  ∧ (0 ≤ read_ret e → ss d !! StreamIndex (read_pkt e) = None →
       d' = d ∧ evs = [EvGet; EvPut])
  ∧ (0 ≤ read_ret e →
     ∀ ds, ss d !! StreamIndex (read_pkt e) = Some ds →
       EvDispatch (restamped e d) (ds_s ds) ∈ evs ∧ dispatches evs = 1%nat)
  ∧ (∀ pkt st, EvDispatch pkt st ∈ evs →
       0 ≤ read_ret e ∧ pkt = restamped e d
       ∧ ∃ ds, ss d !! StreamIndex (read_pkt e) = Some ds ∧ st = ds_s ds).
Proof.
  intros H.
  destruct (readFrame_cases _ _ _ _ _ _ H)
    as [(Hneg & -> & mid & -> & Hmid)
       |[(Hpos & Hss & -> & -> & ->)
        |(Hpos & -> & st & sl & Hss & -> & _ & _ & _ & Hem)]].
  - split; [done|]. split.
    { intros _. split; [done|].
      destruct (no_pool_effect _ mid Hmid) as (_ & _ & H3).
      { intros [] Hev; done. }
      change (EvGet :: mid ++ [EvPut]) with ([EvGet] ++ mid ++ [EvPut]).
      rewrite !dispatches_app, H3. by vm_compute. }
    split; [lia|]. split; [lia|]. intros pkt st Hin. exfalso.
    apply elem_of_cons in Hin as [|Hin]; [done|].
    apply elem_of_app in Hin as [Hin|Hin].
    + by apply (proj1 (Forall_forall _ _) Hmid) in Hin.
    + by apply list_elem_of_singleton in Hin.
  - split; [done|]. split; [lia|]. split; [done|].
    split; [intros _ ds Hds; congruence|].
    intros pkt st Hin. exfalso.
    repeat (apply elem_of_cons in Hin as [|Hin]; [done|]).
    by apply elem_of_nil in Hin.
  - pose proof (emulated_sleeps _ _ _ _ _ _ Hem) as Hsl.
    split; [done|]. split; [lia|]. split; [by rewrite Hss|]. split.
    + intros _ ds Hds. assert (ds = st) as -> by congruence. split.
      * apply elem_of_cons. right. apply elem_of_app. right. by left.
      * destruct (no_pool_effect _ sl Hsl) as (_ & _ & H3).
        { by intros ev [δ ->]. }
        change (EvGet :: sl ++ [EvDispatch (restamped e d) (ds_s st); EvPut])
          with ([EvGet] ++ sl
                ++ [EvDispatch (restamped e d) (ds_s st); EvPut]).
        rewrite !dispatches_app, H3. by vm_compute.
    + intros pkt st' Hin. split; [done|].
      apply elem_of_cons in Hin as [|Hin]; [done|].
      apply elem_of_app in Hin as [Hin|Hin].
      * by apply (proj1 (Forall_forall _ _) Hsl) in Hin as [? ?].
      * apply elem_of_cons in Hin as [Heq|Hin].
        -- simplify_eq. split; [done|]. by exists st.
        -- apply list_elem_of_singleton in Hin. done.
Qed.

Lemma readFrame_dispatches_what_it_read_witness :
  ∃ d' evs stop,
    DemuxerPlatform.readFrame smallest env_norate (demuxer_norate None)
    = (d', evs, stop)
    ∧ (stop = true → 0 < 0)
    ∧ EvDispatch (DemuxerExamples.pkt1024 (Some DemuxerExamples.skip512))
                 DemuxerExamples.stream0 ∈ evs
    ∧ dispatches evs = 1%nat.
Proof.
  eexists _, _, _. split; [vm_compute; reflexivity|].
  match goal with |- (?st = true → _) ∧ (_ ∈ ?evs) ∧ _ =>
    pose proof (readFrame_dispatches_what_it_read smallest env_norate
                  (demuxer_norate None) _ evs st
                  ltac:(vm_compute; reflexivity))
      as (H1 & _ & _ & H4 & _) end.
  split; [exact H1|].
  exact (H4 ltac:(discriminate)
            {| ctx := audio_norate; emulateRateNextAt := 0;
               ds_s := DemuxerExamples.stream0 |} eq_refl).
Defined.

Lemma readFrame_first_packet (conv : spec_float → Z) (e : ReadEnv)
    (d d' : Demuxer) (evs : list effect) (stop : bool) :
  DemuxerPlatform.readFrame conv e d = (d', evs, stop) →
  loop d' = loop d
  ∧ (∀ fp, loopFirstPkt d = Some fp → loopFirstPkt d' = Some fp)
  ∧ (loop d = false → loopFirstPkt d' = loopFirstPkt d)
  ∧ (∀ i ts fl, EvSeek i ts fl ∈ evs →
       ∃ fp, loopFirstPkt d = Some fp ∧ loop d = true
             ∧ i = Index (s fp) ∧ ts = dts fp ∧ fl = AVSEEK_FLAG_BACKWARD).
Proof.
  intros H.
  destruct (readFrame_cases _ _ _ _ _ _ H)
    as [(Hneg & -> & mid & -> & Hmid)
       |[(Hpos & Hss & -> & -> & ->)
        |(Hpos & -> & st & sl & Hss & -> & _ & Hl & Hfp & Hem)]].
  - repeat split; try done. intros i ts fl Hin.
    apply elem_of_cons in Hin as [|Hin]; [done|].
    apply elem_of_app in Hin as [Hin|Hin].
    + by apply (proj1 (Forall_forall _ _) Hmid) in Hin.
    + by apply list_elem_of_singleton in Hin.
  - repeat split; try done. intros i ts fl Hin. exfalso.
    repeat (apply elem_of_cons in Hin as [|Hin]; [done|]).
    by apply elem_of_nil in Hin.
  - split; [done|]. split; [|split].
    + intros fp Hf. rewrite Hfp, Hf. by destruct (loop d).
    + intros Hlf. by rewrite Hfp, Hlf.
    + intros i ts fl Hin. exfalso.
      pose proof (emulated_sleeps _ _ _ _ _ _ Hem) as Hsl.
      apply elem_of_cons in Hin as [|Hin]; [done|].
      apply elem_of_app in Hin as [Hin|Hin].
      * by apply (proj1 (Forall_forall _ _) Hsl) in Hin as [? ?].
      * repeat (apply elem_of_cons in Hin as [|Hin]; [done|]).
        by apply elem_of_nil in Hin.
Qed.

(** X19. Once the first-packet record is captured it is never replaced: over
    any number of turns of the read loop the record stays what it was, and
    every seek of those turns goes to its stream index and dts with the
    backward flag; a demuxer that does not loop never captures a record and
    never seeks. *)
Theorem first_packet_record_is_kept
    (conv : spec_float → Z) (envs : list IterEnv) :
  ∀ d d' evs st, DemuxerPlatform.Start_loop conv envs d = (d', evs, st) →
    loop d' = loop d
    ∧ (∀ fp, loopFirstPkt d = Some fp →
         loopFirstPkt d' = Some fp
         ∧ ∀ i ts fl, EvSeek i ts fl ∈ evs →
             i = Index (s fp) ∧ ts = dts fp ∧ fl = AVSEEK_FLAG_BACKWARD)
    ∧ (loop d = false →
         loopFirstPkt d' = loopFirstPkt d
         ∧ ∀ i ts fl, EvSeek i ts fl ∉ evs).
Proof.
  induction envs as [|ie envs IH]; intros d d' evs st H; simpl in H.
  - simplify_eq. split; [done|]. split.
    + intros fp Hfp. split; [done|]. intros i ts fl Hin.
      by apply elem_of_nil in Hin.
    + intros _. split; [done|]. intros i ts fl. apply not_elem_of_nil.
  - destruct (DemuxerPlatform.readFrame conv (ienv ie) d)
      as [[d1 evs1] stop] eqn:Hrf.
    destruct (readFrame_first_packet _ _ _ _ _ _ Hrf) as (R1 & R2 & R3 & R4).
    assert (Hseek : ∀ (tl : list effect) i ts fl,
              EvSeek i ts fl ∈ evs1 ++ tl →
              EvSeek i ts fl ∈ evs1 ∨ EvSeek i ts fl ∈ tl).
    { intros tl i ts fl Hin. by apply elem_of_app in Hin. }
    assert (Hend : ∀ i ts fl (tl : list effect),
              tl = [EvWait] ∨ tl = [EvHandlePause; EvWait] →
              EvSeek i ts fl ∉ tl).
    { intros i ts fl tl [-> | ->] Hin;
        repeat (apply elem_of_cons in Hin as [|Hin]; [done|]);
        by apply elem_of_nil in Hin. }
    assert (Hdone : ∀ tl, tl = [EvWait] ∨ tl = [EvHandlePause; EvWait] →
              loop d1 = loop d
              ∧ (∀ fp, loopFirstPkt d = Some fp →
                   loopFirstPkt d1 = Some fp
                   ∧ ∀ i ts fl, EvSeek i ts fl ∈ evs1 ++ tl →
                       i = Index (s fp) ∧ ts = dts fp
                       ∧ fl = AVSEEK_FLAG_BACKWARD)
              ∧ (loop d = false →
                   loopFirstPkt d1 = loopFirstPkt d
                   ∧ ∀ i ts fl, EvSeek i ts fl ∉ evs1 ++ tl)).
    { intros tl Htl. split; [done|]. split.
      - intros fp Hfp. split; [by apply R2|]. intros i ts fl Hin.
        apply Hseek in Hin as [Hin|Hin]; [|by apply Hend in Hin].
        destruct (R4 _ _ _ Hin) as (fp' & Hfp' & _ & -> & -> & ->).
        by simplify_eq.
      - intros Hl. split; [by apply R3|]. intros i ts fl Hin.
        apply Hseek in Hin as [Hin|Hin]; [|by apply Hend in Hin].
        destruct (R4 _ _ _ Hin) as (_ & _ & Hl' & _). congruence. }
    destruct stop; [simplify_eq; apply Hdone; by left|].
    destruct (cancelled ie); [simplify_eq; apply Hdone; by right|].
    destruct (DemuxerPlatform.Start_loop conv envs d1)
      as [[d2 evs2] st2] eqn:Hl.
    simplify_eq. destruct (IH _ _ _ _ Hl) as (I1 & I2 & I3).
    split; [congruence|]. split.
    + intros fp Hfp. destruct (I2 fp (R2 fp Hfp)) as [I2a I2b].
      split; [done|]. intros i ts fl Hin.
      apply Hseek in Hin as [Hin|Hin].
      * destruct (R4 _ _ _ Hin) as (fp' & Hfp' & _ & -> & -> & ->).
        by simplify_eq.
      * apply elem_of_cons in Hin as [|Hin]; [done|]. by apply I2b.
    + intros Hlf. destruct I3 as [I3a I3b]; [congruence|].
      split; [by rewrite I3a, R3|]. intros i ts fl Hin.
      apply Hseek in Hin as [Hin|Hin].
      * destruct (R4 _ _ _ Hin) as (_ & _ & Hl' & _). congruence.
      * apply elem_of_cons in Hin as [|Hin]; [done|]. by apply I3b in Hin.
Qed.

Lemma first_packet_record_is_kept_witness :
  ∃ d' evs,
    DemuxerPlatform.Start_loop smallest norate_turns
      (demuxer_norate (Some DemuxerExamples.firstPkt)) = (d', evs, Returned)
    ∧ EvSeek 0 7 AVSEEK_FLAG_BACKWARD ∈ evs
    ∧ loopFirstPkt d' = Some DemuxerExamples.firstPkt
    ∧ ∀ i ts fl, EvSeek i ts fl ∈ evs →
        i = Index (s DemuxerExamples.firstPkt)
        ∧ ts = dts DemuxerExamples.firstPkt ∧ fl = AVSEEK_FLAG_BACKWARD.
Proof.
  eexists _, _. split; [vm_compute; reflexivity|].
  split; [vm_compute; do 5 right; left|].
  match goal with |- loopFirstPkt ?d' = _ ∧ (∀ i ts fl, _ ∈ ?evs → _) =>
    exact (proj1 (proj2 (first_packet_record_is_kept smallest norate_turns
             (demuxer_norate (Some DemuxerExamples.firstPkt))
             d' evs Returned ltac:(vm_compute; reflexivity)))
             DemuxerExamples.firstPkt eq_refl)
  end.
Defined.

(** X20. Rate emulation never sleeps for the first packet of a stream, and
    when it sleeps it sleeps for the time left until the stream's next emission
    time, which is positive; the next emission time then advances by the
    pacing duration of the packet, from the clock for the first packet of the
    stream and from the previous emission time afterwards, whatever the clock
    says; the pacing duration is the one the language defines wherever it
    defines one; the other streams are not touched, and without rate
    emulation nothing sleeps and no stream is touched. *)
Theorem rate_emulation_schedule
    (conv : spec_float → Z) (e : ReadEnv) (d d' : Demuxer)
    (evs : list effect) (stop : bool) :
  DemuxerPlatform.readFrame conv e d = (d', evs, stop) →
  (∀ δ, EvSleep δ ∈ evs →
     0 < δ ∧ emulateRate d = true
     ∧ ∃ ds, ss d !! StreamIndex (read_pkt e) = Some ds
             ∧ emulateRateNextAt ds ≠ 0 ∧ δ = emulateRateNextAt ds - now e)
  ∧ (emulateRate d = false → ss d' = ss d)
  ∧ (∀ i, i ≠ StreamIndex (read_pkt e) → ss d' !! i = ss d !! i)
  ∧ (emulateRate d = true → 0 ≤ read_ret e →
     ∀ ds, ss d !! StreamIndex (read_pkt e) = Some ds →
       ss d' !! StreamIndex (read_pkt e)
       = Some {| ctx := ctx ds;
                 emulateRateNextAt :=
                   (if emulateRateNextAt ds =? 0 then now e
                    else emulateRateNextAt ds)
                   + av_rescale_q
                       (DemuxerPlatform.emulateRatePktDuration conv
                          (restamped e d) (ctx ds))
                       (StreamTimeBase (ds_s ds)) nanosecondRational;
                 ds_s := ds_s ds |}
       ∧ (0 < emulateRateNextAt ds - now e → emulateRateNextAt ds ≠ 0 →
          EvSleep (emulateRateNextAt ds - now e) ∈ evs)
       ∧ ∀ dur, emulateRatePktDuration (restamped e d) (ctx ds) = Some dur →
           DemuxerPlatform.emulateRatePktDuration conv (restamped e d) (ctx ds)
           = dur).
Proof.
  intros H.
  destruct (readFrame_cases _ _ _ _ _ _ H)
    as [(Hneg & -> & mid & -> & Hmid)
       |[(Hpos & Hss & -> & -> & ->)
        |(Hpos & -> & st & sl & Hss & -> & _ & _ & _ & Hem)]].
  - split; [|split; [done|split; [done|lia]]]. intros δ Hin. exfalso.
    apply elem_of_cons in Hin as [|Hin]; [done|].
    apply elem_of_app in Hin as [Hin|Hin].
    + by apply (proj1 (Forall_forall _ _) Hmid) in Hin.
    + by apply list_elem_of_singleton in Hin.
  - split; [|split; [done|split; [done|]]].
    + intros δ Hin. exfalso.
      repeat (apply elem_of_cons in Hin as [|Hin]; [done|]).
      by apply elem_of_nil in Hin.
    + intros _ _ ds Hds. congruence.
  - destruct (emulateRate d) eqn:Her.
    + destruct Hem as (st' & Hem & Hss').
      pose proof Hem as Hem0.
      destruct (emulate_effects _ _ _ _ _ _ Hem) as [Hsl ->].
      split; [|split; [done|split]].
      * intros δ Hin.
        apply elem_of_cons in Hin as [|Hin]; [done|].
        apply elem_of_app in Hin as [Hin|Hin]; cycle 1.
        { repeat (apply elem_of_cons in Hin as [|Hin]; [done|]).
          by apply elem_of_nil in Hin. }
        destruct Hsl as [->|(-> & Hδ & Hnz)]; [by apply elem_of_nil in Hin|].
        apply list_elem_of_singleton in Hin. simplify_eq.
        split; [done|]. split; [done|]. by exists st.
      * intros i Hi. rewrite Hss'. by rewrite lookup_insert_ne.
      * intros _ _ ds Hds. simplify_eq. split; [|split].
        -- rewrite Hss'. by rewrite lookup_insert_eq.
        -- intros Hδ Hnz. unfold DemuxerPlatform.emulate in Hem0.
           apply Z.eqb_neq in Hnz. rewrite Hnz in Hem0. simpl in Hem0.
           apply Z.gtb_lt in Hδ. rewrite Hδ in Hem0. simplify_eq.
           apply elem_of_cons. right. by left.
        -- intros dur. apply emulateRatePktDuration_agrees.
    + destruct Hem as [-> Hss']. split; [|split; [done|split; [|done]]].
      * intros δ Hin. exfalso.
        repeat (apply elem_of_cons in Hin as [|Hin]; [done|]).
        by apply elem_of_nil in Hin.
      * intros i _. by rewrite Hss'.
Qed.

Lemma rate_emulation_schedule_witness :
  ∃ d' evs stop,
    DemuxerPlatform.readFrame smallest env_norate (demuxer_norate None)
    = (d', evs, stop)
    ∧ emulateRatePktDuration
        (DemuxerExamples.pkt1024 (Some DemuxerExamples.skip512)) audio_norate
      = None
    ∧ ss d' !! 0
      = Some {| ctx := audio_norate;
                emulateRateNextAt :=
                  5 + av_rescale_q
                        (DemuxerPlatform.emulateRatePktDuration smallest
                           (DemuxerExamples.pkt1024
                              (Some DemuxerExamples.skip512)) audio_norate)
                        (NewRational 1 48000) nanosecondRational;
                ds_s := DemuxerExamples.stream0 |}.
Proof.
  eexists _, _, _. split; [vm_compute; reflexivity|].
  split; [vm_compute; reflexivity|].
  match goal with |- ss ?d' !! _ = _ =>
    exact (proj1 (proj2 (proj2 (proj2 (rate_emulation_schedule smallest
             env_norate (demuxer_norate None) d' _ false
             ltac:(vm_compute; reflexivity))))
             eq_refl ltac:(discriminate)
             {| ctx := audio_norate; emulateRateNextAt := 0;
                ds_s := DemuxerExamples.stream0 |} eq_refl))
  end.
Defined.

End DemuxerMore.
